(** * UIFramework: focus management and widget interaction state machines

    A shallow embedding of the keyboard-focus registry ([UIFocusManager]),
    the base interactive component, [UIButton], [UISwitch], [UICheckbox]
    with [UIRadioGroup], [UINumeric] and [UITabbedPanel] of the Excalibur
    UI framework, together with the properties stated about them.

    Widget objects live in a heap indexed by object identity, so that the
    JavaScript reference comparisons ([===] on objects, [indexOf]) and the
    aliasing between a registry and the widgets it stores are kept. Every
    [emitter.emit] is recorded in the emitting object's event list. The
    listeners the repository itself installs (those of [UIRadioGroup]) run
    inside [emit], as they do in Excalibur; listeners and callbacks of the
    application are taken to leave the widgets alone. *)

From Stdlib Require Import ZArith List Bool Lia Ascii String.
From Stdlib Require Import Uint63 PrimFloat FloatClass SpecFloat FloatOps.
From Stdlib Require FloatAxioms.
From stdpp Require Import base decidable option functions list gmap sorting strings pretty.

Local Open Scope Z_scope.

(** Object identity of a widget instance. *)
Definition wid := nat.

(** ** JavaScript arrays *)

(** [Array.prototype.indexOf], [-1] when absent. *)
Fixpoint indexOf {A : Type} `{EqDecision A} (x : A) (l : list A) : Z :=
  match l with
  | [] => -1
  | y :: l' => if decide (y = x) then 0
               else let i := indexOf x l' in if i <? 0 then -1 else i + 1
  end.

(** Array read [l[i]], [undefined] outside the array. *)
Definition at_index {A : Type} (l : list A) (i : Z) : option A :=
  if i <? 0 then None else l !! Z.to_nat i.

(** [0 <= i && i < l.length] *)
Definition in_range {A : Type} (l : list A) (i : Z) : bool :=
  (0 <=? i) && (i <? Z.of_nat (length l)).

(** ** The [IFocusable] capability, with the enabled flag

    [focus], [loseFocus] and [setManager] are dispatched dynamically in the
    source; each widget class gives an instance. [hasManager] tells whether
    the [manager] back-reference is set, and [focusGated] whether the
    class's [focus] and [loseFocus] return at once on a disabled widget:
    those of [InteractiveUIComponent], the buttons, the checkboxes and the
    text and numeric inputs do, those of the sliders and switches do not. *)
Class Focusable (W : Type) := {
  tabStopIndex : W → Z;
  isEnabled : W → bool;
  isFocused : W → bool;
  hasManager : W → bool;
  focusGated : W → bool;
  focus : W → W;
  loseFocus : W → W;
  setManager : W → W;
}.

(** What the implementations do to the fields the focus manager relies
    on. *)
Class FocusableLaws (W : Type) `{Focusable W} : Prop := {
  focus_isFocused x :
    isFocused (focus x)
    = if focusGated x && negb (isEnabled x) then isFocused x else true;
  loseFocus_isFocused x :
    isFocused (loseFocus x)
    = if focusGated x && negb (isEnabled x) then isFocused x else false;
  setManager_isFocused x : isFocused (setManager x) = isFocused x;
  focus_isEnabled x : isEnabled (focus x) = isEnabled x;
  loseFocus_isEnabled x : isEnabled (loseFocus x) = isEnabled x;
  setManager_isEnabled x : isEnabled (setManager x) = isEnabled x;
  focus_focusGated x : focusGated (focus x) = focusGated x;
  loseFocus_focusGated x : focusGated (loseFocus x) = focusGated x;
  setManager_focusGated x : focusGated (setManager x) = focusGated x;
  focus_tabStopIndex x : tabStopIndex (focus x) = tabStopIndex x;
  loseFocus_tabStopIndex x : tabStopIndex (loseFocus x) = tabStopIndex x;
  setManager_tabStopIndex x : tabStopIndex (setManager x) = tabStopIndex x;
  setManager_hasManager x : hasManager (setManager x) = true;
}.

(** ** uiComponent.ts: [UIComponent] and [InteractiveUIComponent] *)
Module Component.

Record InteractiveUIComponent := {
  _enabled : bool;
  _isFocused : bool;
  tabStopIndex : Z;
  manager : bool;
}.

Definition create (tab : Z) : InteractiveUIComponent :=
  {| _enabled := true; _isFocused := false; tabStopIndex := tab; manager := false |}.

(** [InteractiveUIComponent.focus]; the [onFocus] hook does nothing. *)
Definition focus (c : InteractiveUIComponent) : InteractiveUIComponent :=
  if negb (_enabled c) then c
  else if negb (_isFocused c)
       then {| _enabled := _enabled c; _isFocused := true;
               tabStopIndex := tabStopIndex c; manager := manager c |}
       else c.

(** [InteractiveUIComponent.loseFocus]; the [onBlur] hook does nothing. *)
Definition loseFocus (c : InteractiveUIComponent) : InteractiveUIComponent :=
  if negb (_enabled c) then c
  else if _isFocused c
       then {| _enabled := _enabled c; _isFocused := false;
               tabStopIndex := tabStopIndex c; manager := manager c |}
       else c.

Definition setManager (c : InteractiveUIComponent) : InteractiveUIComponent :=
  {| _enabled := _enabled c; _isFocused := _isFocused c;
     tabStopIndex := tabStopIndex c; manager := true |}.

(** [UIComponent.setEnabled]; the [onEnabled]/[onDisabled] hooks do nothing. *)
Definition UIComponent_setEnabled (value : bool) (c : InteractiveUIComponent)
  : InteractiveUIComponent :=
  if negb (Bool.eqb value (_enabled c))
  then {| _enabled := value; _isFocused := _isFocused c;
          tabStopIndex := tabStopIndex c; manager := manager c |}
  else c.

(** [InteractiveUIComponent.setEnabled]: blur first when disabling. *)
Definition setEnabled (value : bool) (c : InteractiveUIComponent)
  : InteractiveUIComponent :=
  if negb (Bool.eqb value (_enabled c))
  then let c1 := if negb value && _isFocused c then loseFocus c else c in
       UIComponent_setEnabled value c1
  else c.

#[global] Instance focusable : Focusable InteractiveUIComponent :=
  Build_Focusable _ tabStopIndex _enabled _isFocused manager (λ _, true)
                  focus loseFocus setManager.

End Component.

(** ** uiFocusManager.ts: [UIFocusManager] *)
Module FocusManager.
Section Manager.
Context {W : Type} `{Focusable W}.

(** The manager's two fields, and the heap of widgets it points into. *)
Record World := {
  currentTabIndex : Z;
  components : gmap Z wid;
  heap : wid → W;
}.

Definition create (h : wid → W) : World :=
  {| currentTabIndex := -1; components := ∅; heap := h |}.

(** Calling a method on the object [c]. *)
Definition send (c : wid) (f : W → W) (h : wid → W) : wid → W :=
  <[c := f (h c)]> h.

(** The [focused] getter: [components.get(currentTabIndex)]. *)
Definition focused (st : World) : option wid :=
  components st !! currentTabIndex st.

(** [focused?.loseFocus()] *)
Definition blurFocused (st : World) : wid → W :=
  match focused st with
  | Some p => send p loseFocus (heap st)
  | None => heap st
  end.

(** One iteration of the loop of [register]. *)
Definition register1 (c : wid) (st : World) : World :=
  {| currentTabIndex := currentTabIndex st;
     components := <[tabStopIndex (heap st c) := c]> (components st);
     heap := send c setManager (heap st) |}.

Definition register (cs : list wid) (st : World) : World :=
  foldl (λ s c, register1 c s) st cs.

Definition clearFocus (st : World) : World :=
  {| currentTabIndex := -1;
     components := components st;
     heap := blurFocused st |}.

(** One iteration of the loop of [unregister]. *)
Definition unregister1 (c : wid) (st : World) : World :=
  let st1 := if decide (currentTabIndex st = tabStopIndex (heap st c))
             then clearFocus st else st in
  {| currentTabIndex := currentTabIndex st1;
     components := delete (tabStopIndex (heap st1 c)) (components st1);
     heap := heap st1 |}.

Definition unregister (cs : list wid) (st : World) : World :=
  foldl (λ s c, unregister1 c s) st cs.

Definition setFocus (c : wid) (st : World) : World :=
  if decide (focused st = Some c) then st
  else
    let h1 := blurFocused st in
    {| currentTabIndex := tabStopIndex (h1 c);
       components := components st;
       heap := send c focus h1 |}.

(** The line [if (this.manager) this.manager.setFocus(this)] that every
    widget runs in its pointer-down handler. *)
Definition requestFocus (c : wid) (st : World) : World :=
  if hasManager (heap st c) then setFocus c st else st.

(** [Array.from(components.keys()).sort((a, b) => a - b)] *)
Definition sortedKeys (st : World) : list Z :=
  merge_sort Z.le (map_to_list (components st)).*1.

(** The tab-stop index [moveFocus] goes to; [%] is JavaScript's
    truncating remainder. *)
Definition nextIndex (forward : bool) (st : World) : option Z :=
  let sorted := sortedKeys st in
  let len := Z.of_nat (length sorted) in
  if decide (currentTabIndex st = -1)
  then (if forward then at_index sorted 0 else at_index sorted (len - 1))
  else
    let currentPos := indexOf (currentTabIndex st) sorted in
    if forward then at_index sorted (Z.rem (currentPos + 1) len)
    else at_index sorted (Z.rem (currentPos - 1 + len) len).

Definition moveFocus (forward : bool) (st : World) : World :=
  if decide (size (components st) = 0%nat) then st
  else
    match nextIndex forward st with
    | Some k =>
        match components st !! k with
        | Some next => setFocus next st
        | None => st
        end
    | None => st
    end.

(** *** Call sequences *)

Inductive Op :=
| Register (c : wid)
| Unregister (c : wid)
| SetFocus (c : wid)
| ClearFocus
| MoveFocus (forward : bool)
| RequestFocus (c : wid).

Definition step (o : Op) (st : World) : World :=
  match o with
  | Register c => register1 c st
  | Unregister c => unregister1 c st
  | SetFocus c => setFocus c st
  | ClearFocus => clearFocus st
  | MoveFocus forward => moveFocus forward st
  | RequestFocus c => requestFocus c st
  end.

Definition run (ops : list Op) (st : World) : World :=
  foldl (λ s o, step o s) st ops.

(** *** State predicates *)

(** Every registry entry is stored under the widget's own tab-stop index. *)
Definition keyed (st : World) : Prop :=
  ∀ k w, components st !! k = Some w → tabStopIndex (heap st w) = k.

Definition registered (st : World) (w : wid) : Prop :=
  ∃ k, components st !! k = Some w.

(** [currentTabIndex] is [-1] or a key of the registry. *)
Definition current_valid (st : World) : Prop :=
  currentTabIndex st = -1 ∨ is_Some (components st !! currentTabIndex st).

(** At most one registered widget reports [focused = true]. *)
Definition focus_exclusive (st : World) : Prop :=
  ∀ w1 w2, registered st w1 → registered st w2 →
    isFocused (heap st w1) = true → isFocused (heap st w2) = true → w1 = w2.

(** Only the widget the manager regards as current may hold focus. *)
Definition only_current_focused (st : World) : Prop :=
  ∀ w, isFocused (heap st w) = true → focused st = Some w.

(** A disabled widget of a class that gates [focus] is not focused. *)
Definition disabled_unfocused (st : World) : Prop :=
  ∀ w, focusGated (heap st w) = true → isEnabled (heap st w) = false →
       isFocused (heap st w) = false.

Definition nobody_focused (st : World) : Prop :=
  ∀ w, isFocused (heap st w) = false.

(** *** Which calls a sequence may contain *)

(** [setFocus] is given a widget that is in the registry, and [register]
    never replaces another widget stored under the same index. *)
Definition exclusive_call (st : World) (o : Op) : bool :=
  match o with
  | Register c =>
      match components st !! tabStopIndex (heap st c) with
      | Some w => bool_decide (w = c)
      | None => true
      end
  | SetFocus c =>
      bool_decide (components st !! tabStopIndex (heap st c) = Some c)
  | Unregister _ => true
  | ClearFocus | MoveFocus _ | RequestFocus _ => false
  end.

(** [setFocus] is given a widget that is in the registry; nothing is asked
    of [register] and [unregister]. *)
Definition registered_call (st : World) (o : Op) : bool :=
  match o with
  | SetFocus c =>
      bool_decide (components st !! tabStopIndex (heap st c) = Some c)
  | Register _ | Unregister _ => true
  | ClearFocus | MoveFocus _ | RequestFocus _ => false
  end.

(** [setFocus], also when reached through a widget's back-reference, is
    given a widget whose tab-stop index is a key of the registry. *)
Definition indexed_call (st : World) (o : Op) : bool :=
  match o with
  | SetFocus c =>
      bool_decide (is_Some (components st !! tabStopIndex (heap st c)))
  | RequestFocus c =>
      negb (hasManager (heap st c))
      || bool_decide (is_Some (components st !! tabStopIndex (heap st c)))
  | _ => true
  end.

Fixpoint admissible (ok : World → Op → bool) (ops : list Op) (st : World) : bool :=
  match ops with
  | [] => true
  | o :: ops' => ok st o && admissible ok ops' (step o st)
  end.

End Manager.
Arguments World W : clear implicits.

End FocusManager.

(** ** uiButton.ts: [UIButton]

    [UISpriteButton] has the same handlers line for line. *)
Module Button.

Inductive UIButtonState := idle | hovered | pressed | disabled.

Inductive UIButtonEvents :=
| UIButtonClicked | UIButtonDown | UIButtonUp
| UIButtonHovered | UIButtonUnhovered
| UIButtonDisabled | UIButtonEnabled
| UIButtonFocused | UIButtonUnfocused.

#[global] Instance UIButtonEvents_eq_dec : EqDecision UIButtonEvents.
Proof. solve_decision. Defined.

(** The keys the keyboard handlers tell apart. *)
Inductive Keys := Space | Enter | OtherKey.

(** The fields of a button. [leaveTimers] counts the [setTimeout]
    callbacks of [onClick] that have not run yet, [emitted] lists the
    events passed to [emitter.emit], oldest first, and [callbackCalls]
    counts the calls of the configured click callback. *)
Record UIButton := mk {
  _enabled : bool;
  _isFocused : bool;
  tabStopIndex : Z;
  manager : bool;
  state : UIButtonState;
  _isHovered : bool;
  isPressed : bool;
  ignoreLeave : bool;
  leaveTimers : nat;
  emitted : list UIButtonEvents;
  callbackCalls : nat;
}.

Definition create (tab : Z) : UIButton :=
  mk true false tab false idle false false false 0 [] 0.

Definition with_enabled v b :=
  mk v (_isFocused b) (tabStopIndex b) (manager b) (state b) (_isHovered b)
     (isPressed b) (ignoreLeave b) (leaveTimers b) (emitted b) (callbackCalls b).
Definition with_isFocused v b :=
  mk (_enabled b) v (tabStopIndex b) (manager b) (state b) (_isHovered b)
     (isPressed b) (ignoreLeave b) (leaveTimers b) (emitted b) (callbackCalls b).
Definition with_manager v b :=
  mk (_enabled b) (_isFocused b) (tabStopIndex b) v (state b) (_isHovered b)
     (isPressed b) (ignoreLeave b) (leaveTimers b) (emitted b) (callbackCalls b).
Definition with_state v b :=
  mk (_enabled b) (_isFocused b) (tabStopIndex b) (manager b) v (_isHovered b)
     (isPressed b) (ignoreLeave b) (leaveTimers b) (emitted b) (callbackCalls b).
Definition with_isHovered v b :=
  mk (_enabled b) (_isFocused b) (tabStopIndex b) (manager b) (state b) v
     (isPressed b) (ignoreLeave b) (leaveTimers b) (emitted b) (callbackCalls b).
Definition with_isPressed v b :=
  mk (_enabled b) (_isFocused b) (tabStopIndex b) (manager b) (state b) (_isHovered b)
     v (ignoreLeave b) (leaveTimers b) (emitted b) (callbackCalls b).
Definition with_ignoreLeave v n b :=
  mk (_enabled b) (_isFocused b) (tabStopIndex b) (manager b) (state b) (_isHovered b)
     (isPressed b) v n (emitted b) (callbackCalls b).

(** [this.emitter.emit(...)] *)
Definition emit (e : UIButtonEvents) b :=
  mk (_enabled b) (_isFocused b) (tabStopIndex b) (manager b) (state b) (_isHovered b)
     (isPressed b) (ignoreLeave b) (leaveTimers b) (emitted b ++ [e])
     (callbackCalls b).

(** [this.callback()] *)
Definition callback b :=
  mk (_enabled b) (_isFocused b) (tabStopIndex b) (manager b) (state b) (_isHovered b)
     (isPressed b) (ignoreLeave b) (leaveTimers b) (emitted b)
     (S (callbackCalls b)).

Definition updateState (b : UIButton) : UIButton :=
  if negb (_enabled b) then with_state disabled b
  else if isPressed b then with_state pressed b
  else if _isHovered b then with_state hovered b
  else with_state idle b.

Definition onKeyDown (key : Keys) (b : UIButton) : UIButton :=
  if negb (_enabled b) then b
  else if negb (_isFocused b) then b
  else match key with
       | OtherKey => b
       | _ => updateState (emit UIButtonDown (with_isPressed true b))
       end.

Definition onKeyUp (key : Keys) (b : UIButton) : UIButton :=
  if negb (_enabled b) then b
  else if negb (_isFocused b) then b
  else match key with
       | OtherKey => b
       | _ =>
           let b1 := emit UIButtonUp b in
           let b2 := if isPressed b1 then callback (emit UIButtonClicked b1)
                     else b1 in
           updateState (with_isPressed false b2)
       end.

Definition onHover (b : UIButton) : UIButton :=
  if negb (_enabled b) then b
  else updateState (emit UIButtonHovered (with_isHovered true b)).

Definition onUnhover (b : UIButton) : UIButton :=
  if negb (_enabled b) then b
  else if ignoreLeave b then b
  else updateState (with_isHovered false (emit UIButtonUnhovered b)).

Definition focus (b : UIButton) : UIButton :=
  if negb (_enabled b) then b
  else updateState (emit UIButtonFocused (with_isFocused true b)).

Definition loseFocus (b : UIButton) : UIButton :=
  if negb (_enabled b) then b
  else updateState (emit UIButtonUnfocused (with_isFocused false b)).

Definition setManager (b : UIButton) : UIButton := with_manager true b.

(** [onPointerDown] up to, and without, the call of the manager. *)
Definition onPointerDown_local (b : UIButton) : UIButton :=
  updateState (emit UIButtonDown (with_isPressed true b)).

(** The [pointerup] handler; the timer it starts is left pending. *)
Definition onClick (b : UIButton) : UIButton :=
  if negb (_enabled b) then b
  else
    let wasPressed := isPressed b in
    let b1 := with_isPressed false b in
    let b2 := with_ignoreLeave true (S (leaveTimers b1)) b1 in
    let b3 := updateState b2 in
    let b4 := emit UIButtonUp b3 in
    if wasPressed && _isHovered b4
    then callback (emit UIButtonClicked b4)
    else b4.

(** One pending [setTimeout] callback of [onClick] runs. *)
Definition leaveTimeout (b : UIButton) : UIButton :=
  match leaveTimers b with
  | O => b
  | S n => with_ignoreLeave false n b
  end.

Definition onEnabled (b : UIButton) : UIButton := emit UIButtonEnabled b.

Definition onDisabled (b : UIButton) : UIButton :=
  emit UIButtonDisabled (with_isFocused false (with_isHovered false b)).

(** [UIComponent.setEnabled] with the button's hooks. *)
Definition UIComponent_setEnabled (value : bool) (b : UIButton) : UIButton :=
  if negb (Bool.eqb value (_enabled b))
  then let b1 := with_enabled value b in
       if value then onEnabled b1 else onDisabled b1
  else b.

(** [InteractiveUIComponent.setEnabled] with the button's [loseFocus]. *)
Definition InteractiveUIComponent_setEnabled (value : bool) (b : UIButton)
  : UIButton :=
  if negb (Bool.eqb value (_enabled b))
  then let b1 := if negb value && _isFocused b then loseFocus b else b in
       UIComponent_setEnabled value b1
  else b.

Definition setEnabled (value : bool) (b : UIButton) : UIButton :=
  updateState (InteractiveUIComponent_setEnabled value b).

#[global] Instance focusable : Focusable UIButton :=
  Build_Focusable _ tabStopIndex _enabled _isFocused manager (λ _, true)
                  focus loseFocus setManager.

(** *** Buttons in a world with a focus manager *)

Definition World := FocusManager.World UIButton.

(** Run a handler of the button [c]. *)
Definition handle (f : UIButton → UIButton) (c : wid) (st : World) : World :=
  {| FocusManager.currentTabIndex := FocusManager.currentTabIndex st;
     FocusManager.components := FocusManager.components st;
     FocusManager.heap := FocusManager.send c f (FocusManager.heap st) |}.

(** The [pointerdown] handler. *)
Definition onPointerDown (c : wid) (st : World) : World :=
  if negb (_enabled (FocusManager.heap st c)) then st
  else FocusManager.requestFocus c (handle onPointerDown_local c st).

(** The events the button [c] emitted between two worlds. *)
Definition emitted_since (st st' : World) (c : wid) : list UIButtonEvents :=
  drop (length (emitted (FocusManager.heap st c)))
       (emitted (FocusManager.heap st' c)).

(** Pointer-down, pointer-leave, pointer-up on the button [c]. *)
Definition drag_off_release (c : wid) (st : World) : World :=
  handle onClick c (handle onUnhover c (onPointerDown c st)).

(** Pointer-down, pointer-up on the button [c]. *)
Definition press_release (c : wid) (st : World) : World :=
  handle onClick c (onPointerDown c st).

(** How often the event [e] occurs in a list of emitted events. *)
Definition occurrences (e : UIButtonEvents) (l : list UIButtonEvents) : nat :=
  length (filter (λ x, x = e) l).

(** *** Sequences of handler calls on one button

    What can reach a button: the keyboard and pointer handlers, a pending
    timer of [onClick], [focus] and [loseFocus] (called by the focus
    manager or by the application), [setManager] and [setEnabled]. The
    pointer-down handler is taken up to its call of the manager, whose
    effect on a button is a [focus] or a [loseFocus]. *)
Inductive Input :=
| KeyDown (key : Keys)
| KeyUp (key : Keys)
| PointerEnter
| PointerLeave
| PointerDown
| PointerUp
| TimerFires
| Focus
| Blur
| SetManager
| SetEnabled (value : bool).

Definition react (i : Input) (b : UIButton) : UIButton :=
  match i with
  | KeyDown key => onKeyDown key b
  | KeyUp key => onKeyUp key b
  | PointerEnter => onHover b
  | PointerLeave => onUnhover b
  | PointerDown => if negb (_enabled b) then b else onPointerDown_local b
  | PointerUp => onClick b
  | TimerFires => leaveTimeout b
  | Focus => focus b
  | Blur => loseFocus b
  | SetManager => setManager b
  | SetEnabled value => setEnabled value b
  end.

Definition play (inputs : list Input) (b : UIButton) : UIButton :=
  foldl (λ s i, react i s) b inputs.

(** The keyboard and pointer handlers and the calls of [focus] and
    [loseFocus], as opposed to a pending timer, to [setManager], which
    [register] calls, and to [setEnabled]. *)
Definition from_user (i : Input) : bool :=
  match i with
  | TimerFires | SetManager | SetEnabled _ => false
  | _ => true
  end.

(** The state [updateState] computes from the flags. *)
Definition state_of_flags (b : UIButton) : UIButtonState :=
  if negb (_enabled b) then disabled
  else if isPressed b then pressed
  else if _isHovered b then hovered
  else idle.

End Button.

(** ** uiSwitch.ts: [UISwitch]

    [UISpriteSwitch] has the same handlers line for line. *)
Module Switch.

Inductive UISwitchEvents :=
| UISwitchChanged (checked : bool)
| UISwitchFocused | UISwitchUnfocused
| UISwitchDown | UISwitchUp
| UISwitchEnabled | UISwitchDisabled
| UISwitchHovered | UISwitchUnhovered.

Inductive Keys := Space | Enter | OtherKey.

Record UISwitch := mk {
  _enabled : bool;
  _isFocused : bool;
  tabStopIndex : Z;
  manager : bool;
  _checked : bool;
  _isHovered : bool;
  emitted : list UISwitchEvents;
}.

(** [new UISwitch(config)] *)
Definition create (checked : bool) (tab : option Z) : UISwitch :=
  mk true false (default (-1) tab) false checked false [].

Definition emit (e : UISwitchEvents) (s : UISwitch) : UISwitch :=
  mk (_enabled s) (_isFocused s) (tabStopIndex s) (manager s) (_checked s)
     (_isHovered s) (emitted s ++ [e]).
Definition with_enabled (v : bool) (s : UISwitch) : UISwitch :=
  mk v (_isFocused s) (tabStopIndex s) (manager s) (_checked s)
     (_isHovered s) (emitted s).
Definition with_isFocused (v : bool) (s : UISwitch) : UISwitch :=
  mk (_enabled s) v (tabStopIndex s) (manager s) (_checked s)
     (_isHovered s) (emitted s).
Definition with_checked (v : bool) (s : UISwitch) : UISwitch :=
  mk (_enabled s) (_isFocused s) (tabStopIndex s) (manager s) v
     (_isHovered s) (emitted s).
Definition with_isHovered (v : bool) (s : UISwitch) : UISwitch :=
  mk (_enabled s) (_isFocused s) (tabStopIndex s) (manager s) (_checked s)
     v (emitted s).

Definition onHover (s : UISwitch) : UISwitch :=
  emit UISwitchHovered (with_isHovered true s).

Definition onUnhover (s : UISwitch) : UISwitch :=
  emit UISwitchUnhovered (with_isHovered false s).

(** The [checked] setter. *)
Definition set_checked (v : bool) (s : UISwitch) : UISwitch :=
  if negb (Bool.eqb v (_checked s))
  then let s1 := with_checked v s in emit (UISwitchChanged (_checked s1)) s1
  else s.

Definition toggle (s : UISwitch) : UISwitch :=
  let s1 := set_checked (negb (_checked s)) s in
  emit (UISwitchChanged (_checked s1)) s1.

Definition onKeyDown (key : Keys) (s : UISwitch) : UISwitch :=
  if negb (_enabled s) then s
  else if negb (_isFocused s) then s
  else match key with
       | OtherKey => s
       | _ => toggle s
       end.

Definition onClick (s : UISwitch) : UISwitch :=
  if negb (_enabled s) then s
  else toggle (emit UISwitchUp s).

(** Neither [focus] nor [loseFocus] looks at the enabled flag. *)
Definition focus (s : UISwitch) : UISwitch :=
  emit UISwitchFocused (with_isFocused true s).

Definition loseFocus (s : UISwitch) : UISwitch :=
  emit UISwitchUnfocused (with_isFocused false s).

Definition setManager (s : UISwitch) : UISwitch :=
  mk (_enabled s) (_isFocused s) (tabStopIndex s) true (_checked s)
     (_isHovered s) (emitted s).

(** [InteractiveUIComponent.setEnabled] with the switch's [loseFocus]; the
    hooks of [UIComponent.setEnabled] are the empty defaults. *)
Definition InteractiveUIComponent_setEnabled (value : bool) (s : UISwitch)
  : UISwitch :=
  if negb (Bool.eqb value (_enabled s))
  then let s1 := if negb value && _isFocused s then loseFocus s else s in
       with_enabled value s1
  else s.

Definition setEnabled (v : bool) (s : UISwitch) : UISwitch :=
  let s1 := InteractiveUIComponent_setEnabled v s in
  if v then emit UISwitchEnabled s1 else emit UISwitchDisabled s1.

#[global] Instance focusable : Focusable UISwitch :=
  Build_Focusable _ tabStopIndex _enabled _isFocused manager (λ _, false)
                  focus loseFocus setManager.

Definition World := FocusManager.World UISwitch.

(** The [pointerdown] handler. *)
Definition onPointerDown (c : wid) (st : World) : World :=
  if negb (_enabled (FocusManager.heap st c)) then st
  else FocusManager.requestFocus c
         {| FocusManager.currentTabIndex := FocusManager.currentTabIndex st;
            FocusManager.components := FocusManager.components st;
            FocusManager.heap :=
              FocusManager.send c (emit UISwitchDown) (FocusManager.heap st) |}.

End Switch.

(** ** uiCheckbox.ts and uiRadioGroup.ts: [UICheckbox] in a [UIRadioGroup]

    [UISpriteCheckbox] has the same [checked] accessor pair. The emitter of
    Excalibur calls the listeners of an event synchronously, inside [emit];
    the handlers below are therefore re-entrant, and run on fuel. A result
    [None] stands for fuel that ran out or for a [TypeError]. *)
Module RadioGroup.

Inductive UICheckboxEvents :=
| UICheckboxChanged (checked : bool)
| UICheckboxUp.

(** The fields of a checkbox the group reads or writes. [subscriptions]
    counts the listeners the group has put on [UICheckboxChanged]. *)
Record UICheckbox := mkBox {
  _enabled : bool;
  _checked : bool;
  subscriptions : nat;
  emitted : list UICheckboxEvents;
}.

Definition newCheckbox (checked : bool) : UICheckbox :=
  mkBox true checked 0 [].

(** A [UIRadioGroupChanged] event: [selectedIndex] and [previousIndex]. *)
Record UIRadioGroupChanged := changed {
  selectedIndex : Z;
  previousIndex : Z;
}.

(** The group and the heap of checkboxes it points into. *)
Record World := mkWorld {
  checkboxes : list wid;
  allowDeselect : bool;
  _selectedIndex : Z;
  groupEmitted : list UIRadioGroupChanged;
  boxes : wid → UICheckbox;
}.

(** [new UIRadioGroup(config)] *)
Definition create (allow : option bool) (selected : option Z)
    (h : wid → UICheckbox) : World :=
  mkWorld [] (default false allow) (default (-1) selected) [] h.

Definition with_box (c : wid) (f : UICheckbox → UICheckbox) (g : World) : World :=
  mkWorld (checkboxes g) (allowDeselect g) (_selectedIndex g) (groupEmitted g)
          (<[c := f (boxes g c)]> (boxes g)).
Definition with_checkboxes (l : list wid) (g : World) : World :=
  mkWorld l (allowDeselect g) (_selectedIndex g) (groupEmitted g) (boxes g).
Definition with_selectedIndex (i : Z) (g : World) : World :=
  mkWorld (checkboxes g) (allowDeselect g) i (groupEmitted g) (boxes g).
Definition emitGroup (e : UIRadioGroupChanged) (g : World) : World :=
  mkWorld (checkboxes g) (allowDeselect g) (_selectedIndex g)
          (groupEmitted g ++ [e]) (boxes g).

(** Run [k] once for each of [n] listeners, stopping at a failure. *)
Definition each_listener (n : nat) (k : World → option World) (g : World)
  : option World :=
  foldl (λ acc _, acc ≫= k) (Some g) (replicate n ()).

(** The [checked] setter of a checkbox, the group's
    [handleCheckboxChanged], [select] and [deselect]. *)
Fixpoint set_checked (fuel : nat) (c : wid) (value : bool) (g : World)
    {struct fuel} : option World :=
  match fuel with
  | O => None
  | S fuel =>
      if Bool.eqb value (_checked (boxes g c)) then Some g
      else
        let g1 := with_box c (λ b, mkBox (_enabled b) value (subscriptions b)
                                      (emitted b ++ [UICheckboxChanged value])) g in
        each_listener (subscriptions (boxes g1 c))
                      (handleCheckboxChanged fuel c value) g1
  end
with handleCheckboxChanged (fuel : nat) (c : wid) (checked : bool) (g : World)
    {struct fuel} : option World :=
  match fuel with
  | O => None
  | S fuel =>
      let index := indexOf c (checkboxes g) in
      if index =? -1 then Some g
      else if checked then select fuel index g
      else if allowDeselect g && (index =? _selectedIndex g)
           then deselect fuel g
           else set_checked fuel c true g
  end
with select (fuel : nat) (index : Z) (g : World) {struct fuel} : option World :=
  match fuel with
  | O => None
  | S fuel =>
      if negb (in_range (checkboxes g) index) then Some g
      else if _selectedIndex g =? index then Some g
      else
        let previous := _selectedIndex g in
        g1 ← (if in_range (checkboxes g) (_selectedIndex g)
              then c ← at_index (checkboxes g) (_selectedIndex g);
                   set_checked fuel c false g
              else Some g);
        let g2 := with_selectedIndex index g1 in
        c ← at_index (checkboxes g2) index;
        g3 ← set_checked fuel c true g2;
        Some (emitGroup (changed (_selectedIndex g3) previous) g3)
  end
with deselect (fuel : nat) (g : World) {struct fuel} : option World :=
  match fuel with
  | O => None
  | S fuel =>
      if negb (allowDeselect g) then Some g
      else if _selectedIndex g =? -1 then Some g
      else
        let previous := _selectedIndex g in
        g1 ← (if in_range (checkboxes g) (_selectedIndex g)
              then c ← at_index (checkboxes g) (_selectedIndex g);
                   set_checked fuel c false g
              else Some g);
        let g2 := with_selectedIndex (-1) g1 in
        Some (emitGroup (changed (-1) previous) g2)
  end.

(** [UICheckbox.toggle] *)
Definition toggle (fuel : nat) (c : wid) (g : World) : option World :=
  set_checked fuel c (negb (_checked (boxes g c))) g.

(** [UICheckbox.onClick], the [pointerup] handler. *)
Definition onClick (fuel : nat) (c : wid) (g : World) : option World :=
  if negb (_enabled (boxes g c)) then Some g
  else toggle fuel c
         (with_box c (λ b, mkBox (_enabled b) (_checked b) (subscriptions b)
                               (emitted b ++ [UICheckboxUp])) g).

(** [UIRadioGroup.add] *)
Definition add (fuel : nat) (c : wid) (g : World) : option World :=
  if negb (indexOf c (checkboxes g) =? -1) then Some g
  else
    let g1 := with_checkboxes (checkboxes g ++ [c]) g in
    let g2 := with_box c (λ b, mkBox (_enabled b) (_checked b)
                                 (S (subscriptions b)) (emitted b)) g1 in
    let index := Z.of_nat (length (checkboxes g2)) - 1 in
    if index =? _selectedIndex g2 then set_checked fuel c true g2
    else if _checked (boxes g2 c) then select fuel index g2
    else set_checked fuel c false g2.

(** [UIRadioGroup.remove]; [splice(index, 1)] is [delete]. *)
Definition remove (c : wid) (g : World) : World :=
  let index := indexOf c (checkboxes g) in
  if index =? -1 then g
  else
    let g1 := with_checkboxes (delete (Z.to_nat index) (checkboxes g)) g in
    if _selectedIndex g1 =? index then with_selectedIndex (-1) g1
    else if _selectedIndex g1 >? index
         then with_selectedIndex (_selectedIndex g1 - 1) g1
         else g1.

(** The [checked] values of the members, in group order. *)
Definition member_values (g : World) : list bool :=
  (λ c, _checked (boxes g c)) <$> checkboxes g.

(** How many members are checked. *)
Definition checked_count (g : World) : nat :=
  length (filter (λ b, b = true) (member_values g)).

(** A default group over fresh unchecked checkboxes, the listed ones added
    and then set to [true] one after the other. *)
Definition add_all (fuel : nat) (cs : list wid) (g : World) : option World :=
  foldl (λ acc c, acc ≫= add fuel c) (Some g) cs.

Definition check_each (fuel : nat) (cs : list wid) (g : World) : option World :=
  foldl (λ acc c, acc ≫= set_checked fuel c true) (Some g) cs.

Definition fresh_group : World := create None None (λ _, newCheckbox false).

(** The state a radio group is meant to keep: no checkbox is a member
    twice, every member carries one listener of the group,
    [_selectedIndex] is [-1] or an index of the array, and exactly the
    member at [_selectedIndex] is checked. *)
Definition consistent (g : World) : Prop :=
  NoDup (checkboxes g)
  ∧ (_selectedIndex g = -1 ∨ in_range (checkboxes g) (_selectedIndex g) = true)
  ∧ ∀ (i : nat) (c : wid), checkboxes g !! i = Some c →
      subscriptions (boxes g c) = 1%nat
      ∧ _checked (boxes g c) = bool_decide (Z.of_nat i = _selectedIndex g).

End RadioGroup.

(** ** JavaScript numbers and strings

    A [number] is an IEEE 754 binary64 value, as in JavaScript. *)
Module JS.

Definition number := float.

Definition isNaN (x : number) : bool := negb (PrimFloat.eqb x x).

(** [a !== b] on numbers: [NaN] differs from itself, the two zeros do not
    differ. *)
Definition strict_neq (a b : number) : bool := negb (PrimFloat.eqb a b).

Definition is_neg_zero (x : number) : bool :=
  match PrimFloat.classify x with
  | FloatClass.NZero => true
  | _ => false
  end.

(** [Math.max] and [Math.min] of two arguments: [NaN] if either is, and
    [+0] is larger than [-0]. *)
Definition Math_max (a b : number) : number :=
  if isNaN a || isNaN b then PrimFloat.nan
  else if PrimFloat.ltb a b then b
  else if PrimFloat.ltb b a then a
  else if is_neg_zero a then b else a.

Definition Math_min (a b : number) : number :=
  if isNaN a || isNaN b then PrimFloat.nan
  else if PrimFloat.ltb a b then a
  else if PrimFloat.ltb b a then b
  else if is_neg_zero a then a else b.

(** What the host provides: the conversions between numbers and strings,
    and its regular-expression engine. [regexp_remove source s] is
    [s.replace(new RegExp(source, "g"), "")]; the only patterns given to it
    are those of [remove_separator] below. *)
Class Host := {
  parseFloat : string → number;
  toFixed : number → number → string;
  toExponential : number → number → string;
  numberToString : number → string;
  regexp_remove : string → string → string;
}.

(** [s.substring(from, to)], with [to] defaulting to the length: both ends
    are clamped to the string and swapped when out of order. *)
Definition substring (from : Z) (to : option Z) (s : string) : string :=
  let len := Z.of_nat (String.length s) in
  let clamp i := Z.max 0 (Z.min i len) in
  let a := clamp from in
  let b := clamp (default len to) in
  let lo := Z.min a b in
  let hi := Z.max a b in
  String.substring (Z.to_nat lo) (Z.to_nat (hi - lo)) s.

(** [s.includes(sub)] *)
Definition includes (sub s : string) : bool :=
  match String.index 0 sub s with Some _ => true | None => false end.

(** [s.replace(pat, empty)] with a string pattern: the first occurrence. *)
Definition remove_first (pat s : string) : string :=
  match String.index 0 pat s with
  | Some i =>
      String.append (String.substring 0 i s)
        (String.substring (i + String.length pat)
           (String.length s - (i + String.length pat)) s)
  | None => s
  end.

Definition is_space (a : ascii) : bool :=
  let n := nat_of_ascii a in
  (n =? 32)%nat || ((9 <=? n)%nat && (n <=? 13)%nat).

Fixpoint trim_start (s : string) : string :=
  match s with
  | String a s' => if is_space a then trim_start s' else s
  | EmptyString => EmptyString
  end.

Definition reverse_string (s : string) : string :=
  string_of_list_ascii (rev (list_ascii_of_string s)).

(** [s.trim()] on ASCII white space. *)
Definition trim (s : string) : string :=
  reverse_string (trim_start (reverse_string (trim_start s))).

Definition is_digit (a : ascii) : bool :=
  let n := nat_of_ascii a in (48 <=? n)%nat && (n <=? 57)%nat.

(** A word character of regular expressions. *)
Definition is_word (a : ascii) : bool :=
  let n := nat_of_ascii a in
  is_digit a || ((65 <=? n)%nat && (n <=? 90)%nat)
  || ((97 <=? n)%nat && (n <=? 122)%nat) || (n =? 95)%nat.

(** *** The pattern [new RegExp(backslash + sep, "g")]

    The separator is put behind a backslash as it is. For a separator of
    one character the pattern is one escape, and what it matches depends on
    the character (the pattern has no [u] flag and no group): a class for
    [d], [D], [w], [W], [s] and [S]; a position and no character for [b]
    and [B]; a control character for [t], [n], [v], [f], [r], [0] and, as
    octal escapes, [1] to [7]; a backslash followed by [c] for [c]; and the
    character itself for every other one. *)
Inductive Escape :=
| Class (member : ascii → bool)
| Literal (text : string)
| Position.

Definition one_char (a : ascii) : string := String a EmptyString.

Definition escape_of (c : ascii) : Escape :=
  let n := nat_of_ascii c in
  if Ascii.eqb c "d"%char then Class is_digit
  else if Ascii.eqb c "D"%char then Class (λ a, negb (is_digit a))
  else if Ascii.eqb c "w"%char then Class is_word
  else if Ascii.eqb c "W"%char then Class (λ a, negb (is_word a))
  else if Ascii.eqb c "s"%char then Class is_space
  else if Ascii.eqb c "S"%char then Class (λ a, negb (is_space a))
  else if Ascii.eqb c "b"%char || Ascii.eqb c "B"%char then Position
  else if Ascii.eqb c "t"%char then Literal (one_char (ascii_of_nat 9))
  else if Ascii.eqb c "n"%char then Literal (one_char (ascii_of_nat 10))
  else if Ascii.eqb c "v"%char then Literal (one_char (ascii_of_nat 11))
  else if Ascii.eqb c "f"%char then Literal (one_char (ascii_of_nat 12))
  else if Ascii.eqb c "r"%char then Literal (one_char (ascii_of_nat 13))
  else if (48 <=? n)%nat && (n <=? 55)%nat
  then Literal (one_char (ascii_of_nat (n - 48)))
  else if Ascii.eqb c "c"%char then Literal (String "\"%char (one_char c))
  else Literal (one_char c).

(** Every character of a class goes. *)
Fixpoint remove_class (member : ascii → bool) (s : string) : string :=
  match s with
  | EmptyString => EmptyString
  | String a s' => if member a then remove_class member s'
                   else String a (remove_class member s')
  end.

(** Every occurrence of [text] goes, from left to right; [skip] characters
    of an occurrence found are still to be dropped. *)
Fixpoint remove_text (text : string) (skip : nat) (s : string) : string :=
  match s with
  | EmptyString => EmptyString
  | String a s' =>
      match skip with
      | S k => remove_text text k s'
      | O => if String.prefix text s
             then remove_text text (String.length text - 1) s'
             else String a (remove_text text 0 s')
      end
  end.

(** [s.replace(new RegExp(backslash + sep, "g"), empty)]. For a separator of
    more than one character the pattern is whatever these characters spell
    behind the backslash: the replacement is then left to the host's
    engine. *)
Definition remove_separator `{Host} (sep s : string) : string :=
  match sep with
  | String c EmptyString =>
      match escape_of c with
      | Class member => remove_class member s
      | Literal text => remove_text text 0 s
      | Position => s
      end
  | _ => regexp_remove (String "\"%char sep) s
  end.

(** The first two pieces of [s.split(".")]; the second is [undefined]
    when there is no dot. *)
Fixpoint up_to_dot (s : string) : string * option string :=
  match s with
  | EmptyString => (EmptyString, None)
  | String a s' =>
      if Ascii.eqb a "."%char then (EmptyString, Some s')
      else let '(p, r) := up_to_dot s' in (String a p, r)
  end.

Definition split_dot (s : string) : string * option string :=
  let '(intPart, rest) := up_to_dot s in
  (intPart, (λ r, fst (up_to_dot r)) <$> rest).

(** The length of the run of digits a list of characters starts with. *)
Fixpoint digit_run (l : list ascii) : nat :=
  match l with
  | a :: l' => if is_digit a then S (digit_run l') else O
  | [] => O
  end.

(** The text that [replace] puts in for a match of the empty string, from
    the template given as replacement: [$$] stands for a dollar sign, [$&]
    for the match, here empty, [$`] for the text before the match, [$'] for
    the text after it, [$1] and [$01] for the one group of the pattern; a
    [$] that starts none of these, and every other character, stands for
    itself. With one group, [$1] followed by a digit is [$1] and then the
    digit. *)
Fixpoint substitution (before after group : string) (template : list ascii)
  : string :=
  match template with
  | [] => EmptyString
  | a :: t1 =>
      if negb (Ascii.eqb a "$"%char) then String a (substitution before after group t1)
      else
        match t1 with
        | [] => one_char a
        | b :: t2 =>
            if Ascii.eqb b "$"%char
            then String "$"%char (substitution before after group t2)
            else if Ascii.eqb b "&"%char
            then substitution before after group t2
            else if Ascii.eqb b "`"%char
            then String.append before (substitution before after group t2)
            else if Ascii.eqb b "'"%char
            then String.append after (substitution before after group t2)
            else if Ascii.eqb b "1"%char
            then String.append group (substitution before after group t2)
            else if Ascii.eqb b "0"%char
            then
              match t2 with
              | c :: t3 =>
                  if Ascii.eqb c "1"%char
                  then String.append group (substitution before after group t3)
                  else String a (String b (substitution before after group t2))
              | [] => String a (one_char b)
              end
            else String a (substitution before after group t1)
        end
  end.

(** [s.replace(/\B(?=(\d{3})+(?!\d))/g, sep)]: the pattern matches the
    empty string in front of every character that follows a word character
    and starts a run of digits whose length is a positive multiple of
    three; its group is the last three digits of the run. [sep] is the
    template of the replacement. *)
Fixpoint group_digits (sep : string) (before l : list ascii) : string :=
  match l with
  | [] => EmptyString
  | a :: l' =>
      let n := digit_run l in
      let here := match last before with
                  | Some p => is_word p && (0 <? n)%nat && (n mod 3 =? 0)%nat
                  | None => false
                  end in
      let rest := String a (group_digits sep (before ++ [a]) l') in
      if here
      then String.append
             (substitution (string_of_list_ascii before)
                (string_of_list_ascii l)
                (string_of_list_ascii (take 3 (drop (n - 3) l)))
                (list_ascii_of_string sep))
             rest
      else rest
  end.

Definition add_thousands (sep s : string) : string :=
  group_digits sep [] (list_ascii_of_string s).

End JS.

(** ** uiNumeric.ts: [UINumeric] *)
Module Numeric.
Import JS.

Inductive UINumericState := normal | focused | disabled.

Inductive UINumericEvents :=
| UINumericValueChanged (value : number)
| UINumericFocused
| UINumericUnfocused
| UINumericEnabled
| UINumericDisabled
| UINumericSubmit (value : number)
| UINumericIncrement (value : number)
| UINumericDecrement (value : number).

Inductive Keys :=
| Backspace | Delete | Left | Right | Home | KeyEnd
| ArrowUp | ArrowDown | Enter | Escape | OtherKey.

(** A key event: the key and, for character keys, the character typed. *)
Record KeyEvent := keyEvent { key : Keys; value : string }.

Record UINumericFormatOptions := {
  decimals : option number;
  thousandsSeparator : option string;
  decimalSeparator : option string;
  prefix : option string;
  suffix : option string;
  useExponential : option bool;
  exponentialThreshold : option number;
}.

Record UINumericConfig := mkConfig {
  min : option number;
  max : option number;
  step : option number;
  placeholder : option string;
  allowNegative : option bool;
  allowDecimal : option bool;
  formatOptions : option UINumericFormatOptions;
}.

(** [defaultNumericConfig], as far as the fields above go. *)
Definition defaultFormatOptions : UINumericFormatOptions :=
  {| decimals := Some 2%float; thousandsSeparator := Some ","%string;
     decimalSeparator := Some "."%string; prefix := Some ""%string;
     suffix := Some ""%string; useExponential := None;
     exponentialThreshold := None |}.

Definition defaultNumericConfig : UINumericConfig :=
  mkConfig (Some neg_infinity) (Some infinity) (Some 1%float)
           (Some "0"%string) (Some true) (Some true) (Some defaultFormatOptions).

Record UINumeric := mk {
  _enabled : bool;
  _isFocused : bool;
  state : UINumericState;
  _value : number;
  _inputText : string;
  _cursorPosition : Z;
  _cursorVisible : bool;
  _cursorBlinkTimer : number;
  _isEditing : bool;
  _config : UINumericConfig;
  emitted : list UINumericEvents;
}.

Definition with_focus (f : bool) (st : UINumericState) n :=
  mk (_enabled n) f st (_value n) (_inputText n) (_cursorPosition n)
     (_cursorVisible n) (_cursorBlinkTimer n) (_isEditing n) (_config n)
     (emitted n).
Definition with_state (st : UINumericState) n :=
  mk (_enabled n) (_isFocused n) st (_value n) (_inputText n)
     (_cursorPosition n) (_cursorVisible n) (_cursorBlinkTimer n)
     (_isEditing n) (_config n) (emitted n).
Definition with_enabled (e : bool) n :=
  mk e (_isFocused n) (state n) (_value n) (_inputText n) (_cursorPosition n)
     (_cursorVisible n) (_cursorBlinkTimer n) (_isEditing n) (_config n)
     (emitted n).
Definition with_value (v : number) n :=
  mk (_enabled n) (_isFocused n) (state n) v (_inputText n) (_cursorPosition n)
     (_cursorVisible n) (_cursorBlinkTimer n) (_isEditing n) (_config n)
     (emitted n).
Definition with_inputText (t : string) n :=
  mk (_enabled n) (_isFocused n) (state n) (_value n) t (_cursorPosition n)
     (_cursorVisible n) (_cursorBlinkTimer n) (_isEditing n) (_config n)
     (emitted n).
Definition with_cursorPosition (p : Z) n :=
  mk (_enabled n) (_isFocused n) (state n) (_value n) (_inputText n) p
     (_cursorVisible n) (_cursorBlinkTimer n) (_isEditing n) (_config n)
     (emitted n).
Definition with_isEditing (e : bool) n :=
  mk (_enabled n) (_isFocused n) (state n) (_value n) (_inputText n)
     (_cursorPosition n) (_cursorVisible n) (_cursorBlinkTimer n) e (_config n)
     (emitted n).
Definition with_config (c : UINumericConfig) n :=
  mk (_enabled n) (_isFocused n) (state n) (_value n) (_inputText n)
     (_cursorPosition n) (_cursorVisible n) (_cursorBlinkTimer n)
     (_isEditing n) c (emitted n).
Definition emit (e : UINumericEvents) n :=
  mk (_enabled n) (_isFocused n) (state n) (_value n) (_inputText n)
     (_cursorPosition n) (_cursorVisible n) (_cursorBlinkTimer n)
     (_isEditing n) (_config n) (emitted n ++ [e]).

Definition resetCursorBlink n :=
  mk (_enabled n) (_isFocused n) (state n) (_value n) (_inputText n)
     (_cursorPosition n) true 0%float (_isEditing n) (_config n) (emitted n).

Definition text_length (n : UINumeric) : Z :=
  Z.of_nat (String.length (_inputText n)).

(** A string is truthy unless it is empty. *)
Definition nonempty (o : option string) : option string :=
  match o with
  | Some EmptyString | None => None
  | Some t => Some t
  end.

(** [format?.field], when it is a non-empty string. *)
Definition optional_field (field : UINumericFormatOptions → option string)
    (format : option UINumericFormatOptions) : option string :=
  match format with
  | Some f => nonempty (field f)
  | None => None
  end.

(** Equality of numbers up to what [!==] tells apart: the same value, or
    the two zeros. *)
Definition same_number (a b : number) : Prop :=
  a = b ∨ PrimFloat.eqb a b = true.

Section WithHost.
Context `{Host}.

Definition parseNumber (n : UINumeric) (text : string) : number :=
  let format := formatOptions (_config n) in
  let cleaned := text in
  let cleaned := match optional_field prefix format with
                 | Some p => remove_first p cleaned
                 | None => cleaned
                 end in
  let cleaned := match optional_field suffix format with
                 | Some p => remove_first p cleaned
                 | None => cleaned
                 end in
  let cleaned := match optional_field thousandsSeparator format with
                 | Some sep => remove_separator sep cleaned
                 | None => cleaned
                 end in
  parseFloat (trim cleaned).

(** [format.useExponential && format.exponentialThreshold]: a number is
    truthy unless it is zero or [NaN]. *)
Definition exponential_from (format : UINumericFormatOptions) : option number :=
  if default false (useExponential format)
  then match exponentialThreshold format with
       | Some t => if isNaN t || PrimFloat.eqb t 0%float then None else Some t
       | None => None
       end
  else None.

Definition formatNumber (n : UINumeric) (value : number) : string :=
  let format := default {| decimals := None; thousandsSeparator := None;
                           decimalSeparator := None; prefix := None;
                           suffix := None; useExponential := None;
                           exponentialThreshold := None |}
                        (formatOptions (_config n)) in
  if isNaN value then default "0"%string (placeholder (_config n))
  else
    let digits := default 2%float (decimals format) in
    let exponential :=
      match exponential_from format with
      | Some t => PrimFloat.leb t (PrimFloat.abs value)
      | None => false
      end in
    if exponential then toExponential value digits
    else
      let formatted := toFixed value digits in
      let '(intPart, decPart) := split_dot formatted in
      let intPart := match nonempty (thousandsSeparator format) with
                     | Some sep => add_thousands sep intPart
                     | None => intPart
                     end in
      let decSep := default "."%string (decimalSeparator format) in
      let formatted := match nonempty decPart with
                       | Some d => String.append intPart (String.append decSep d)
                       | None => intPart
                       end in
      let formatted := match nonempty (prefix format) with
                       | Some p => String.append p formatted
                       | None => formatted
                       end in
      match nonempty (suffix format) with
      | Some x => String.append formatted x
      | None => formatted
      end.

Definition clampValue (n : UINumeric) (value : number) : number :=
  let min := default neg_infinity (min (_config n)) in
  let max := default infinity (max (_config n)) in
  Math_max min (Math_min max value).

Definition emitValueChanged (n : UINumeric) : UINumeric :=
  emit (UINumericValueChanged (_value n)) n.

Definition setValue (value : number) (n : UINumeric) : UINumeric :=
  let clamped := clampValue n value in
  if strict_neq (_value n) clamped
  then
    let n1 := with_value clamped n in
    let n2 := with_inputText (formatNumber n1 (_value n1)) n1 in
    let n3 := with_cursorPosition
                (Z.min (_cursorPosition n2) (text_length n2)) n2 in
    emitValueChanged (with_isEditing false n3)
  else n.

Definition getValue (n : UINumeric) : number := _value n.

Definition getDisplayText (n : UINumeric) : string :=
  if _isEditing n then _inputText n else formatNumber n (_value n).

Definition increment (n : UINumeric) : UINumeric :=
  let step := default 1%float (step (_config n)) in
  let n1 := setValue (PrimFloat.add (_value n) step) n in
  emit (UINumericIncrement (_value n1)) n1.

Definition decrement (n : UINumeric) : UINumeric :=
  let step := default 1%float (step (_config n)) in
  let n1 := setValue (PrimFloat.sub (_value n) step) n in
  emit (UINumericDecrement (_value n1)) n1.

Definition commitValue (n : UINumeric) : UINumeric :=
  let parsed := parseNumber n (_inputText n) in
  let n1 := if negb (isNaN parsed) then setValue parsed n
            else with_inputText (formatNumber n (_value n)) n in
  with_isEditing false (with_cursorPosition (text_length n1) n1).

Definition focus (n : UINumeric) : UINumeric :=
  if negb (_enabled n) then n
  else if _isFocused n then n
  else
    let n1 := resetCursorBlink (with_focus true focused n) in
    let n2 := with_inputText (numberToString (_value n1)) n1 in
    let n3 := with_cursorPosition (text_length n2) n2 in
    emit UINumericFocused (with_isEditing true n3).

Definition loseFocus (n : UINumeric) : UINumeric :=
  if negb (_enabled n) then n
  else if negb (_isFocused n) then n
  else
    let n1 := if _isEditing n then commitValue n else n in
    let n2 := with_isEditing false (with_focus false normal n1) in
    emit UINumericUnfocused (with_inputText (formatNumber n2 (_value n2)) n2).

Definition isValidNumericInput (n : UINumeric) (key : string) : bool :=
  match key with
  | String char EmptyString =>
      if is_digit char then true
      else if Ascii.eqb char "-"%char
              && default false (allowNegative (_config n))
              && (_cursorPosition n =? 0)
              && negb (includes "-" (_inputText n))
      then true
      else if Ascii.eqb char "."%char
              && default false (allowDecimal (_config n))
              && negb (includes "." (_inputText n))
      then true
      else false
  | _ => false
  end.

Definition insertCharacter (char : string) (n : UINumeric) : UINumeric :=
  let before := substring 0 (Some (_cursorPosition n)) (_inputText n) in
  let after := substring (_cursorPosition n) None (_inputText n) in
  let n1 := with_inputText (String.append before (String.append char after)) n in
  resetCursorBlink
    (with_isEditing true (with_cursorPosition (_cursorPosition n1 + 1) n1)).

Definition handleBackspace (n : UINumeric) : UINumeric :=
  if 0 <? _cursorPosition n
  then
    let before := substring 0 (Some (_cursorPosition n - 1)) (_inputText n) in
    let after := substring (_cursorPosition n) None (_inputText n) in
    let n1 := with_inputText (String.append before after) n in
    resetCursorBlink
      (with_isEditing true (with_cursorPosition (_cursorPosition n1 - 1) n1))
  else n.

Definition handleDelete (n : UINumeric) : UINumeric :=
  if _cursorPosition n <? text_length n
  then
    let before := substring 0 (Some (_cursorPosition n)) (_inputText n) in
    let after := substring (_cursorPosition n + 1) None (_inputText n) in
    resetCursorBlink
      (with_isEditing true (with_inputText (String.append before after) n))
  else n.

Definition moveCursorLeft (n : UINumeric) : UINumeric :=
  if 0 <? _cursorPosition n
  then resetCursorBlink (with_cursorPosition (_cursorPosition n - 1) n)
  else n.

Definition moveCursorRight (n : UINumeric) : UINumeric :=
  if _cursorPosition n <? text_length n
  then resetCursorBlink (with_cursorPosition (_cursorPosition n + 1) n)
  else n.

Definition onKeyDown (evt : KeyEvent) (n : UINumeric) : UINumeric :=
  if negb (_enabled n) then n
  else if negb (_isFocused n) then n
  else
    match key evt with
    | Backspace => handleBackspace n
    | Delete => handleDelete n
    | Left => moveCursorLeft n
    | Right => moveCursorRight n
    | Home => resetCursorBlink (with_cursorPosition 0 n)
    | KeyEnd => resetCursorBlink (with_cursorPosition (text_length n) n)
    | ArrowUp => increment n
    | ArrowDown => decrement n
    | Enter =>
        let n1 := commitValue n in
        emit (UINumericSubmit (_value n1)) n1
    | Escape =>
        let n1 := with_inputText (formatNumber n (_value n)) n in
        let n2 := with_cursorPosition (text_length n1) n1 in
        focus (with_isEditing false n2)
    | OtherKey =>
        if isValidNumericInput n (value evt) then insertCharacter (value evt) n
        else n
    end.

Definition with_min (m : option number) (c : UINumericConfig) :=
  mkConfig m (max c) (step c) (placeholder c) (allowNegative c)
           (allowDecimal c) (formatOptions c).
Definition with_max (m : option number) (c : UINumericConfig) :=
  mkConfig (min c) m (step c) (placeholder c) (allowNegative c)
           (allowDecimal c) (formatOptions c).

Definition setMin (m : number) (n : UINumeric) : UINumeric :=
  let n1 := with_config (with_min (Some m) (_config n)) n in
  setValue (_value n1) n1.

Definition setMax (m : number) (n : UINumeric) : UINumeric :=
  let n1 := with_config (with_max (Some m) (_config n)) n in
  setValue (_value n1) n1.

(** [new UINumeric(config)], with [config] already merged over the
    defaults. *)
Definition create (config : UINumericConfig) (initial : option number)
  : UINumeric :=
  let n0 := mk true false normal 0%float EmptyString 0 true 0%float false
               config [] in
  let n1 := with_value (clampValue n0 (default 0%float initial)) n0 in
  let n2 := with_inputText (formatNumber n1 (_value n1)) n1 in
  with_cursorPosition (text_length n2) n2.

(** The events emitted since an earlier state. *)
Definition emitted_since (n n' : UINumeric) : list UINumericEvents :=
  drop (length (emitted n)) (emitted n').

Definition is_value_changed (e : UINumericEvents) : bool :=
  match e with UINumericValueChanged _ => true | _ => false end.

Definition is_submit (e : UINumericEvents) : bool :=
  match e with UINumericSubmit _ => true | _ => false end.

Definition count (p : UINumericEvents → bool) (l : list UINumericEvents) : nat :=
  length (filter (λ e, p e = true) l).

(** [setCursorPosition(position)] for a whole number [position]: the
    cursor of this model is a whole number, as every cursor is that the
    constructor and the key handlers produce. The code stores
    [Math.max(0, Math.min(position, length))] for every number, so a
    fraction inside the buffer is stored as it is and [NaN] as [NaN];
    these calls are not modelled. *)
Definition setCursorPosition (position : Z) (n : UINumeric) : UINumeric :=
  resetCursorBlink
    (with_cursorPosition (Z.max 0 (Z.min position (text_length n))) n).

Definition with_step (s : option number) (c : UINumericConfig) :=
  mkConfig (min c) (max c) s (placeholder c) (allowNegative c)
           (allowDecimal c) (formatOptions c).

Definition setStep (step : number) (n : UINumeric) : UINumeric :=
  with_config (with_step (Some (PrimFloat.abs step)) (_config n)) n.

Definition onEnabled (n : UINumeric) : UINumeric :=
  emit UINumericEnabled (with_state normal n).

Definition onDisabled (n : UINumeric) : UINumeric :=
  let n1 := if _isFocused n then loseFocus n else n in
  emit UINumericDisabled (with_state disabled n1).

(** [UIComponent.setEnabled] with the hooks of [UINumeric]. *)
Definition UIComponent_setEnabled (value : bool) (n : UINumeric) : UINumeric :=
  if negb (Bool.eqb value (_enabled n))
  then let n1 := with_enabled value n in
       if value then onEnabled n1 else onDisabled n1
  else n.

(** [InteractiveUIComponent.setEnabled] with the [loseFocus] of
    [UINumeric]; [UINumeric.setEnabled] only calls it. *)
Definition setEnabled (value : bool) (n : UINumeric) : UINumeric :=
  if negb (Bool.eqb value (_enabled n))
  then let n1 := if negb value && _isFocused n then loseFocus n else n in
       UIComponent_setEnabled value n1
  else n.

(** [onPreUpdate]: the cursor blinks while the input is focused. *)
Definition onPreUpdate (delta : number) (n : UINumeric) : UINumeric :=
  if _isFocused n
  then
    let timer := PrimFloat.add (_cursorBlinkTimer n) delta in
    if PrimFloat.leb 530%float timer
    then mk (_enabled n) (_isFocused n) (state n) (_value n) (_inputText n)
            (_cursorPosition n) (negb (_cursorVisible n)) 0%float
            (_isEditing n) (_config n) (emitted n)
    else mk (_enabled n) (_isFocused n) (state n) (_value n) (_inputText n)
            (_cursorPosition n) (_cursorVisible n) timer
            (_isEditing n) (_config n) (emitted n)
  else n.

(** [onPointerDown] up to its call of the manager, whose effect on an
    input is a [focus] or a [loseFocus]. *)
Definition onPointerDown_local (n : UINumeric) : UINumeric :=
  if negb (_enabled n) then n else focus n.

(** The [pointerdown] handler of the arrow buttons
    ([UINumericArrowButton]). *)
Definition arrowPointerDown (up : bool) (n : UINumeric) : UINumeric :=
  if negb (_enabled n) then n
  else if up then increment n else decrement n.

(** *** Sequences of calls on one input *)
Inductive Call :=
| KeyPress (evt : KeyEvent)
| PointerDown
| ArrowPointerDown (up : bool)
| SetValue (value : number)
| Increment
| Decrement
| SetMin (value : number)
| SetMax (value : number)
| SetStep (value : number)
| SetCursorPosition (position : Z)
| Focus
| Blur
| SetEnabled (value : bool)
| PreUpdate (delta : number).

Definition perform (c : Call) (n : UINumeric) : UINumeric :=
  match c with
  | KeyPress evt => onKeyDown evt n
  | PointerDown => onPointerDown_local n
  | ArrowPointerDown up => arrowPointerDown up n
  | SetValue value => setValue value n
  | Increment => increment n
  | Decrement => decrement n
  | SetMin value => setMin value n
  | SetMax value => setMax value n
  | SetStep value => setStep value n
  | SetCursorPosition position => setCursorPosition position n
  | Focus => focus n
  | Blur => loseFocus n
  | SetEnabled value => setEnabled value n
  | PreUpdate delta => onPreUpdate delta n
  end.

Definition perform_all (calls : list Call) (n : UINumeric) : UINumeric :=
  foldl (λ s c, perform c s) n calls.

(** The state the flags give. *)
Definition state_of_flags (n : UINumeric) : UINumericState :=
  if negb (_enabled n) then disabled
  else if _isFocused n then focused else normal.

End WithHost.
End Numeric.

(** ** uiTextInput.ts: [UITextInput]

    Strings are taken over the code units below 256, and [maxLength] and
    cursor positions over the whole numbers. The [password] flag only
    changes what is drawn. *)
Module TextInput.
Import JS.

Inductive UITextInputState := normal | focused | disabled.

Inductive UITextInputEvents :=
| UITextInputValueChanged (value : string)
| UITextInputFocused
| UITextInputUnfocused
| UITextInputEnabled
| UITextInputDisabled
| UITextInputSubmit (value : string).

Inductive Keys :=
| Backspace | Delete | Left | Right | Home | KeyEnd | Enter | Escape | OtherKey.

(** A key event: the key and the text the key produces. *)
Record KeyEvent := keyEvent { key : Keys; value : string }.

Record UITextInput := mk {
  _enabled : bool;
  _isFocused : bool;
  tabStopIndex : Z;
  manager : bool;
  state : UITextInputState;
  _value : string;
  _cursorPosition : Z;
  _cursorVisible : bool;
  _cursorBlinkTimer : number;
  maxLength : option Z;
  emitted : list UITextInputEvents;
}.

(** [new UITextInput(config)] *)
Definition create (initial : option string) (limit : option Z) (tab : option Z)
  : UITextInput :=
  let text := default EmptyString initial in
  mk true false (default (-1) tab) false normal text
     (Z.of_nat (String.length text)) true 0%float limit [].

Definition with_enabled (v : bool) n :=
  mk v (_isFocused n) (tabStopIndex n) (manager n) (state n) (_value n)
     (_cursorPosition n) (_cursorVisible n) (_cursorBlinkTimer n)
     (maxLength n) (emitted n).
Definition with_focus (f : bool) (st : UITextInputState) n :=
  mk (_enabled n) f (tabStopIndex n) (manager n) st (_value n)
     (_cursorPosition n) (_cursorVisible n) (_cursorBlinkTimer n)
     (maxLength n) (emitted n).
Definition with_state (st : UITextInputState) n :=
  mk (_enabled n) (_isFocused n) (tabStopIndex n) (manager n) st (_value n)
     (_cursorPosition n) (_cursorVisible n) (_cursorBlinkTimer n)
     (maxLength n) (emitted n).
Definition with_value (t : string) n :=
  mk (_enabled n) (_isFocused n) (tabStopIndex n) (manager n) (state n) t
     (_cursorPosition n) (_cursorVisible n) (_cursorBlinkTimer n)
     (maxLength n) (emitted n).
Definition with_cursorPosition (p : Z) n :=
  mk (_enabled n) (_isFocused n) (tabStopIndex n) (manager n) (state n)
     (_value n) p (_cursorVisible n) (_cursorBlinkTimer n)
     (maxLength n) (emitted n).
Definition with_blink (visible : bool) (timer : number) n :=
  mk (_enabled n) (_isFocused n) (tabStopIndex n) (manager n) (state n)
     (_value n) (_cursorPosition n) visible timer (maxLength n) (emitted n).
Definition emit (e : UITextInputEvents) n :=
  mk (_enabled n) (_isFocused n) (tabStopIndex n) (manager n) (state n)
     (_value n) (_cursorPosition n) (_cursorVisible n) (_cursorBlinkTimer n)
     (maxLength n) (emitted n ++ [e]).

Definition setManager n :=
  mk (_enabled n) (_isFocused n) (tabStopIndex n) true (state n)
     (_value n) (_cursorPosition n) (_cursorVisible n) (_cursorBlinkTimer n)
     (maxLength n) (emitted n).

Definition resetCursorBlink n := with_blink true 0%float n.

Definition text_length (n : UITextInput) : Z :=
  Z.of_nat (String.length (_value n)).

(** [this._config.maxLength] where it is tested for truth: a number is
    truthy unless it is zero. *)
Definition limit_in_force (n : UITextInput) : option Z :=
  match maxLength n with
  | Some m => if m =? 0 then None else Some m
  | None => None
  end.

Definition emitValueChanged (n : UITextInput) : UITextInput :=
  emit (UITextInputValueChanged (_value n)) n.

Definition isPrintableKey (key : string) : bool :=
  match key with
  | String a EmptyString =>
      (32 <=? nat_of_ascii a)%nat && (nat_of_ascii a <=? 126)%nat
  | _ => false
  end.

Definition insertCharacter (char : string) (n : UITextInput) : UITextInput :=
  let full := match limit_in_force n with
              | Some m => m <=? text_length n
              | None => false
              end in
  if full then n
  else
    let before := substring 0 (Some (_cursorPosition n)) (_value n) in
    let after := substring (_cursorPosition n) None (_value n) in
    let n1 := with_value (String.append before (String.append char after)) n in
    emitValueChanged
      (resetCursorBlink (with_cursorPosition (_cursorPosition n1 + 1) n1)).

Definition handleBackspace (n : UITextInput) : UITextInput :=
  if 0 <? _cursorPosition n
  then
    let before := substring 0 (Some (_cursorPosition n - 1)) (_value n) in
    let after := substring (_cursorPosition n) None (_value n) in
    let n1 := with_value (String.append before after) n in
    emitValueChanged
      (resetCursorBlink (with_cursorPosition (_cursorPosition n1 - 1) n1))
  else n.

Definition handleDelete (n : UITextInput) : UITextInput :=
  if _cursorPosition n <? text_length n
  then
    let before := substring 0 (Some (_cursorPosition n)) (_value n) in
    let after := substring (_cursorPosition n + 1) None (_value n) in
    emitValueChanged
      (resetCursorBlink (with_value (String.append before after) n))
  else n.

Definition moveCursorLeft (n : UITextInput) : UITextInput :=
  if 0 <? _cursorPosition n
  then resetCursorBlink (with_cursorPosition (_cursorPosition n - 1) n)
  else n.

Definition moveCursorRight (n : UITextInput) : UITextInput :=
  if _cursorPosition n <? text_length n
  then resetCursorBlink (with_cursorPosition (_cursorPosition n + 1) n)
  else n.

Definition setValue (value : string) (n : UITextInput) : UITextInput :=
  let newValue := match limit_in_force n with
                  | Some m => substring 0 (Some m) value
                  | None => value
                  end in
  if decide (_value n = newValue) then n
  else
    let n1 := with_value newValue n in
    emitValueChanged
      (with_cursorPosition (Z.min (_cursorPosition n1) (text_length n1)) n1).

Definition getValue (n : UITextInput) : string := _value n.

(** [setCursorPosition(position)] for a whole number [position]: the
    cursor of this model is a whole number, as every cursor is that the
    constructor and the key handlers produce. The code stores
    [Math.max(0, Math.min(position, length))] for every number, so a
    fraction inside the text is stored as it is and [NaN] as [NaN]; these
    calls are not modelled. *)
Definition setCursorPosition (position : Z) (n : UITextInput) : UITextInput :=
  resetCursorBlink
    (with_cursorPosition (Z.max 0 (Z.min position (text_length n))) n).

Definition focus (n : UITextInput) : UITextInput :=
  if negb (_enabled n) then n
  else if _isFocused n then n
  else emit UITextInputFocused (resetCursorBlink (with_focus true focused n)).

Definition loseFocus (n : UITextInput) : UITextInput :=
  if negb (_enabled n) then n
  else if negb (_isFocused n) then n
  else emit UITextInputUnfocused (with_focus false normal n).

Definition onKeyDown (evt : KeyEvent) (n : UITextInput) : UITextInput :=
  if negb (_enabled n) then n
  else if negb (_isFocused n) then n
  else
    match key evt with
    | Backspace => handleBackspace n
    | Delete => handleDelete n
    | Left => moveCursorLeft n
    | Right => moveCursorRight n
    | Home => resetCursorBlink (with_cursorPosition 0 n)
    | KeyEnd => resetCursorBlink (with_cursorPosition (text_length n) n)
    | Enter => emit (UITextInputSubmit (_value n)) n
    | Escape => loseFocus n
    | OtherKey =>
        if isPrintableKey (value evt) then insertCharacter (value evt) n
        else n
    end.

Definition onEnabled (n : UITextInput) : UITextInput :=
  emit UITextInputEnabled (with_state normal n).

Definition onDisabled (n : UITextInput) : UITextInput :=
  let n1 := if _isFocused n then loseFocus n else n in
  emit UITextInputDisabled (with_state disabled n1).

(** [UIComponent.setEnabled] with the hooks of [UITextInput]. *)
Definition UIComponent_setEnabled (value : bool) (n : UITextInput)
  : UITextInput :=
  if negb (Bool.eqb value (_enabled n))
  then let n1 := with_enabled value n in
       if value then onEnabled n1 else onDisabled n1
  else n.

(** [InteractiveUIComponent.setEnabled] with the [loseFocus] of
    [UITextInput]; [UITextInput.setEnabled] only calls it. *)
Definition setEnabled (value : bool) (n : UITextInput) : UITextInput :=
  if negb (Bool.eqb value (_enabled n))
  then let n1 := if negb value && _isFocused n then loseFocus n else n in
       UIComponent_setEnabled value n1
  else n.

(** [onPreUpdate]: the cursor blinks while the input is focused. *)
Definition onPreUpdate (delta : number) (n : UITextInput) : UITextInput :=
  if _isFocused n
  then
    let timer := PrimFloat.add (_cursorBlinkTimer n) delta in
    if PrimFloat.leb 530%float timer
    then with_blink (negb (_cursorVisible n)) 0%float n
    else with_blink (_cursorVisible n) timer n
  else n.

#[global] Instance focusable : Focusable UITextInput :=
  Build_Focusable _ tabStopIndex _enabled _isFocused manager (λ _, true)
                  focus loseFocus setManager.

(** [onPointerDown] up to its call of the manager. *)
Definition onPointerDown_local (n : UITextInput) : UITextInput :=
  if negb (_enabled n) then n else focus n.

Definition World := FocusManager.World UITextInput.

(** The [pointerdown] handler. *)
Definition onPointerDown (c : wid) (st : World) : World :=
  if negb (_enabled (FocusManager.heap st c)) then st
  else FocusManager.requestFocus c
         {| FocusManager.currentTabIndex := FocusManager.currentTabIndex st;
            FocusManager.components := FocusManager.components st;
            FocusManager.heap :=
              FocusManager.send c focus (FocusManager.heap st) |}.

(** *** Sequences of calls on one input *)
Inductive Call :=
| KeyPress (evt : KeyEvent)
| PointerDown
| SetValue (value : string)
| SetCursorPosition (position : Z)
| Focus
| Blur
| SetManager
| SetEnabled (value : bool)
| PreUpdate (delta : number).

Definition perform (c : Call) (n : UITextInput) : UITextInput :=
  match c with
  | KeyPress evt => onKeyDown evt n
  | PointerDown => onPointerDown_local n
  | SetValue value => setValue value n
  | SetCursorPosition position => setCursorPosition position n
  | Focus => focus n
  | Blur => loseFocus n
  | SetManager => setManager n
  | SetEnabled value => setEnabled value n
  | PreUpdate delta => onPreUpdate delta n
  end.

Definition perform_all (calls : list Call) (n : UITextInput) : UITextInput :=
  foldl (λ s c, perform c s) n calls.

(** The state the flags give. *)
Definition state_of_flags (n : UITextInput) : UITextInputState :=
  if negb (_enabled n) then disabled
  else if _isFocused n then focused else normal.

(** The events emitted since an earlier state. *)
Definition emitted_since (n n' : UITextInput) : list UITextInputEvents :=
  drop (length (emitted n)) (emitted n').

End TextInput.

(** ** uiTabbedPanel.ts: [UITabbedPanel] *)
Module TabbedPanel.

(** A JavaScript [Map] with string keys: entries in insertion order, no key
    twice. *)
Definition Map (V : Type) := list (string * V).

Fixpoint get {V} (k : string) (m : Map V) : option V :=
  match m with
  | [] => None
  | (k', v) :: m' => if decide (k' = k) then Some v else get k m'
  end.

(** [Map.prototype.set]: an existing key keeps its place. *)
Fixpoint set {V} (k : string) (v : V) (m : Map V) : Map V :=
  match m with
  | [] => [(k, v)]
  | (k', v') :: m' =>
      if decide (k' = k) then (k', v) :: m' else (k', v') :: set k v m'
  end.

Definition has {V} (k : string) (m : Map V) : bool :=
  match get k m with Some _ => true | None => false end.

Definition keys {V} (m : Map V) : list string := fst <$> m.

Inductive TabPosition := top | bottom | left | right.

(** The fields of [UITabbedPanelConfig] that the tab layout reads. *)
Record UITabbedPanelConfig := {
  tabHeight : option Z;
  tabMinWidth : option Z;
  tabPosition : TabPosition;
  tabSpacing : option Z;
}.

Inductive LabelColor := activeText | hoveredText | inactiveText.

(** A tab header: its flags, what [updateGraphic] last passed to the
    graphic, the label colour and the geometry. *)
Record UITab := mkTab {
  isTabActive : bool;
  isHovered : bool;
  graphicState : bool * bool;
  labelColor : LabelColor;
  pos : Z * Z;
  width : Z;
  height : Z;
}.

Definition updateGraphic (t : UITab) : UITab :=
  mkTab (isTabActive t) (isHovered t) (isTabActive t, isHovered t)
        (labelColor t) (pos t) (width t) (height t).

Definition updateLabelColor (t : UITab) : UITab :=
  let color := if isTabActive t then activeText
               else if isHovered t then hoveredText
               else inactiveText in
  mkTab (isTabActive t) (isHovered t) (graphicState t) color (pos t)
        (width t) (height t).

Definition setActive (active : bool) (t : UITab) : UITab :=
  updateLabelColor
    (updateGraphic
       (mkTab active (isHovered t) (graphicState t) (labelColor t) (pos t)
              (width t) (height t))).

(** [new UITab(config)] with [isActive: false]; the label starts in the
    inactive colour. *)
Definition newTab (p : Z * Z) (w h : Z) : UITab :=
  updateGraphic (mkTab false false (false, false) inactiveText p w h).

(** A content pane: the visibility of its own graphics and of the graphics
    of its children, the graphic in use and the one remembered by [hide]. *)
Record UITabContent := mkContent {
  isVisible : bool;
  children : list bool;
  current : option nat;
  _lastGraphic : option nat;
}.

Definition show (c : UITabContent) : UITabContent :=
  mkContent true ((λ _, true) <$> children c) (current c) (_lastGraphic c).

Definition hide (c : UITabContent) : UITabContent :=
  mkContent false ((λ _, false) <$> children c) (current c) (current c).

Inductive UITabbedPanelEvents :=
| TabChanged (tabId : string)
| TabAdded (tabId : string)
| TabRemoved (tabId : string).

Record UITabbedPanel := mk {
  tabs : Map UITab;
  tabContents : Map UITabContent;
  activeTabId : option string;
  tabbedConfig : UITabbedPanelConfig;
  emitted : list UITabbedPanelEvents;
}.

Definition create (config : UITabbedPanelConfig) : UITabbedPanel :=
  mk [] [] None config [].

Definition with_tabs (m : Map UITab) (p : UITabbedPanel) :=
  mk m (tabContents p) (activeTabId p) (tabbedConfig p) (emitted p).
Definition with_tabContents (m : Map UITabContent) (p : UITabbedPanel) :=
  mk (tabs p) m (activeTabId p) (tabbedConfig p) (emitted p).
Definition with_activeTabId (a : option string) (p : UITabbedPanel) :=
  mk (tabs p) (tabContents p) a (tabbedConfig p) (emitted p).
Definition emit (e : UITabbedPanelEvents) (p : UITabbedPanel) :=
  mk (tabs p) (tabContents p) (activeTabId p) (tabbedConfig p)
     (emitted p ++ [e]).

(** Call a method on the tab, or the pane, stored under [k], if any. *)
Definition on_tab (k : string) (f : UITab → UITab) (p : UITabbedPanel) :=
  match get k (tabs p) with
  | Some t => with_tabs (set k (f t) (tabs p)) p
  | None => p
  end.

Definition on_content (k : string) (f : UITabContent → UITabContent)
    (p : UITabbedPanel) :=
  match get k (tabContents p) with
  | Some c => with_tabContents (set k (f c) (tabContents p)) p
  | None => p
  end.

(** [if (this.activeTabId)]: neither [null] nor the empty string. *)
Definition truthy_id (a : option string) : option string :=
  match a with
  | Some EmptyString | None => None
  | Some k => Some k
  end.

(** [setActiveTab]: the returned boolean and the panel afterwards. *)
Definition setActiveTab (tabId : string) (p : UITabbedPanel)
  : bool * UITabbedPanel :=
  match get tabId (tabs p), get tabId (tabContents p) with
  | Some _, Some _ =>
      let p1 := match truthy_id (activeTabId p) with
                | Some cur => on_content cur hide (on_tab cur (setActive false) p)
                | None => p
                end in
      let p2 := with_activeTabId (Some tabId) p1 in
      let p3 := on_content tabId show (on_tab tabId (setActive true) p2) in
      (true, emit (TabChanged tabId) p3)
  | _, _ => (false, p)
  end.

Definition isHorizontal (p : UITabbedPanel) : bool :=
  match tabPosition (tabbedConfig p) with
  | top | bottom => true
  | _ => false
  end.

Definition calculateNextTabPosition (p : UITabbedPanel) : Z * Z :=
  let tabSpacing := default 2 (tabSpacing (tabbedConfig p)) in
  let offset :=
    foldl (λ offset kv,
             if isHorizontal p then offset + (width (snd kv) + tabSpacing)
             else offset + (height (snd kv) + tabSpacing))
          0 (tabs p) in
  if isHorizontal p then (offset, 0) else (0, offset).

(** [addTab(config, makeActive)] for the tab id [id]; the pane starts
    hidden and without children. *)
Definition addTab (id : string) (makeActive : bool) (p : UITabbedPanel)
  : UITabbedPanel :=
  if has id (tabs p) then p
  else
    let tabPos := calculateNextTabPosition p in
    let w := if isHorizontal p then default 80 (tabMinWidth (tabbedConfig p))
             else default 36 (tabHeight (tabbedConfig p)) in
    let h := if isHorizontal p then default 36 (tabHeight (tabbedConfig p))
             else default 80 (tabMinWidth (tabbedConfig p)) in
    let p1 := with_tabs (set id (newTab tabPos w h) (tabs p)) p in
    let p2 := with_tabContents
                (set id (mkContent false [] None None) (tabContents p1)) p1 in
    let p3 := emit (TabAdded id) p2 in
    if makeActive || (length (tabs p3) =? 1)%nat
    then snd (setActiveTab id p3)
    else p3.

(** The visibility of every pane, in insertion order. *)
Definition pane_visibility (p : UITabbedPanel) : list (string * bool) :=
  (λ kv, (fst kv, isVisible (snd kv))) <$> tabContents p.

(** [Map.prototype.delete] *)
Fixpoint delete {V} (k : string) (m : Map V) : Map V :=
  match m with
  | [] => []
  | (k', v) :: m' => if decide (k' = k) then m' else (k', v) :: delete k m'
  end.

Definition with_pos (at_pos : Z * Z) (t : UITab) : UITab :=
  mkTab (isTabActive t) (isHovered t) (graphicState t) (labelColor t) at_pos
        (width t) (height t).

(** The loop of [repositionTabs], from the offset reached so far. *)
Fixpoint reposition (horizontal : bool) (spacing offset : Z) (m : Map UITab)
  : Map UITab :=
  match m with
  | [] => []
  | (k, t) :: m' =>
      if horizontal
      then (k, with_pos (offset, 0) t)
             :: reposition horizontal spacing (offset + (width t + spacing)) m'
      else (k, with_pos (0, offset) t)
             :: reposition horizontal spacing (offset + (height t + spacing)) m'
  end.

Definition repositionTabs (p : UITabbedPanel) : UITabbedPanel :=
  with_tabs (reposition (isHorizontal p)
               (default 2 (tabSpacing (tabbedConfig p))) 0 (tabs p)) p.

(** [removeTab]: the returned boolean and the panel afterwards. *)
Definition removeTab (tabId : string) (p : UITabbedPanel)
  : bool * UITabbedPanel :=
  match get tabId (tabs p), get tabId (tabContents p) with
  | Some _, Some _ =>
      let p1 := with_tabContents (delete tabId (tabContents p))
                  (with_tabs (delete tabId (tabs p)) p) in
      let p2 := if decide (activeTabId p1 = Some tabId)
                then
                  let p' := with_activeTabId None p1 in
                  match keys (tabs p') with
                  | first :: _ => snd (setActiveTab first p')
                  | [] => p'
                  end
                else p1 in
      (true, emit (TabRemoved tabId) (repositionTabs p2))
  | _, _ => (false, p)
  end.

(** The [pointerenter] and [pointerleave] handlers of a tab header. *)
Definition hover (hovered : bool) (t : UITab) : UITab :=
  updateGraphic
    (updateLabelColor
       (mkTab (isTabActive t) hovered (graphicState t) (labelColor t) (pos t)
              (width t) (height t))).

(** *** Sequences of calls on one panel

    [addTab], [removeTab] (also reached from the close button of a
    header), [setActiveTab] (also reached from a pointer-down on a header)
    and the pointer entering or leaving a header. *)
Inductive Call :=
| AddTab (id : string) (makeActive : bool)
| RemoveTab (id : string)
| SetActiveTab (id : string)
| TabEnter (id : string)
| TabLeave (id : string).

Definition perform (c : Call) (p : UITabbedPanel) : UITabbedPanel :=
  match c with
  | AddTab id makeActive => addTab id makeActive p
  | RemoveTab id => snd (removeTab id p)
  | SetActiveTab id => snd (setActiveTab id p)
  | TabEnter id => on_tab id (hover true) p
  | TabLeave id => on_tab id (hover false) p
  end.

Definition perform_all (calls : list Call) (p : UITabbedPanel) : UITabbedPanel :=
  foldl (λ s c, perform c s) p calls.

(** No tab is added under the empty string. *)
Definition named (c : Call) : bool :=
  match c with
  | AddTab EmptyString _ => false
  | _ => true
  end.

(** The headers and the panes have the same ids, none of them the empty
    string; a panel with tabs has an active tab; the active header and the
    visible pane are those of the active tab, and no other. *)
Definition well_formed (p : UITabbedPanel) : Prop :=
  keys (tabs p) = keys (tabContents p)
  ∧ NoDup (keys (tabs p))
  ∧ (EmptyString ∉ keys (tabs p))
  ∧ match activeTabId p with
    | Some a => a ∈ keys (tabs p)
    | None => tabs p = []
    end
  ∧ (∀ k t, get k (tabs p) = Some t →
       isTabActive t = bool_decide (activeTabId p = Some k))
  ∧ (∀ k c, get k (tabContents p) = Some c →
       isVisible c = bool_decide (activeTabId p = Some k)).

(** Every header starts where the headers before it, with the spacing
    after each, end: [repositionTabs] would move nothing. *)
Definition laid_out (p : UITabbedPanel) : Prop :=
  reposition (isHorizontal p) (default 2 (tabSpacing (tabbedConfig p))) 0
             (tabs p)
  = tabs p.

(** A header is drawn as its flags say. *)
Definition drawn_as_flagged (t : UITab) : Prop :=
  graphicState t = (isTabActive t, isHovered t)
  ∧ labelColor t = (if isTabActive t then activeText
                    else if isHovered t then hoveredText else inactiveText).

End TabbedPanel.

(** ** Concrete scenes used to exercise the operations *)
Module Scenes.
Import FocusManager.

(** Three enabled components with tab stops 0, 2 and 5. *)
Definition three_components (w : wid) : Component.InteractiveUIComponent :=
  match w with
  | 0%nat => Component.create 0
  | 1%nat => Component.create 2
  | _ => Component.create 5
  end.

Definition tab_stops_0_2_5 : World Component.InteractiveUIComponent :=
  register [0; 1; 2]%nat (create three_components).

(** Two enabled components with tab stops 0 and 5. *)
Definition two_components (w : wid) : Component.InteractiveUIComponent :=
  match w with
  | 0%nat => Component.create 0
  | _ => Component.create 5
  end.

(** Widget 1 is registered, unregistered, focused through a reference the
    caller kept, and registered again after widget 0 took the focus. *)
Definition stale_focus_calls : list Op :=
  [Register 0; Register 1; Unregister 1; SetFocus 1; SetFocus 0; Register 1]%nat.

(** Three enabled components: 0 and 1 share the tab stop 0, 2 has tab
    stop 5. *)
Definition shared_tab_stop (w : wid) : Component.InteractiveUIComponent :=
  match w with
  | 0%nat | 1%nat => Component.create 0
  | _ => Component.create 5
  end.

(** Widget 1 takes the tab stop of the focused widget 0, and widget 0 is
    registered again once widget 2 holds the focus. *)
Definition duplicate_index_calls : list Op :=
  [Register 0; SetFocus 0; Register 1; Register 2; SetFocus 2; Register 0]%nat.

(** The same widgets, each focused only while it is registered. *)
Definition orderly_focus_calls : list Op :=
  [Register 0; Register 1; SetFocus 1; SetFocus 0; Unregister 1; Register 1;
   SetFocus 1; Unregister 1]%nat.

Definition navigation_calls : list Op :=
  [Register 0; Register 1; MoveFocus true; RequestFocus 0; MoveFocus false;
   Unregister 1; SetFocus 0; ClearFocus; RequestFocus 0]%nat.

(** An enabled component at tab stop 0 that holds the focus and a disabled
    one at tab stop 2. *)
Definition enabled_then_disabled (w : wid) : Component.InteractiveUIComponent :=
  match w with
  | 0%nat => Component.create 0
  | _ => Component.setEnabled false (Component.create 2)
  end.

Definition focus_before_disabled : World Component.InteractiveUIComponent :=
  setFocus 0%nat (register [0; 1]%nat (create enabled_then_disabled)).

(** An enabled switch at tab stop 0 that holds the focus and a disabled
    switch at tab stop 2, both registered. *)
Definition switch_then_disabled (w : wid) : Switch.UISwitch :=
  match w with
  | 0%nat => Switch.create false (Some 0)
  | _ => Switch.setEnabled false (Switch.create false (Some 2))
  end.

Definition focus_before_disabled_switch : Switch.World :=
  setFocus 0%nat (register [0; 1]%nat (create switch_then_disabled)).

(** A component that keeps the default tab stop [-1] and one at tab stop 3,
    both registered. *)
Definition opt_out_components (w : wid) : Component.InteractiveUIComponent :=
  match w with
  | 0%nat => Component.create (-1)
  | _ => Component.create 3
  end.

Definition opt_out_registered : World Component.InteractiveUIComponent :=
  register [0; 1]%nat (create opt_out_components).

(** A button at tab stop 3 that was registered and unregistered again. *)
Definition unregistered_button : Button.World :=
  unregister [0%nat] (register [0%nat] (create (λ _, Button.create 3))).

(** A registered button at tab stop 0 that holds the focus. *)
Definition focused_button : Button.World :=
  setFocus 0%nat (register [0%nat] (create (λ _, Button.create 0))).

(** A fresh button without a manager, the pointer over it. *)
Definition hovered_button : Button.World :=
  Button.handle Button.onHover 0%nat (create (λ _, Button.create 0)).

(** The same button right after a click, the timer of [onClick] pending. *)
Definition just_clicked_button : Button.World :=
  Button.press_release 0%nat hovered_button.

(** The button of [hovered_button], held down. *)
Definition held_button : Button.UIButton :=
  heap (Button.onPointerDown 0%nat hovered_button) 0%nat.

(** A group that allows deselection, with three unchecked members. *)
Definition deselectable_trio : RadioGroup.World :=
  let empty := RadioGroup.create (Some true) None
                 (λ _, RadioGroup.newCheckbox false) in
  default empty (RadioGroup.add_all 8 [0; 1; 2]%nat empty).

(** The same group after its second member was checked. *)
Definition second_selected : RadioGroup.World :=
  default deselectable_trio
    (RadioGroup.set_checked 8 1%nat true deselectable_trio).

(** A host that converts the integers below [2^53] as JavaScript does and
    gives [NaN] or the empty string elsewhere: enough to run the scenes.
    Its regular-expression engine is never asked, the separators of the
    scenes being single characters. *)
Fixpoint digits_value (acc : Z) (l : list ascii) : option Z :=
  match l with
  | [] => Some acc
  | a :: l' =>
      if JS.is_digit a
      then digits_value (10 * acc + (Z.of_nat (nat_of_ascii a) - 48)) l'
      else None
  end.

Definition integer_of_string (s : string) : option Z :=
  match list_ascii_of_string s with
  | [] => None
  | l => digits_value 0 l
  end.

Definition integer_of_number (x : JS.number) : option Z :=
  match Prim2SF x with
  | S754_zero _ => Some 0
  | S754_finite sign m e =>
      let magnitude :=
        if 0 <=? e then Some (Z.pos m * 2 ^ e)
        else if Z.pos m mod 2 ^ (- e) =? 0 then Some (Z.pos m / 2 ^ (- e))
        else None in
      (λ z, if sign then - z else z) <$> magnitude
  | _ => None
  end.

Definition zeros (n : nat) : string :=
  string_of_list_ascii (replicate n "0"%char).

#[global] Instance integer_host : JS.Host := {|
  JS.parseFloat s :=
    match integer_of_string s with
    | Some z => if z <? 2 ^ 53 then PrimFloat.of_uint63 (Uint63.of_Z z)
                else PrimFloat.nan
    | None => PrimFloat.nan
    end;
  JS.toFixed x d :=
    match integer_of_number x, integer_of_number d with
    | Some z, Some k =>
        if k =? 0 then pretty z
        else String.append (pretty z) (String.append "." (zeros (Z.to_nat k)))
    | _, _ => EmptyString
    end;
  JS.toExponential x d := EmptyString;
  JS.numberToString x :=
    match integer_of_number x with
    | Some z => pretty z
    | None => EmptyString
    end;
  JS.regexp_remove source s := s;
|}.

(** A numeric input with the default configuration, its value capped at
    [top], showing the committed value 42. *)
Definition numeric_42 (top : JS.number) : Numeric.UINumeric :=
  Numeric.create (Numeric.with_max (Some top) Numeric.defaultNumericConfig)
                 (Some 42%float).

Definition typed (char : string) : Numeric.KeyEvent :=
  Numeric.keyEvent Numeric.OtherKey char.

(** The same input after it was focused and 9 was typed twice. *)
Definition editing_4299 (top : JS.number) : Numeric.UINumeric :=
  Numeric.onKeyDown (typed "9")
    (Numeric.onKeyDown (typed "9") (Numeric.focus (numeric_42 top))).

(** The editing input with the maximum 1000, and with the maximum 42. *)
Definition editing_below_1000 : Numeric.UINumeric := editing_4299 1000%float.
Definition editing_at_maximum : Numeric.UINumeric := editing_4299 42%float.

(** Focusing a text input and typing a, b and c. *)
Definition typing_abc : list TextInput.Call :=
  [TextInput.Focus;
   TextInput.KeyPress (TextInput.keyEvent TextInput.OtherKey "a");
   TextInput.KeyPress (TextInput.keyEvent TextInput.OtherKey "b");
   TextInput.KeyPress (TextInput.keyEvent TextInput.OtherKey "c")].

(** A panel with the default layout and the tabs a, b and c, added in this
    order without forcing any of them active. *)
Definition panel_abc : TabbedPanel.UITabbedPanel :=
  TabbedPanel.addTab "c" false
    (TabbedPanel.addTab "b" false
       (TabbedPanel.addTab "a" false
          (TabbedPanel.create
             {| TabbedPanel.tabHeight := Some 36;
                TabbedPanel.tabMinWidth := Some 80;
                TabbedPanel.tabPosition := TabbedPanel.top;
                TabbedPanel.tabSpacing := Some 2 |}))).

(** A registered text input at tab stop 0 that held the focus, was
    disabled and enabled again. *)
Definition reenabled_text_input : TextInput.World :=
  let st := setFocus 0%nat
              (register [0%nat]
                 (create (λ _, TextInput.create None None (Some 0)))) in
  {| currentTabIndex := currentTabIndex st;
     components := components st;
     heap := send 0%nat
               (λ n, TextInput.setEnabled true (TextInput.setEnabled false n))
               (heap st) |}.

(** The layout of [panel_abc]: headers on top, 80 by 36, 2 apart. *)
Definition top_tabs : TabbedPanel.UITabbedPanelConfig :=
  {| TabbedPanel.tabHeight := Some 36;
     TabbedPanel.tabMinWidth := Some 80;
     TabbedPanel.tabPosition := TabbedPanel.top;
     TabbedPanel.tabSpacing := Some 2 |}.

(** Two tabs are added, the second one active; the pointer passes over the
    first; the second is removed; a tab that does not exist is asked
    for. *)
Definition tab_calls : list TabbedPanel.Call :=
  [TabbedPanel.AddTab "a" false; TabbedPanel.AddTab "b" true;
   TabbedPanel.TabEnter "a"; TabbedPanel.RemoveTab "b";
   TabbedPanel.SetActiveTab "z"].

(** A panel whose first tab has the empty string as its id, and a tab b. *)
Definition unnamed_then_b : TabbedPanel.UITabbedPanel :=
  TabbedPanel.addTab "b" false
    (TabbedPanel.addTab "" false (TabbedPanel.create top_tabs)).

End Scenes.

(** * Properties *)

(** ** The widget classes keep the focus contract *)

#[global] Instance Component_focusable_laws :
  FocusableLaws Component.InteractiveUIComponent.
Proof.
  split; intros [e f t m]; cbn; unfold Component.focus, Component.loseFocus;
    cbn; try reflexivity; destruct e, f; reflexivity.
Qed.

#[global] Instance Switch_focusable_laws : FocusableLaws Switch.UISwitch.
Proof. split; by intros [e f t m c h ev]. Qed.

#[global] Instance Button_focusable_laws : FocusableLaws Button.UIButton.
Proof.
  split; intros [e f t m s h p i n ev cb]; cbn;
    unfold Button.focus, Button.loseFocus; cbn;
    try reflexivity; destruct e; cbn; unfold Button.updateState; cbn;
    destruct p, h; reflexivity.
Qed.

(** ** The focus manager *)
Module FocusManagerFacts.
Import FocusManager.

Section ManagerFacts.
Context {W : Type} `{FocusableLaws W}.

Implicit Types (st : World W) (c w p : wid) (h : wid → W).

Lemma send_eq c f h : send c f h c = f (h c).
Proof. unfold send. apply fn_lookup_insert. Qed.

Lemma send_ne c w f h : c ≠ w → send c f h w = h w.
Proof. unfold send. apply fn_lookup_insert_ne. Qed.

Lemma send_preserved {A} (P : W → A) f c h w :
  (∀ x, P (f x) = P x) → P (send c f h w) = P (h w).
Proof.
  intros Hf. destruct (decide (c = w)) as [->|Hne].
  - by rewrite send_eq.
  - by rewrite send_ne.
Qed.

(** A projection that none of the three dispatched methods changes. *)
Definition stable {A} (P : W → A) : Prop :=
  (∀ x, P (focus x) = P x) ∧ (∀ x, P (loseFocus x) = P x)
  ∧ (∀ x, P (setManager x) = P x).

Lemma stable_tabStopIndex : stable tabStopIndex.
Proof.
  repeat split; auto using focus_tabStopIndex, loseFocus_tabStopIndex,
    setManager_tabStopIndex.
Qed.

Lemma stable_isEnabled : stable isEnabled.
Proof.
  repeat split; auto using focus_isEnabled, loseFocus_isEnabled,
    setManager_isEnabled.
Qed.

Lemma stable_focusGated : stable focusGated.
Proof.
  repeat split; auto using focus_focusGated, loseFocus_focusGated,
    setManager_focusGated.
Qed.

Lemma blurFocused_preserved {A} (P : W → A) st w :
  stable P → P (blurFocused st w) = P (heap st w).
Proof.
  intros (_ & Hl & _). unfold blurFocused.
  destruct (focused st); [by apply send_preserved | done].
Qed.

Lemma setFocus_preserved {A} (P : W → A) c st w :
  stable P → P (heap (setFocus c st) w) = P (heap st w).
Proof.
  intros HP. unfold setFocus. case_decide; [done|]. cbn.
  rewrite send_preserved by apply HP. by apply blurFocused_preserved.
Qed.

Lemma step_preserved {A} (P : W → A) o st w :
  stable P → P (heap (step o st) w) = P (heap st w).
Proof.
  intros HP. destruct o as [c|c|c| |forward|c]; cbn.
  - apply send_preserved, HP.
  - unfold unregister1. case_decide; cbn; [|done].
    by apply blurFocused_preserved.
  - by apply setFocus_preserved.
  - by apply blurFocused_preserved.
  - unfold moveFocus. case_decide; [done|].
    destruct (nextIndex forward st) as [k|]; [|done].
    destruct (components st !! k); [|done]. by apply setFocus_preserved.
  - unfold requestFocus. destruct (hasManager _); [|done].
    by apply setFocus_preserved.
Qed.

Lemma run_preserved {A} (P : W → A) ops st w :
  stable P → P (heap (run ops st) w) = P (heap st w).
Proof.
  intros HP. revert st. induction ops as [|o ops IH]; intros st; [done|].
  change (run (o :: ops) st) with (run ops (step o st)).
  rewrite IH. by apply step_preserved.
Qed.

(** The array forms of [register] and [unregister] are their loops. *)
Lemma register_run cs st : register cs st = run (Register <$> cs) st.
Proof. revert st. induction cs as [|c cs IH]; intros st; [done|]. apply IH. Qed.

Lemma unregister_run cs st : unregister cs st = run (Unregister <$> cs) st.
Proof. revert st. induction cs as [|c cs IH]; intros st; [done|]. apply IH. Qed.

(** [setFocus] calls at most [focus] on its argument. *)
Lemma setFocus_target c st :
  heap (setFocus c st) c = heap st c ∨ heap (setFocus c st) c = focus (heap st c).
Proof.
  unfold setFocus. case_decide as Hf; [by left|right]. cbn.
  rewrite send_eq. f_equal. unfold blurFocused.
  destruct (focused st) as [p|] eqn:Hp; [|done].
  apply send_ne. congruence.
Qed.

(** After [focused?.loseFocus()] nobody is focused, when only the current
    widget could be. *)
Lemma blurFocused_nobody st w :
  only_current_focused st → disabled_unfocused st →
  isFocused (blurFocused st w) = false.
Proof.
  intros Hcur Hdis. unfold blurFocused.
  destruct (isFocused (heap st w)) eqn:Hw.
  - rewrite (Hcur w Hw), send_eq, loseFocus_isFocused.
    destruct (focusGated (heap st w)) eqn:Hg; [|done].
    destruct (isEnabled (heap st w)) eqn:He; [done|].
    by rewrite (Hdis w Hg He) in Hw.
  - destruct (focused st) as [p|]; [|done].
    destruct (decide (p = w)) as [->|Hne].
    + rewrite send_eq, loseFocus_isFocused, Hw. by destruct (_ && _).
    + by rewrite send_ne.
Qed.

(** *** How the calls change the registry *)

Lemma setFocus_components c st : components (setFocus c st) = components st.
Proof. unfold setFocus. by case_decide. Qed.

Lemma setFocus_current c st :
  focused st ≠ Some c →
  currentTabIndex (setFocus c st) = tabStopIndex (heap st c).
Proof.
  intros Hne. unfold setFocus. case_decide; [done|]. cbn.
  apply blurFocused_preserved, stable_tabStopIndex.
Qed.

Lemma moveFocus_cases forward st :
  moveFocus forward st = st
  ∨ ∃ k next, components st !! k = Some next
              ∧ moveFocus forward st = setFocus next st.
Proof.
  unfold moveFocus. case_decide; [by left|].
  destruct (nextIndex forward st) as [k|]; [|by left].
  destruct (components st !! k) as [next|] eqn:Hk; [|by left].
  right. by exists k, next.
Qed.

Lemma step_lookup o st k w :
  components (step o st) !! k = Some w →
  components st !! k = Some w
  ∨ (o = Register w ∧ k = tabStopIndex (heap st w)).
Proof.
  destruct o as [c|c|c| |forward|c]; cbn.
  - intros [[<- <-]|[_ ?]]%lookup_insert_Some; auto.
  - unfold unregister1. case_decide; cbn;
      intros [_ ?]%lookup_delete_Some; auto.
  - rewrite setFocus_components. auto.
  - auto.
  - destruct (moveFocus_cases forward st) as [->|(k' & nx & _ & ->)];
      [|rewrite setFocus_components]; auto.
  - unfold requestFocus. destruct (hasManager _);
      [rewrite setFocus_components|]; auto.
Qed.

Lemma keyed_step o st : keyed st → keyed (step o st).
Proof.
  intros Hk k w Hw.
  rewrite (step_preserved tabStopIndex) by apply stable_tabStopIndex.
  apply step_lookup in Hw as [Hw|[_ ->]]; [by apply Hk|done].
Qed.

Lemma keyed_create h : keyed (create h).
Proof. intros k w. cbn. by rewrite lookup_empty. Qed.

Lemma keyed_run ops st : keyed st → keyed (run ops st).
Proof.
  revert st. induction ops as [|o ops IH]; intros st Hk; [done|].
  apply IH, keyed_step, Hk.
Qed.

(** *** [currentTabIndex] stays a key of the registry *)

Lemma current_valid_setFocus c st :
  is_Some (components st !! tabStopIndex (heap st c)) →
  current_valid st → current_valid (setFocus c st).
Proof.
  intros Hc Hv. destruct (decide (focused st = Some c)) as [Hf|Hf].
  - unfold setFocus. by rewrite decide_True.
  - right. by rewrite setFocus_current, setFocus_components.
Qed.

Lemma current_valid_step o st :
  keyed st → indexed_call st o = true →
  current_valid st → current_valid (step o st).
Proof.
  intros Hk Hok Hv. destruct o as [c|c|c| |forward|c]; cbn in *.
  - destruct Hv as [Hv|[x Hx]]; [by left|right]. cbn.
    destruct (decide (tabStopIndex (heap st c) = currentTabIndex st)) as [->|?].
    + rewrite lookup_insert_eq. eauto.
    + rewrite lookup_insert_ne by done. eauto.
  - unfold unregister1. case_decide as Hcur; cbn; [by left|].
    destruct Hv as [Hv|[x Hx]]; [by left|right]. cbn.
    rewrite lookup_delete_ne by done. eauto.
  - apply bool_decide_eq_true in Hok. by apply current_valid_setFocus.
  - by left.
  - destruct (moveFocus_cases forward st) as [->|(k & nx & Hnx & ->)]; [done|].
    apply current_valid_setFocus; [|done].
    rewrite (Hk _ _ Hnx). eauto.
  - unfold requestFocus. destruct (hasManager _); [|done].
    apply bool_decide_eq_true in Hok. by apply current_valid_setFocus.
Qed.

(** *** Only the current widget is focused *)

Definition disabled_yet_focused (x : W) : bool :=
  focusGated x && negb (isEnabled x) && isFocused x.

Lemma stable_disabled_yet_focused : stable disabled_yet_focused.
Proof.
  unfold disabled_yet_focused. repeat split; intros x.
  - rewrite focus_focusGated, focus_isEnabled, focus_isFocused.
    by destruct (focusGated x), (isEnabled x).
  - rewrite loseFocus_focusGated, loseFocus_isEnabled, loseFocus_isFocused.
    by destruct (focusGated x), (isEnabled x).
  - by rewrite setManager_focusGated, setManager_isEnabled,
      setManager_isFocused.
Qed.

Lemma disabled_unfocused_alt st :
  disabled_unfocused st ↔ ∀ w, disabled_yet_focused (heap st w) = false.
Proof.
  unfold disabled_unfocused, disabled_yet_focused.
  split; intros Hd w; specialize (Hd w).
  - destruct (focusGated (heap st w)); [|done].
    destruct (isEnabled (heap st w)); [done|]. by rewrite Hd.
  - intros Hg He. by rewrite Hg, He in Hd.
Qed.

Lemma disabled_unfocused_step o st :
  disabled_unfocused st → disabled_unfocused (step o st).
Proof.
  rewrite !disabled_unfocused_alt. intros Hd w.
  rewrite step_preserved by apply stable_disabled_yet_focused. apply Hd.
Qed.

Lemma only_current_setFocus c st :
  components st !! tabStopIndex (heap st c) = Some c →
  only_current_focused st → disabled_unfocused st →
  only_current_focused (setFocus c st).
Proof.
  intros Hc Hcur Hdis. unfold setFocus. case_decide as Hf; [done|].
  intros w. cbn. unfold focused. cbn.
  rewrite blurFocused_preserved by apply stable_tabStopIndex.
  destruct (decide (c = w)) as [->|Hne]; [done|].
  rewrite send_ne by done. by rewrite blurFocused_nobody.
Qed.

Lemma only_current_step o st :
  exclusive_call st o = true →
  only_current_focused st → disabled_unfocused st →
  only_current_focused (step o st).
Proof.
  intros Hok Hcur Hdis.
  destruct o as [c|c|c| |forward|c]; cbn in *; try done.
  - intros w. unfold focused. cbn.
    rewrite send_preserved by apply setManager_isFocused.
    intros Hw. specialize (Hcur w Hw). unfold focused in Hcur.
    destruct (decide (tabStopIndex (heap st c) = currentTabIndex st)) as [Heq|?].
    + rewrite Heq, Hcur in Hok. apply bool_decide_eq_true in Hok as ->.
      by rewrite Heq, lookup_insert_eq.
    + by rewrite lookup_insert_ne.
  - unfold unregister1. case_decide as Hd; intros w; cbn.
    + by rewrite blurFocused_nobody.
    + intros Hw. unfold focused. cbn. rewrite lookup_delete_ne by done.
      by apply Hcur.
  - apply bool_decide_eq_true in Hok. by apply only_current_setFocus.
Qed.

Lemma only_current_exclusive st : only_current_focused st → focus_exclusive st.
Proof.
  intros Hcur w1 w2 _ _ H1 H2.
  apply Hcur in H1, H2. congruence.
Qed.

Lemma admissible_take ok ops st n :
  admissible ok ops st = true → admissible ok (take n ops) st = true.
Proof.
  revert st n. induction ops as [|o ops IH]; intros st [|n]; cbn; try done.
  intros [Ho Hops]%andb_true_iff. rewrite Ho. cbn. by apply IH.
Qed.

Lemma exclusive_run ops st :
  admissible exclusive_call ops st = true →
  only_current_focused st → disabled_unfocused st →
  only_current_focused (run ops st).
Proof.
  revert st. induction ops as [|o ops IH]; intros st Hadm Hcur Hdis; [done|].
  cbn in Hadm. apply andb_true_iff in Hadm as [Ho Hops].
  apply IH; [done| |by apply disabled_unfocused_step].
  by apply only_current_step.
Qed.

Lemma indexed_run ops st :
  admissible indexed_call ops st = true →
  keyed st → current_valid st → current_valid (run ops st).
Proof.
  revert st. induction ops as [|o ops IH]; intros st Hadm Hk Hv; [done|].
  cbn in Hadm. apply andb_true_iff in Hadm as [Ho Hops].
  apply IH; [done|by apply keyed_step|by apply current_valid_step].
Qed.

(** *** The sorted key list and the target of [moveFocus] *)

Lemma sortedKeys_elem st k :
  k ∈ sortedKeys st ↔ is_Some (components st !! k).
Proof.
  unfold sortedKeys. rewrite merge_sort_Permutation, list_elem_of_fmap.
  split.
  - intros ([k' w] & -> & Hin). apply elem_of_map_to_list in Hin. eauto.
  - intros [w Hw]. exists (k, w). split; [done|].
    by apply elem_of_map_to_list.
Qed.

Lemma sortedKeys_sorted st : StronglySorted Z.le (sortedKeys st).
Proof. apply StronglySorted_merge_sort; apply _. Qed.

Lemma sortedKeys_NoDup st : NoDup (sortedKeys st).
Proof.
  unfold sortedKeys. rewrite merge_sort_Permutation.
  apply NoDup_fst_map_to_list.
Qed.

Lemma sortedKeys_length st :
  length (sortedKeys st) = size (components st).
Proof.
  unfold sortedKeys.
  by rewrite merge_sort_Permutation, length_fmap, length_map_to_list.
Qed.

Lemma sorted_lookup_le (l : list Z) i j x y :
  StronglySorted Z.le l → l !! i = Some x → l !! j = Some y →
  (i ≤ j)%nat → x ≤ y.
Proof.
  intros Hs. revert i j. induction Hs as [|a l Hs IH Hall];
    intros [|i] [|j] Hx Hy Hij; simplify_eq/=; try lia.
  - rewrite Forall_forall in Hall. apply Hall.
    by eapply list_elem_of_lookup_2.
  - eapply IH; eauto with lia.
Qed.

Lemma indexOf_lookup (l : list Z) (p : nat) (x : Z) :
  NoDup l → l !! p = Some x → indexOf x l = Z.of_nat p.
Proof.
  intros Hnd. revert p. induction Hnd as [|a l Hnotin Hnd IH];
    intros [|p] Hp; simplify_eq/=.
  - by rewrite decide_True.
  - rewrite decide_False.
    + rewrite (IH p Hp). destruct (Z.ltb_spec (Z.of_nat p) 0); lia.
    + intros ->. apply Hnotin. by eapply list_elem_of_lookup_2.
Qed.

Lemma at_index_nat (l : list Z) (i : nat) : at_index l (Z.of_nat i) = l !! i.
Proof.
  unfold at_index. destruct (Z.ltb_spec (Z.of_nat i) 0); [lia|].
  by rewrite Nat2Z.id.
Qed.

Lemma rem_of_nat (a n : nat) :
  (0 < n)%nat → Z.rem (Z.of_nat a) (Z.of_nat n) = Z.of_nat (a mod n).
Proof.
  intros Hn. rewrite Z.rem_mod_nonneg by lia. by rewrite Nat2Z.inj_mod.
Qed.

(** The entry [moveFocus] hands to [setFocus], by position in the sorted
    key list. *)
Lemma moveFocus_at forward st (i : nat) :
  size (components st) ≠ 0%nat →
  nextIndex forward st = at_index (sortedKeys st) (Z.of_nat i) →
  (i < length (sortedKeys st))%nat →
  ∃ k next, sortedKeys st !! i = Some k ∧ components st !! k = Some next
            ∧ moveFocus forward st = setFocus next st.
Proof.
  intros Hsz Hnext Hi. rewrite at_index_nat in Hnext.
  destruct (lookup_lt_is_Some_2 _ _ Hi) as [k Hk].
  assert (is_Some (components st !! k)) as [next Hnx].
  { apply sortedKeys_elem. by eapply list_elem_of_lookup_2. }
  exists k, next. split_and!; [done..|].
  unfold moveFocus. rewrite decide_False by done.
  by rewrite Hnext, Hk, Hnx.
Qed.

Lemma moveFocus_unfocused (forward : bool) st :
  size (components st) ≠ 0%nat → currentTabIndex st = -1 →
  ∃ k next, components st !! k = Some next
    ∧ (∀ k' : Z, is_Some (components st !! k') →
         if forward then k ≤ k' else k' ≤ k)
    ∧ moveFocus forward st = setFocus next st.
Proof.
  intros Hsz Hcur. pose proof (sortedKeys_length st) as Hlen.
  set (n := length (sortedKeys st)) in *.
  destruct (moveFocus_at forward st (if forward then 0 else n - 1)%nat)
    as (k & next & Hk & Hnx & Hmv); [done| |destruct forward; lia|].
  { unfold nextIndex. rewrite decide_True by done. fold n.
    destruct forward; [done|]. f_equal. lia. }
  exists k, next. split_and!; [done| |done].
  intros k' [j Hj]%sortedKeys_elem%list_elem_of_lookup_1.
  pose proof (lookup_lt_Some _ _ _ Hj).
  destruct forward.
  - eapply sorted_lookup_le; eauto using sortedKeys_sorted with lia.
  - eapply sorted_lookup_le; eauto using sortedKeys_sorted. fold n. lia.
Qed.

Lemma moveFocus_cyclic (forward : bool) st (p : nat) :
  currentTabIndex st ≠ -1 →
  sortedKeys st !! p = Some (currentTabIndex st) →
  let count := length (sortedKeys st) in
  ∃ k next,
    sortedKeys st !! (if forward then (p + 1) mod count
                      else (p + count - 1) mod count)%nat = Some k
    ∧ components st !! k = Some next
    ∧ moveFocus forward st = setFocus next st.
Proof.
  intros Hcur Hp count. pose proof (lookup_lt_Some _ _ _ Hp) as Hlt.
  fold count in Hlt.
  assert (size (components st) ≠ 0%nat) as Hsz.
  { rewrite <- sortedKeys_length. fold count. lia. }
  apply moveFocus_at; [done| |destruct forward; apply Nat.mod_upper_bound; lia].
  unfold nextIndex. rewrite decide_False by done.
  rewrite (indexOf_lookup _ p) by eauto using sortedKeys_NoDup.
  fold count. destruct forward; f_equal.
  - rewrite <- rem_of_nat by lia. f_equal. lia.
  - rewrite <- rem_of_nat by lia. f_equal. lia.
Qed.

End ManagerFacts.

End FocusManagerFacts.

(** ** Claims about the focus manager *)
Module FocusClaims.
Import FocusManager FocusManagerFacts Scenes.

(** C1, as stated, fails: after widget 1 has been unregistered, a
    [setFocus] on it leaves [focused] undefined, so the next [setFocus]
    blurs nobody; registering widget 1 again gives two registered widgets
    that both report [focused = true]. *)
Lemma focus_exclusive_fails :
  ¬ focus_exclusive (run stale_focus_calls (create two_components)).
Proof.
  intros Hex.
  assert (0 = 1)%nat as Habs; [|discriminate Habs].
  apply Hex.
  - by exists 0.
  - by exists 5.
  - reflexivity.
  - reflexivity.
Qed.

(** The same failure without a stale reference: every [setFocus] below is
    given a registered widget, but [register] replaces the focused widget 0
    under its tab stop without blurring it, and registers it again later. *)
Lemma shared_index_breaks_exclusion :
  admissible registered_call duplicate_index_calls (create shared_tab_stop) = true
  ∧ ¬ focus_exclusive (run duplicate_index_calls (create shared_tab_stop)).
Proof.
  split; [reflexivity|]. intros Hex.
  assert (0 = 2)%nat as Habs; [|discriminate Habs].
  apply Hex.
  - by exists 0.
  - by exists 5.
  - reflexivity.
  - reflexivity.
Qed.

(** C1 (amended): starting from an empty manager and widgets none of which
    is focused, after every call of a sequence of [register], [setFocus] and
    [unregister] calls in which each [setFocus] is given a widget that is in
    the registry and no [register] replaces another widget stored under the
    same tab-stop index, at most one registered widget reports
    [focused = true]. *)
Theorem focus_mutual_exclusion {W : Type} `{FocusableLaws W}
    (h : wid → W) (ops : list Op) (n : nat) :
  (∀ w, isFocused (h w) = false) →
  admissible exclusive_call ops (create h) = true →
  focus_exclusive (run (take n ops) (create h)).
Proof.
  intros Hnone Hadm. apply only_current_exclusive, exclusive_run.
  - by apply admissible_take.
  - intros w. cbn. by rewrite Hnone.
  - intros w _ _. apply Hnone.
Qed.

Lemma focus_mutual_exclusion_witness :
  (∀ w, isFocused (two_components w) = false)
  ∧ admissible exclusive_call orderly_focus_calls (create two_components) = true
  ∧ focus_exclusive (run (take 4 orderly_focus_calls) (create two_components)).
Proof.
  assert (∀ w, isFocused (two_components w) = false) as Hnone
    by (intros [|w]; reflexivity).
  split; [exact Hnone|]. split; [reflexivity|].
  apply (focus_mutual_exclusion two_components orderly_focus_calls 4 Hnone).
  reflexivity.
Defined.

(** C8, as stated, fails: [unregister] leaves the widget's [manager]
    back-reference in place, so a pointer-down on the unregistered button
    calls [setFocus] and sets [currentTabIndex] to an index that is not a
    key of the registry. *)
Lemma stale_back_reference_breaks_current :
  ¬ current_valid (Button.onPointerDown 0%nat unregistered_button).
Proof. intros [Hcur|[x Hx]]; [discriminate Hcur|discriminate Hx]. Qed.

(** C8 (amended): starting from an empty manager, after every call of a
    sequence of [register], [unregister], [setFocus], [clearFocus],
    [moveFocus] calls and focus requests made by widgets through their
    back-reference, [currentTabIndex] is [-1] or a key of the registry,
    provided every [setFocus] (direct or through a back-reference) is given
    a widget whose tab-stop index is a key of the registry at that time. *)
Theorem current_index_registered {W : Type} `{FocusableLaws W}
    (h : wid → W) (ops : list Op) (n : nat) :
  admissible indexed_call ops (create h) = true →
  current_valid (run (take n ops) (create h)).
Proof.
  intros Hadm. apply indexed_run.
  - by apply admissible_take.
  - apply keyed_create.
  - by left.
Qed.

Lemma current_index_registered_witness :
  admissible indexed_call navigation_calls (create two_components) = true
  ∧ current_valid (run (take 5 navigation_calls) (create two_components)).
Proof.
  split; [reflexivity|].
  apply (current_index_registered two_components navigation_calls 5).
  reflexivity.
Defined.

(** For the classes whose [focus] is gated on the enabled flag, the
    behaviour C9 describes: [setFocus] on a disabled widget that is not the
    current one sets [currentTabIndex] to its tab-stop index and leaves its
    [focused] flag as it was; the previously focused widget is blurred; so
    when only the current widget could hold the focus, nobody holds it
    afterwards, although [currentTabIndex] is the widget's tab stop and not
    [-1]. [moveFocus] reaches a disabled widget in the same way, without
    skipping it. *)
Lemma gated_focus_on_disabled_widget {W : Type} `{FocusableLaws W}
    (st : World W) (c : wid) :
  focusGated (heap st c) = true →
  isEnabled (heap st c) = false →
  focused st ≠ Some c →
  let st' := setFocus c st in
  currentTabIndex st' = tabStopIndex (heap st c)
  ∧ isFocused (heap st' c) = isFocused (heap st c)
  ∧ (∀ p, focused st = Some p → isEnabled (heap st p) = true →
       isFocused (heap st' p) = false)
  ∧ (only_current_focused st → disabled_unfocused st →
       nobody_focused st'
       ∧ (tabStopIndex (heap st c) ≠ -1 → currentTabIndex st' ≠ -1))
  ∧ (∀ forward k, size (components st) ≠ 0%nat →
       nextIndex forward st = Some k → components st !! k = Some c →
       moveFocus forward st = st').
Proof.
  intros Hg Hdis Hne st'. subst st'.
  assert (∀ w, heap (setFocus c st) w = send c focus (blurFocused st) w) as Hheap.
  { intros w. unfold setFocus. by rewrite decide_False. }
  assert (isFocused (focus (blurFocused st c)) = isFocused (heap st c)) as Hc.
  { rewrite focus_isFocused.
    rewrite (blurFocused_preserved isEnabled) by apply stable_isEnabled.
    rewrite (blurFocused_preserved focusGated) by apply stable_focusGated.
    rewrite Hg, Hdis. cbn. unfold blurFocused.
    destruct (focused st) as [p|] eqn:Hp; [|done].
    rewrite send_ne; [done|congruence]. }
  split_and!.
  - by apply setFocus_current.
  - by rewrite Hheap, send_eq.
  - intros p Hp Hen. rewrite Hheap, send_ne by congruence.
    unfold blurFocused. rewrite Hp, send_eq, loseFocus_isFocused, Hen.
    by rewrite andb_false_r.
  - intros Hcur Hdu. split.
    + intros w. rewrite Hheap. destruct (decide (c = w)) as [<-|Hw].
      * rewrite send_eq, Hc. by apply Hdu.
      * rewrite send_ne by done. by apply blurFocused_nobody.
    + by rewrite setFocus_current.
  - intros forward k Hsz Hk Hkc. unfold moveFocus.
    by rewrite decide_False, Hk, Hkc.
Qed.

(** The base component, with a focused enabled widget at tab stop 0 and a
    disabled one at tab stop 2, moving forward: the focus is dropped. *)
Example focus_dropped_on_disabled_component :
  isEnabled (heap focus_before_disabled 1%nat) = false
  ∧ moveFocus true focus_before_disabled = setFocus 1%nat focus_before_disabled
  ∧ currentTabIndex (setFocus 1%nat focus_before_disabled) = 2
  ∧ isFocused (heap (setFocus 1%nat focus_before_disabled) 0%nat) = false
  ∧ isFocused (heap (setFocus 1%nat focus_before_disabled) 1%nat) = false.
Proof. by repeat split. Qed.

(** C9 (the code differs): [UISwitch] overrides [focus] without the test of
    the enabled flag that [InteractiveUIComponent.focus] and the other
    overrides start with. With a focused enabled switch at tab stop 0 and a
    disabled switch at tab stop 2, [moveFocus] is [setFocus] on the
    disabled switch: the first switch is blurred, [currentTabIndex] becomes
    2, and the disabled switch reports [focused = true]. *)
Theorem disabled_switch_takes_focus :
  isEnabled (heap focus_before_disabled_switch 1%nat) = false
  ∧ isFocused (heap focus_before_disabled_switch 1%nat) = false
  ∧ focused focus_before_disabled_switch = Some 0%nat
  ∧ moveFocus true focus_before_disabled_switch
    = setFocus 1%nat focus_before_disabled_switch
  ∧ currentTabIndex (setFocus 1%nat focus_before_disabled_switch) = 2
  ∧ isFocused (heap (setFocus 1%nat focus_before_disabled_switch) 0%nat)
    = false
  ∧ isFocused (heap (setFocus 1%nat focus_before_disabled_switch) 1%nat)
    = true.
Proof. by repeat split. Qed.



End FocusClaims.

(** ** Claims about the button state machine *)
Module ButtonClaims.
Import FocusManager FocusManagerFacts Button Scenes.

Lemma handle_heap f c (st : World) : heap (handle f c st) c = f (heap st c).
Proof. apply send_eq. Qed.

(** On an enabled button [onPointerDown] runs its own part and then, at
    most, the [focus] the manager calls back. *)
Lemma onPointerDown_heap c (st : World) :
  _enabled (heap st c) = true →
  heap (onPointerDown c st) c = onPointerDown_local (heap st c)
  ∨ heap (onPointerDown c st) c = focus (onPointerDown_local (heap st c)).
Proof.
  intros Hen. unfold onPointerDown, requestFocus. rewrite Hen. cbn.
  destruct (manager _).
  - destruct (setFocus_target c (handle onPointerDown_local c st)) as [->| ->];
      rewrite handle_heap; auto.
  - rewrite handle_heap. auto.
Qed.

(** The pointer-down of an enabled button ends in the focus request of the
    call sequences of the manager. *)
Lemma onPointerDown_request c (st : World) :
  _enabled (heap st c) = true →
  onPointerDown c st = step (RequestFocus c) (handle onPointerDown_local c st).
Proof. intros Hen. unfold onPointerDown. by rewrite Hen. Qed.

Lemma onPointerDown_disabled c (st : World) :
  _enabled (heap st c) = false → onPointerDown c st = st.
Proof. intros Hdis. unfold onPointerDown. by rewrite Hdis. Qed.

(** Normalise the events emitted since a state with event list [ev]. *)
Ltac since_events :=
  cbn; rewrite <- ?app_assoc; rewrite ?drop_app_length; cbn.

(** An event that differs from every member of an explicit list. *)
Ltac not_among :=
  rewrite ?not_elem_of_cons; repeat split; try discriminate;
  apply not_elem_of_nil.

(** What disabling an enabled button does to its flags: the state becomes
    [disabled], hover and focus are cleared, the pressed flag is kept. *)
Lemma setEnabled_false_flags (b : UIButton) :
  _enabled b = true →
  let b' := setEnabled false b in
  _enabled b' = false ∧ state b' = disabled ∧ _isHovered b' = false
  ∧ _isFocused b' = false ∧ isPressed b' = isPressed b.
Proof.
  destruct b as [e f t m s h p i n ev cb]. cbn. intros ->.
  unfold setEnabled, InteractiveUIComponent_setEnabled. cbn.
  destruct f; cbn; destruct p, h; by cbn.
Qed.

(** C2 (the code differs): a hovered and pressed button that is disabled
    reaches the state [disabled] with the hovered flag cleared, but
    [onDisabled] leaves [isPressed] set, so enabling it again recomputes the
    state [pressed] instead of [idle]. *)
Theorem disable_keeps_pressed :
  _isHovered held_button = true ∧ isPressed held_button = true
  ∧ state (setEnabled false held_button) = disabled
  ∧ _isHovered (setEnabled false held_button) = false
  ∧ isPressed (setEnabled false held_button) = true
  ∧ state (setEnabled true (setEnabled false held_button)) = pressed.
Proof. by repeat split. Qed.

(** C5, as stated, fails: within the debounce window after a pointer-up
    ([ignoreLeave] set) the pointer-leave is ignored, so pointer-down,
    pointer-leave, pointer-up on an enabled button emits a click. *)
Lemma click_despite_leave :
  ¬ (∀ (st : World) c, _enabled (heap st c) = true →
       UIButtonClicked ∉ emitted_since st (drag_off_release c st) c).
Proof.
  intros Hno. apply (Hno just_clicked_button 0%nat); [reflexivity|].
  vm_compute. apply list_elem_of_In. simpl. tauto.
Qed.

(** C5 (amended): on an enabled button whose unhover debounce is not armed
    ([ignoreLeave] clear), pointer-down, pointer-leave, pointer-up emits no
    click; on an enabled hovered button, pointer-down, pointer-up emits
    exactly one click; and pointer-up on an enabled button always emits
    [UIButtonUp], followed by [UIButtonClicked] exactly when the button was
    pressed and is hovered at release. *)
Theorem click_requires_hover (st : World) (c : wid) :
  _enabled (heap st c) = true →
  (ignoreLeave (heap st c) = false →
     UIButtonClicked ∉ emitted_since st (drag_off_release c st) c)
  ∧ (_isHovered (heap st c) = true →
     occurrences UIButtonClicked (emitted_since st (press_release c st) c) = 1%nat)
  ∧ emitted (onClick (heap st c))
    = emitted (heap st c)
      ++ (UIButtonUp :: (if isPressed (heap st c) && _isHovered (heap st c)
                         then [UIButtonClicked] else [])).
Proof.
  intros Hen. pose proof (onPointerDown_heap c st Hen) as Hdown.
  unfold emitted_since, drag_off_release, press_release.
  rewrite !handle_heap.
  destruct (heap st c) as [e f t m s h p i n ev cb] eqn:Hb.
  cbn in Hen. subst e. split_and!.
  - cbn. intros ->. destruct Hdown as [-> | ->]; since_events; not_among.
  - cbn. intros ->. destruct Hdown as [-> | ->]; since_events; reflexivity.
  - unfold onClick. cbn. destruct p, h; cbn; by rewrite <- ?app_assoc.
Qed.

Lemma click_requires_hover_witness :
  _enabled (heap hovered_button 0%nat) = true
  ∧ (UIButtonClicked ∉ emitted_since hovered_button
                         (drag_off_release 0%nat hovered_button) 0%nat)
  ∧ (occurrences UIButtonClicked
       (emitted_since hovered_button (press_release 0%nat hovered_button) 0%nat)
     = 1%nat).
Proof.
  assert (_enabled (heap hovered_button 0%nat) = true) as Hen by reflexivity.
  destruct (click_requires_hover hovered_button 0%nat Hen) as (Hoff & Hon & _).
  split; [exact Hen|]. split; [apply Hoff|apply Hon]; reflexivity.
Defined.

End ButtonClaims.

(** ** Claims about the radio group *)
Module RadioGroupClaims.
Import RadioGroup.

(** C3 (the code differs): in a group that does not allow deselection,
    [select] unchecks the previous member through its [checked] setter,
    whose change event re-enters [handleCheckboxChanged] while
    [_selectedIndex] still names that member, so it is checked again.
    After three members were added and set to [true] in turn, all three are
    checked. Unchecking the selected member is undone, as claimed. *)
Theorem radio_group_keeps_previous_checked :
  let added := add_all 8 [0; 1; 2]%nat fresh_group in
  let all_set := added ≫= check_each 8 [0; 1; 2]%nat in
  let unset := all_set ≫= set_checked 8 2%nat false in
  member_values <$> added = Some [false; false; false]
  ∧ member_values <$> all_set = Some [true; true; true]
  ∧ checked_count <$> all_set = Some 3%nat
  ∧ _selectedIndex <$> all_set = Some 2
  ∧ member_values <$> unset = Some [true; true; true]
  ∧ _selectedIndex <$> unset = Some 2.
Proof. vm_compute. by repeat split. Qed.

End RadioGroupClaims.

(** ** Claims about the numeric input *)
Module NumericClaims.
Import JS Numeric Scenes.

#[local] Arguments formatNumber : simpl never.
#[local] Arguments clampValue : simpl never.

Section WithHost.
Context `{Host}.

Lemma formatNumber_config (n1 n2 : UINumeric) v :
  _config n1 = _config n2 → formatNumber n1 v = formatNumber n2 v.
Proof. intros Hc. unfold formatNumber. by rewrite Hc. Qed.

Lemma setValue_changed (n : UINumeric) v :
  strict_neq (_value n) (clampValue n v) = true →
  _value (setValue v n) = clampValue n v
  ∧ emitted (setValue v n)
    = emitted n ++ [UINumericValueChanged (clampValue n v)]
  ∧ _config (setValue v n) = _config n
  ∧ _isEditing (setValue v n) = false.
Proof. intros Hne. unfold setValue. by rewrite Hne. Qed.

Lemma setValue_unchanged (n : UINumeric) v :
  strict_neq (_value n) (clampValue n v) = false → setValue v n = n.
Proof. intros Hne. unfold setValue. by rewrite Hne. Qed.

Lemma emitted_since_app (n n' : UINumeric) l :
  emitted n' = emitted n ++ l → emitted_since n n' = l.
Proof. intros He. unfold emitted_since. rewrite He. apply drop_app_length. Qed.

End WithHost.

(** What [setValue] does in the terms of JavaScript's [!==], which tells
    [NaN] from itself and does not tell the two zeros apart: [setValue v]
    stores [max(min, min(max, v))] for the configured bounds, up to the two
    zeros, and emits exactly one [UINumericValueChanged], carrying that
    value, when it is [!==] to the value stored before, and nothing
    otherwise; [setMin] and [setMax] store the new bound and apply the same
    [setValue] to the current value. *)
Theorem setValue_clamps_and_emits `{Host} (n : UINumeric) (v bound : number) :
  let lowest := default neg_infinity (min (_config n)) in
  let highest := default infinity (max (_config n)) in
  let clamped := Math_max lowest (Math_min highest v) in
  same_number (_value (setValue v n)) clamped
  ∧ emitted_since n (setValue v n)
    = (if strict_neq (_value n) clamped
       then [UINumericValueChanged clamped] else [])
  ∧ count is_value_changed (emitted_since n (setValue v n))
    = (if strict_neq (_value n) clamped then 1 else 0)%nat
  ∧ setMin bound n
    = setValue (_value n) (with_config (with_min (Some bound) (_config n)) n)
  ∧ setMax bound n
    = setValue (_value n) (with_config (with_max (Some bound) (_config n)) n).
Proof.
  intros lowest highest clamped.
  change clamped with (clampValue n v).
  destruct (strict_neq (_value n) (clampValue n v)) eqn:Hne.
  - destruct (setValue_changed n v Hne) as (Hv & He & _).
    rewrite (emitted_since_app _ _ _ He), Hv.
    split_and!; try reflexivity. by left.
  - rewrite (setValue_unchanged n v Hne).
    split_and!; try reflexivity.
    + right. unfold strict_neq in Hne. by apply negb_false_iff in Hne.
    + unfold emitted_since. by rewrite drop_all.
    + unfold emitted_since. by rewrite drop_all.
Qed.

(** C10 (the code differs): an input whose value is [NaN], as after
    [setValue(NaN)] on a new input with value 50, is given [NaN] again. The
    clamped value is [NaN], the value stored afterwards is the value
    stored before, and yet one [UINumericValueChanged] is emitted:
    [setValue] compares with [!==], under which [NaN] differs from
    itself. *)
Theorem setValue_emits_without_change :
  let n := setValue PrimFloat.nan (create defaultNumericConfig (Some 50%float)) in
  _value n = PrimFloat.nan
  ∧ clampValue n PrimFloat.nan = PrimFloat.nan
  ∧ _value (setValue PrimFloat.nan n) = _value n
  ∧ emitted_since n (setValue PrimFloat.nan n)
    = [UINumericValueChanged PrimFloat.nan]
  ∧ count is_value_changed (emitted_since n (setValue PrimFloat.nan n)) = 1%nat.
Proof. cbv zeta. split_and!; by vm_compute. Qed.




End NumericClaims.

(** ** Claims about the tabbed panel *)
Module TabbedPanelClaims.
Import TabbedPanel Scenes.

Section MapFacts.
Context {V : Type}.
Implicit Types (m : Map V) (k : string) (v : V).

Lemma get_set_eq k v m : get k (set k v m) = Some v.
Proof.
  induction m as [|[k' v'] m IH]; cbn.
  - by rewrite decide_True.
  - case_decide as Hk; cbn.
    + by rewrite decide_True.
    + by rewrite decide_False.
Qed.

Lemma get_set_ne k k' v m : k ≠ k' → get k' (set k v m) = get k' m.
Proof.
  intros Hne. induction m as [|[k0 v0] m IH]; cbn.
  - by rewrite decide_False.
  - case_decide as Hk; cbn.
    + subst k0. by rewrite !decide_False.
    + by rewrite IH.
Qed.

Lemma set_set k v v' m : set k v (set k v' m) = set k v m.
Proof.
  induction m as [|[k0 v0] m IH]; cbn.
  - by rewrite decide_True.
  - case_decide as Hk; cbn.
    + by rewrite decide_True.
    + by rewrite decide_False, IH.
Qed.

Lemma set_get k v m : get k m = Some v → set k v m = m.
Proof.
  induction m as [|[k0 v0] m IH]; cbn; [done|].
  case_decide as Hk; [by intros [= ->]|]. intros Hg. by rewrite IH.
Qed.

Lemma fmap_set {U} (f : V → U) k v m :
  is_Some (get k m) →
  (λ kv, (kv.1, f kv.2)) <$> set k v m
  = set k (f v) ((λ kv, (kv.1, f kv.2)) <$> m).
Proof.
  induction m as [|[k0 v0] m IH]; cbn; [by intros [? [=]]|].
  case_decide as Hk; cbn; [done|]. intros Hs. by rewrite IH.
Qed.

Lemma get_fmap {U} (f : V → U) k m :
  get k ((λ kv, (kv.1, f kv.2)) <$> m) = f <$> get k m.
Proof.
  induction m as [|[k0 v0] m IH]; cbn; [done|]. by case_decide.
Qed.

End MapFacts.

(** C7, as stated, fails: [setActiveTab] does not compare the id with
    [activeTabId], so activating the active tab again emits another
    tab-changed event. *)
Lemma reactivation_emits :
  ¬ (∀ (p : UITabbedPanel) (tabId : string),
       activeTabId p = Some tabId ∨ get tabId (tabs p) = None →
       emitted (setActiveTab tabId p).2 = emitted p).
Proof.
  intros Hsame. specialize (Hsame panel_abc "a"%string (or_introl eq_refl)).
  vm_compute in Hsame. discriminate Hsame.
Qed.

(** C7 (amended): [setActiveTab] with an id that has no header or no pane
    returns [false] and changes nothing. With the id of the active tab it
    returns [true]; the active tab, every other header and pane, and, when
    the active pane is visible, the visibility of every pane stay as they
    were; the active header ends active and its pane visible; and one more
    tab-changed event is emitted. *)
Theorem setActiveTab_unknown_or_active (p : UITabbedPanel) (tabId : string) :
  (get tabId (tabs p) = None ∨ get tabId (tabContents p) = None →
   setActiveTab tabId p = (false, p))
  ∧ (∀ tab content,
       activeTabId p = Some tabId →
       get tabId (tabs p) = Some tab →
       get tabId (tabContents p) = Some content →
       let p' := (setActiveTab tabId p).2 in
       (setActiveTab tabId p).1 = true
       ∧ activeTabId p' = Some tabId
       ∧ (∀ other, other ≠ tabId →
            get other (tabs p') = get other (tabs p)
            ∧ get other (tabContents p') = get other (tabContents p))
       ∧ isTabActive <$> get tabId (tabs p') = Some true
       ∧ isVisible <$> get tabId (tabContents p') = Some true
       ∧ (isVisible content = true → pane_visibility p' = pane_visibility p)
       ∧ emitted p' = emitted p ++ [TabChanged tabId]).
Proof.
  split.
  - unfold setActiveTab. intros [-> | Hc]; [done|].
    rewrite Hc. by destruct (get tabId (tabs p)).
  - intros tab content Hact Htab Hcontent p'. subst p'.
    unfold setActiveTab. rewrite Htab, Hcontent, Hact. cbn [fst snd].
    assert (get tabId (pane_visibility p) = Some (isVisible content)) as Hvis.
    { unfold pane_visibility. by rewrite get_fmap, Hcontent. }
    destruct tabId as [|a tabId']; cbn [truthy_id].
    + unfold on_tab, on_content.
      repeat first [rewrite Htab | rewrite Hcontent | rewrite get_set_eq
                   | progress cbn].
      split_and!; try done.
      * intros other Hne. by rewrite !get_set_ne.
      * intros Hv. unfold pane_visibility. cbn.
        rewrite fmap_set by eauto. cbn. apply set_get.
        by rewrite get_fmap, Hcontent, <- Hv.
    + set (k := String a tabId') in *.
      unfold on_tab, on_content.
      repeat first [rewrite Htab | rewrite Hcontent | rewrite get_set_eq
                   | progress cbn].
      split_and!; try done.
      * intros other Hne. by rewrite !get_set_ne.
      * intros Hv. unfold pane_visibility. cbn. rewrite set_set.
        rewrite fmap_set by eauto. cbn. apply set_get.
        by rewrite get_fmap, Hcontent, <- Hv.
Qed.

Lemma setActiveTab_unknown_or_active_witness :
  setActiveTab "d" panel_abc = (false, panel_abc)
  ∧ activeTabId panel_abc = Some "a"%string
  ∧ emitted (setActiveTab "a" panel_abc).2
    = emitted panel_abc ++ [TabChanged "a"]
  ∧ pane_visibility (setActiveTab "a" panel_abc).2 = pane_visibility panel_abc.
Proof.
  destruct (setActiveTab_unknown_or_active panel_abc "d") as [Hunknown _].
  destruct (setActiveTab_unknown_or_active panel_abc "a") as [_ Hactive].
  assert (activeTabId panel_abc = Some "a"%string) as Hact by reflexivity.
  destruct (Hactive _ _ Hact eq_refl eq_refl) as (_ & _ & _ & _ & _ & Hvis & Hev).
  split_and!.
  - apply Hunknown. by left.
  - exact Hact.
  - exact Hev.
  - by apply Hvis.
Defined.

End TabbedPanelClaims.

(** * Further properties of the code *)

(** ** The focus manager: registry round trip and navigation *)
Module FocusExtras.
Import FocusManager FocusManagerFacts Scenes.

Section Registry.
Context {W : Type} `{FocusableLaws W}.

Implicit Types (st : World W) (c w : wid) (cs : list wid).

(** The tab-stop indices of a list of widgets. *)
Definition tab_stops st cs : list Z := (λ c, tabStopIndex (heap st c)) <$> cs.

Lemma tab_stops_step o st cs : tab_stops (step o st) cs = tab_stops st cs.
Proof.
  unfold tab_stops. apply list_fmap_ext. intros _ c _.
  apply step_preserved, stable_tabStopIndex.
Qed.

Lemma register_components_other cs st k :
  k ∉ tab_stops st cs →
  components (register cs st) !! k = components st !! k.
Proof.
  revert st. induction cs as [|c cs IH]; intros st Hk; [done|].
  change (register (c :: cs) st) with (register cs (step (Register c) st)).
  rewrite IH.
  - cbn. apply lookup_insert_ne. intros <-. apply Hk. left.
  - rewrite tab_stops_step. intros Hin. apply Hk. cbn. by right.
Qed.

Lemma unregister1_components c st :
  components (unregister1 c st) = delete (tabStopIndex (heap st c)) (components st).
Proof.
  unfold unregister1. case_decide; cbn; [|done].
  by rewrite blurFocused_preserved by apply stable_tabStopIndex.
Qed.

Lemma unregister1_current c st :
  currentTabIndex (unregister1 c st)
  = if decide (currentTabIndex st = tabStopIndex (heap st c)) then -1
    else currentTabIndex st.
Proof. unfold unregister1. by case_decide. Qed.

Lemma unregister_components cs st k :
  components (unregister cs st) !! k
  = if decide (k ∈ tab_stops st cs) then None else components st !! k.
Proof.
  revert st. induction cs as [|c cs IH]; intros st.
  - cbn. rewrite decide_False; [done|]. by intros ?%elem_of_nil.
  - change (unregister (c :: cs) st)
      with (unregister cs (step (Unregister c) st)).
    rewrite IH, tab_stops_step. cbn [step].
    rewrite unregister1_components.
    change (tab_stops st (c :: cs))
      with (tabStopIndex (heap st c) :: tab_stops st cs).
    destruct (decide (k ∈ tab_stops st cs)) as [Hin|Hin].
    + rewrite decide_True; [done|]. by right.
    + destruct (decide (k = tabStopIndex (heap st c))) as [->|Hne].
      * rewrite decide_True by left. apply lookup_delete_eq.
      * rewrite decide_False by (by intros [?|?]%elem_of_cons).
        by apply lookup_delete_ne.
Qed.

Lemma unregister_current cs st :
  currentTabIndex st ≠ -1 →
  currentTabIndex (unregister cs st)
  = if decide (currentTabIndex st ∈ tab_stops st cs) then -1
    else currentTabIndex st.
Proof.
  revert st. induction cs as [|c cs IH]; intros st Hcur.
  - cbn. rewrite decide_False; [done|]. by intros ?%elem_of_nil.
  - change (unregister (c :: cs) st)
      with (unregister cs (step (Unregister c) st)).
    change (tab_stops st (c :: cs))
      with (tabStopIndex (heap st c) :: tab_stops st cs).
    destruct (decide (currentTabIndex st = tabStopIndex (heap st c))) as [Heq|Hne].
    + rewrite decide_True by (rewrite Heq; left).
      assert (currentTabIndex (step (Unregister c) st) = -1) as Hm.
      { cbn [step]. rewrite unregister1_current. by rewrite decide_True. }
      clear IH Hcur Heq. revert Hm. generalize (step (Unregister c) st).
      induction cs as [|c' cs IH]; intros s Hs; [done|].
      change (unregister (c' :: cs) s)
        with (unregister cs (step (Unregister c') s)).
      apply IH. cbn [step]. rewrite unregister1_current. by case_decide.
    + assert (currentTabIndex (step (Unregister c) st) = currentTabIndex st) as Hs.
      { cbn [step]. rewrite unregister1_current. by rewrite decide_False. }
      rewrite IH by (by rewrite Hs). rewrite tab_stops_step, Hs.
      destruct (decide (currentTabIndex st ∈ tab_stops st cs)) as [Hin|Hin].
      * rewrite decide_True; [done|]. by right.
      * rewrite decide_False; [done|]. by intros [?|?]%elem_of_cons.
Qed.

Lemma register_current cs st :
  currentTabIndex (register cs st) = currentTabIndex st.
Proof.
  revert st. induction cs as [|c cs IH]; intros st; [done|].
  change (register (c :: cs) st) with (register cs (register1 c st)).
  by rewrite IH.
Qed.

Lemma register_tab_stops cs cs' st :
  tab_stops (register cs st) cs' = tab_stops st cs'.
Proof.
  unfold tab_stops. apply list_fmap_ext. intros _ c _.
  rewrite register_run. apply run_preserved, stable_tabStopIndex.
Qed.

End Registry.

(** X1: [unregister] after [register] of the same widgets removes exactly
    the entries stored under their tab-stop indices, whoever is stored
    there, and keeps every other entry; the current index becomes [-1] when
    it is one of these indices and is kept otherwise. *)
Theorem unregister_after_register {W : Type} `{FocusableLaws W}
    (st : World W) (cs : list wid) :
  let st' := unregister cs (register cs st) in
  (∀ k, components st' !! k
        = if decide (k ∈ tab_stops st cs) then None else components st !! k)
  ∧ currentTabIndex st'
    = (if decide (currentTabIndex st ∈ tab_stops st cs) then -1
       else currentTabIndex st).
Proof.
  intros st'. subst st'. split.
  - intros k. rewrite unregister_components, register_tab_stops.
    case_decide; [done|]. by apply register_components_other.
  - destruct (decide (currentTabIndex st = -1)) as [Hm|Hm].
    + rewrite Hm.
      assert (∀ s : World W, currentTabIndex s = -1 →
                currentTabIndex (unregister cs s) = -1) as Hstay.
      { induction cs as [|c cs' IH]; intros s Hs; [done|].
        change (unregister (c :: cs') s)
          with (unregister cs' (unregister1 c s)).
        apply IH. rewrite unregister1_current. by case_decide. }
      rewrite Hstay by (by rewrite register_current). by case_decide.
    + rewrite unregister_current by (by rewrite register_current).
      by rewrite register_tab_stops, register_current.
Qed.

Lemma unregister_after_register_witness :
  components (unregister [0; 1]%nat (register [0; 1]%nat (create two_components)))
    !! 5
  = None.
Proof.
  destruct (unregister_after_register (create two_components) [0; 1]%nat)
    as [Hcomponents _].
  rewrite Hcomponents. reflexivity.
Defined.

Section Navigation.
Context {W : Type} `{FocusableLaws W}.

Implicit Types (st : World W) (c w : wid).

Lemma setFocus_current_keyed st k next :
  keyed st → components st !! k = Some next →
  currentTabIndex (setFocus next st) = k.
Proof.
  intros Hk Hnx. destruct (decide (focused st = Some next)) as [Hf|Hf].
  - unfold setFocus. rewrite decide_True by done.
    rewrite <- (Hk _ _ Hf). by apply Hk.
  - rewrite setFocus_current by done. by apply Hk.
Qed.

Lemma sortedKeys_components st st' :
  components st' = components st → sortedKeys st' = sortedKeys st.
Proof. unfold sortedKeys. by intros ->. Qed.

(** One [moveFocus] from the index at position [p] of the sorted keys. *)
Lemma moveFocus_position (forward : bool) st (p : nat) :
  keyed st → currentTabIndex st ≠ -1 →
  sortedKeys st !! p = Some (currentTabIndex st) →
  let count := length (sortedKeys st) in
  let st' := moveFocus forward st in
  sortedKeys st !! (if forward then (p + 1) mod count
                    else (p + count - 1) mod count)%nat
    = Some (currentTabIndex st')
  ∧ components st' = components st ∧ keyed st'.
Proof.
  intros Hk Hcur Hp count st'. subst st'.
  destruct (moveFocus_cyclic forward st p Hcur Hp) as (k & next & Hq & Hnx & Hmv).
  fold count in Hq. split_and!.
  - rewrite Hq, Hmv. f_equal. symmetry. by apply setFocus_current_keyed.
  - rewrite Hmv. apply setFocus_components.
  - apply (keyed_step (MoveFocus forward)), Hk.
Qed.

Lemma there_and_back (p count : nat) :
  (p < count)%nat →
  (((p + 1) mod count + count - 1) mod count = p
   ∧ ((p + count - 1) mod count + 1) mod count = p)%nat.
Proof.
  intros Hp. split.
  - destruct (decide (p + 1 = count)%nat) as [Heq|Hne].
    + rewrite Heq, Nat.Div0.mod_same, Nat.mod_small by lia. lia.
    + rewrite (Nat.mod_small (p + 1)) by lia.
      replace (p + 1 + count - 1)%nat with (p + 1 * count)%nat by lia.
      rewrite Nat.Div0.mod_add. apply Nat.mod_small. lia.
  - destruct (decide (p = 0)%nat) as [->|Hne].
    + rewrite (Nat.mod_small (0 + count - 1)) by lia.
      replace (0 + count - 1 + 1)%nat with count by lia.
      apply Nat.Div0.mod_same.
    + replace (p + count - 1)%nat with (p - 1 + 1 * count)%nat by lia.
      rewrite Nat.Div0.mod_add, (Nat.mod_small (p - 1)) by lia.
      rewrite Nat.mod_small by lia. lia.
Qed.

End Navigation.

(** X2: when the current index is a key of the registry, every entry is
    stored under its widget's own tab stop and no widget is registered under
    [-1], a [moveFocus] followed by a [moveFocus] in the opposite direction
    comes back to the index it started from, and the registry is as
    before. *)
Theorem moveFocus_there_and_back {W : Type} `{FocusableLaws W}
    (st : World W) (forward : bool) :
  keyed st →
  components st !! (-1) = None →
  is_Some (components st !! currentTabIndex st) →
  let st' := moveFocus (negb forward) (moveFocus forward st) in
  currentTabIndex st' = currentTabIndex st ∧ components st' = components st.
Proof.
  intros Hk Hno Hcur st'. subst st'.
  assert (∀ s : World W, components s = components st →
            is_Some (components s !! currentTabIndex s) →
            currentTabIndex s ≠ -1) as Hne.
  { intros s Hs [x Hx] Heq. rewrite Heq, Hs, Hno in Hx. discriminate. }
  pose proof (proj2 (sortedKeys_elem st _) Hcur) as Hin.
  apply list_elem_of_lookup_1 in Hin as [p Hp].
  pose proof (lookup_lt_Some _ _ _ Hp) as Hlt.
  set (count := length (sortedKeys st)) in *.
  destruct (moveFocus_position forward st p Hk (Hne st eq_refl Hcur) Hp)
    as (Hq & Hcomp & Hk1).
  fold count in Hq. set (st1 := moveFocus forward st) in *.
  set (q := (if forward then (p + 1) mod count
             else (p + count - 1) mod count)%nat) in *.
  pose proof (sortedKeys_components st st1 Hcomp) as Hkeys.
  assert (is_Some (components st1 !! currentTabIndex st1)) as Hcur1.
  { rewrite Hcomp. apply sortedKeys_elem. by eapply list_elem_of_lookup_2. }
  destruct (moveFocus_position (negb forward) st1 q Hk1 (Hne st1 Hcomp Hcur1))
    as (Hback & Hcomp2 & _); [by rewrite Hkeys|].
  rewrite Hkeys in Hback. fold count in Hback.
  split; [|by rewrite Hcomp2].
  destruct (there_and_back p count Hlt) as [Hf Hb].
  assert (sortedKeys st !! p
          = Some (currentTabIndex (moveFocus (negb forward) st1))) as Hend.
  { rewrite <- Hback. subst q. destruct forward; cbn [negb]; f_equal; lia. }
  rewrite Hp in Hend. by injection Hend.
Qed.

Lemma moveFocus_there_and_back_witness :
  let st := moveFocus true tab_stops_0_2_5 in
  keyed st
  ∧ components st !! (-1) = None
  ∧ is_Some (components st !! currentTabIndex st)
  ∧ currentTabIndex (moveFocus false (moveFocus true st)) = currentTabIndex st.
Proof.
  intros st.
  assert (keyed st) as Hk.
  { apply (keyed_step (MoveFocus true)). unfold tab_stops_0_2_5.
    rewrite register_run. apply keyed_run, keyed_create. }
  assert (components st !! (-1) = None) as Hno by reflexivity.
  assert (is_Some (components st !! currentTabIndex st)) as Hc
    by (by exists 0%nat).
  split_and!; [done..|].
  exact (proj1 (moveFocus_there_and_back st true Hk Hno Hc)).
Defined.



End FocusExtras.

(** ** The button: invariants of its handlers *)
Module ButtonExtras.
Import FocusManager FocusManagerFacts Button Scenes.

Lemma play_app l1 l2 b : play (l1 ++ l2) b = play l2 (play l1 b).
Proof. apply foldl_app. Qed.

(** A property that the first state has and every handler keeps holds
    after every sequence of calls. *)
Lemma play_invariant (P : UIButton → Prop) :
  (∀ i b, P b → P (react i b)) → ∀ l b, P b → P (play l b).
Proof.
  intros Hstep l. induction l as [|i l IH]; intros b Hb; [done|].
  apply IH, Hstep, Hb.
Qed.

Lemma occurrences_snoc e l x :
  occurrences e (l ++ [x])
  = (occurrences e l + if decide (x = e) then 1 else 0)%nat.
Proof.
  unfold occurrences. rewrite filter_app, length_app. f_equal.
  rewrite filter_cons, filter_nil. by case_decide.
Qed.

(** All the cases of one handler call: the input, and the flags of the
    button. *)
Ltac handler_cases i b :=
  destruct b as [e f t m s h p ig n ev cb];
  destruct i as [[]|[]| | | | | | | | |[]];
  destruct e, f, h, p, ig, n.

Lemma react_state i b :
  state b = state_of_flags b → state (react i b) = state_of_flags (react i b).
Proof. handler_cases i b; by cbn. Qed.

Lemma react_callbacks i b :
  callbackCalls b = occurrences UIButtonClicked (emitted b) →
  callbackCalls (react i b) = occurrences UIButtonClicked (emitted (react i b)).
Proof.
  handler_cases i b; cbn -[occurrences]; intros ->;
    rewrite ?occurrences_snoc; repeat case_decide; try congruence; lia.
Qed.

Lemma react_debounce i b :
  (ignoreLeave b = true → leaveTimers b ≠ 0%nat) →
  ignoreLeave (react i b) = true → leaveTimers (react i b) ≠ 0%nat.
Proof. handler_cases i b; cbn; intros Hb; try done; by intros _. Qed.

Lemma react_disabled i b :
  (_enabled b = false → _isFocused b = false ∧ _isHovered b = false) →
  _enabled (react i b) = false →
  _isFocused (react i b) = false ∧ _isHovered (react i b) = false.
Proof. handler_cases i b; cbn; intros Hb; try done; by intros _. Qed.

(** X4: after every sequence of handler calls on a new button, the state
    shown is the one its flags give: [disabled] when it is not enabled,
    else [pressed] when it is pressed, else [hovered] when the pointer is
    over it, else [idle]. *)
Theorem state_follows_flags (inputs : list Input) (tab : Z) :
  state (play inputs (create tab))
  = state_of_flags (play inputs (create tab)).
Proof.
  apply (play_invariant (λ b, state b = state_of_flags b)); [|done].
  apply react_state.
Qed.

(** X5: after every sequence of handler calls on a new button, the click
    callback has run exactly as often as [UIButtonClicked] was emitted. *)
Theorem callback_once_per_click (inputs : list Input) (tab : Z) :
  callbackCalls (play inputs (create tab))
  = occurrences UIButtonClicked (emitted (play inputs (create tab))).
Proof.
  apply (play_invariant
           (λ b, callbackCalls b = occurrences UIButtonClicked (emitted b)));
    [|done].
  apply react_callbacks.
Qed.

(** X6: the pointer-leave debounce cannot stay armed: after every sequence
    of handler calls on a new button, once no timer of [onClick] is pending
    [ignoreLeave] is clear. *)
Theorem leave_debounce_ends (inputs : list Input) (tab : Z) :
  leaveTimers (play inputs (create tab)) = 0%nat →
  ignoreLeave (play inputs (create tab)) = false.
Proof.
  intros Hn.
  pose proof (play_invariant
                (λ b, ignoreLeave b = true → leaveTimers b ≠ 0%nat)
                react_debounce inputs (create tab)) as Hinv.
  cbv beta in Hinv.
  destruct (ignoreLeave (play inputs (create tab))) eqn:Hig; [|done].
  exfalso. by apply Hinv.
Qed.

Lemma leave_debounce_ends_witness :
  leaveTimers (play [PointerEnter; PointerDown; PointerUp; TimerFires] (create 0))
  = 0%nat
  ∧ ignoreLeave (play [PointerEnter; PointerDown; PointerUp; TimerFires] (create 0))
    = false.
Proof.
  split; [reflexivity|].
  apply (leave_debounce_ends [PointerEnter; PointerDown; PointerUp; TimerFires] 0).
  reflexivity.
Defined.

(** X7: after every sequence of handler calls on a new button, a button
    that is not enabled holds neither the focus nor the hover. *)
Theorem disabled_button_unfocused (inputs : list Input) (tab : Z) :
  _enabled (play inputs (create tab)) = false →
  _isFocused (play inputs (create tab)) = false
  ∧ _isHovered (play inputs (create tab)) = false.
Proof.
  apply (play_invariant
           (λ b, _enabled b = false →
                 _isFocused b = false ∧ _isHovered b = false)
           react_disabled inputs (create tab)).
  discriminate.
Qed.

Lemma disabled_button_unfocused_witness :
  _enabled (play [PointerEnter; Focus; SetEnabled false] (create 0)) = false
  ∧ _isFocused (play [PointerEnter; Focus; SetEnabled false] (create 0)) = false
  ∧ _isHovered (play [PointerEnter; Focus; SetEnabled false] (create 0)) = false.
Proof.
  split; [reflexivity|].
  apply (disabled_button_unfocused [PointerEnter; Focus; SetEnabled false] 0).
  reflexivity.
Defined.

(** X8: a button that is not enabled ignores the keyboard, the pointer and
    calls of [focus] and [loseFocus]: no sequence of key presses and
    releases, pointer-enters, pointer-leaves, pointer-downs, pointer-ups
    and calls of [focus] and [loseFocus] changes any of its fields, so
    it emits nothing and runs no callback. The sequences leave out
    [setManager], which [register] calls and which stores the manager also
    in a disabled button, [setEnabled] and a pending timer of [onClick]. *)
Theorem disabled_button_inert (inputs : list Input) (b : UIButton) :
  _enabled b = false →
  forallb from_user inputs = true →
  play inputs b = b.
Proof.
  intros Hdis. induction inputs as [|i l IH]; [done|].
  cbn [forallb]. intros [Hi Hl]%andb_true_iff.
  change (play (i :: l) b) with (play l (react i b)).
  assert (react i b = b) as ->; [|by apply IH].
  destruct b as [e f t m s h p ig n ev cb]. cbn in Hdis. subst e.
  by destruct i as [[]|[]| | | | | | | | |[]].
Qed.

Lemma disabled_button_inert_witness :
  _enabled (setEnabled false held_button) = false
  ∧ play [PointerUp; KeyDown Space; KeyUp Space; PointerLeave; Focus]
      (setEnabled false held_button)
    = setEnabled false held_button.
Proof.
  split; [reflexivity|].
  apply (disabled_button_inert
           [PointerUp; KeyDown Space; KeyUp Space; PointerLeave; Focus]
           (setEnabled false held_button)); reflexivity.
Defined.

(** X9: on an enabled, focused button a press of Space or Enter followed by
    a release of Space or Enter emits [UIButtonDown], [UIButtonUp] and
    [UIButtonClicked], in this order, and runs the callback once, whether
    or not the pointer is over the button; the button is not pressed
    afterwards. *)
Theorem key_press_release_clicks (b : UIButton) (down up : Keys) :
  _enabled b = true → _isFocused b = true →
  down ≠ OtherKey → up ≠ OtherKey →
  let b' := onKeyUp up (onKeyDown down b) in
  emitted b' = emitted b ++ [UIButtonDown; UIButtonUp; UIButtonClicked]
  ∧ callbackCalls b' = S (callbackCalls b)
  ∧ isPressed b' = false
  ∧ _isHovered b' = _isHovered b
  ∧ state b' = (if _isHovered b then hovered else idle).
Proof.
  destruct b as [e f t m s h p ig n ev cb]. cbn. intros -> -> Hdown Hup.
  destruct down, up; try done; destruct h, p; cbn;
    by rewrite <- !app_assoc.
Qed.

Lemma key_press_release_clicks_witness :
  _enabled (focus (create 0)) = true ∧ _isFocused (focus (create 0)) = true
  ∧ emitted (onKeyUp Space (onKeyDown Enter (focus (create 0))))
    = emitted (focus (create 0)) ++ [UIButtonDown; UIButtonUp; UIButtonClicked].
Proof.
  split; [reflexivity|]. split; [reflexivity|].
  apply (key_press_release_clicks (focus (create 0)) Enter Space);
    [reflexivity|reflexivity|discriminate|discriminate].
Defined.

(** X10: [setEnabled(false)] on the button the manager regards as current
    blurs the button but not the manager, whose [focused] getter keeps
    returning it. After [setEnabled(true)] the button is therefore enabled
    and unfocused, and neither [setFocus] on it nor a pointer-down on it
    gives it the focus back: [setFocus] returns at once. *)
Theorem reenabled_button_stays_unfocused (st : World) (c : wid) :
  focused st = Some c →
  _enabled (heap st c) = true →
  let st1 := handle (setEnabled true) c (handle (setEnabled false) c st) in
  _enabled (heap st1 c) = true
  ∧ _isFocused (heap st1 c) = false
  ∧ focused st1 = Some c
  ∧ setFocus c st1 = st1
  ∧ _isFocused (heap (onPointerDown c st1) c) = false.
Proof.
  intros Hf Hen st1.
  assert (heap st1 c = setEnabled true (setEnabled false (heap st c))) as Hc.
  { subst st1. unfold handle. cbn. by rewrite !send_eq. }
  assert (focused st1 = Some c) as Hf1 by done.
  assert (_enabled (heap st1 c) = true ∧ _isFocused (heap st1 c) = false)
    as [Hen1 Hfoc1].
  { rewrite Hc. destruct (heap st c) as [e f t m s h p ig n ev cb].
    cbn in Hen. subst e. by destruct f, h, p. }
  assert (∀ s : World, focused s = Some c → setFocus c s = s) as Hset.
  { intros s Hs. unfold setFocus. by rewrite decide_True. }
  split_and!; [done..|by apply Hset|].
  unfold onPointerDown, requestFocus. rewrite Hen1. cbn [negb].
  assert (heap (handle onPointerDown_local c st1) c
          = onPointerDown_local (heap st1 c)) as Hloc by apply send_eq.
  assert (_isFocused (onPointerDown_local (heap st1 c)) = false) as Hpd.
  { destruct (heap st1 c) as [e f t m s h p ig n ev cb].
    cbn in Hen1, Hfoc1. by subst. }
  destruct (hasManager _).
  - rewrite Hset by done. by rewrite Hloc.
  - by rewrite Hloc.
Qed.

Lemma reenabled_button_stays_unfocused_witness :
  focused focused_button = Some 0%nat
  ∧ _enabled (heap focused_button 0%nat) = true
  ∧ _isFocused (heap focused_button 0%nat) = true
  ∧ _isFocused
      (heap (setFocus 0%nat
               (handle (setEnabled true) 0%nat
                  (handle (setEnabled false) 0%nat focused_button))) 0%nat)
    = false.
Proof.
  assert (focused focused_button = Some 0%nat) as Hf by reflexivity.
  assert (_enabled (heap focused_button 0%nat) = true) as Hen by reflexivity.
  split_and!; [done..|].
  destruct (reenabled_button_stays_unfocused focused_button 0%nat Hf Hen)
    as (_ & Hfoc & _ & -> & _).
  exact Hfoc.
Defined.

End ButtonExtras.

(** ** The switch: what one activation emits *)
Module SwitchExtras.
Import Switch Scenes.

(** X11: one activation of an enabled switch, by a pointer-up or, when it
    is focused, by Space or Enter, flips [checked] and emits
    [UISwitchChanged] twice with the new value: once from the [checked]
    setter and once from [toggle] itself. Two activations restore
    [checked]. *)
Theorem activation_emits_changed_twice (s : UISwitch) (key : Keys) :
  _enabled s = true →
  key ≠ OtherKey →
  let flipped := negb (_checked s) in
  _checked (onClick s) = flipped
  ∧ emitted (onClick s)
    = emitted s ++ [UISwitchUp; UISwitchChanged flipped; UISwitchChanged flipped]
  ∧ (_isFocused s = true →
     _checked (onKeyDown key s) = flipped
     ∧ emitted (onKeyDown key s)
       = emitted s ++ [UISwitchChanged flipped; UISwitchChanged flipped])
  ∧ _checked (onClick (onClick s)) = _checked s.
Proof.
  destruct s as [e f t m c h ev]. cbn. intros -> Hkey.
  split_and!.
  - by destruct c.
  - destruct c; cbn; by rewrite <- !app_assoc.
  - intros ->. destruct key; [| |done]; destruct c; cbn;
      by rewrite <- ?app_assoc.
  - by destruct c.
Qed.

Lemma activation_emits_changed_twice_witness :
  _enabled (create false None) = true
  ∧ emitted (onClick (create false None))
    = [UISwitchUp; UISwitchChanged true; UISwitchChanged true].
Proof.
  split; [reflexivity|].
  apply (activation_emits_changed_twice (create false None) Space);
    [reflexivity|discriminate].
Defined.

End SwitchExtras.

(** ** JavaScript arrays *)
Module ArrayFacts.

Section Arrays.
Context {A : Type} `{EqDecision A}.

Implicit Types (l : list A) (x : A).

Lemma indexOf_position l (p : nat) x :
  NoDup l → l !! p = Some x → indexOf x l = Z.of_nat p.
Proof.
  intros Hnd. revert p. induction Hnd as [|a l Hnotin Hnd IH];
    intros [|p] Hp; simplify_eq/=.
  - by rewrite decide_True.
  - rewrite decide_False.
    + rewrite (IH p Hp). destruct (Z.ltb_spec (Z.of_nat p) 0); lia.
    + intros ->. apply Hnotin. by eapply list_elem_of_lookup_2.
Qed.

Lemma indexOf_absent l x : x ∉ l → indexOf x l = -1.
Proof.
  induction l as [|a l IH]; [done|]. intros Hx. cbn.
  rewrite decide_False by (intros ->; apply Hx; left).
  rewrite IH by (intros Hin; apply Hx; by right). done.
Qed.

Lemma at_index_of_nat l (i : nat) : at_index l (Z.of_nat i) = l !! i.
Proof.
  unfold at_index. destruct (Z.ltb_spec (Z.of_nat i) 0); [lia|].
  by rewrite Nat2Z.id.
Qed.

Lemma in_range_lookup l (i : nat) x :
  l !! i = Some x → in_range l (Z.of_nat i) = true.
Proof.
  intros Hi%lookup_lt_Some. unfold in_range.
  apply andb_true_iff. split; [apply Z.leb_le|apply Z.ltb_lt]; lia.
Qed.

Lemma in_range_position l (z : Z) :
  in_range l z = true → ∃ (i : nat) x, z = Z.of_nat i ∧ l !! i = Some x.
Proof.
  unfold in_range. intros [Hlo%Z.leb_le Hhi%Z.ltb_lt]%andb_true_iff.
  destruct (lookup_lt_is_Some_2 l (Z.to_nat z)) as [x Hx]; [lia|].
  exists (Z.to_nat z), x. split; [lia|done].
Qed.

Lemma in_range_minus_one l : in_range l (-1) = false.
Proof. done. Qed.

End Arrays.

End ArrayFacts.

(** ** The radio group when deselection is allowed *)
Module RadioGroupExtras.
Import RadioGroup ArrayFacts Scenes.

(** The group after the [checked] setter of [c] stored [v] and before the
    listeners of the event it emits run. *)
Definition mark (c : wid) (v : bool) (g : World) : World :=
  with_box c (λ b, mkBox (_enabled b) v (subscriptions b)
                     (emitted b ++ [UICheckboxChanged v])) g.

Lemma mark_boxes_eq c v g :
  boxes (mark c v g) c
  = mkBox (_enabled (boxes g c)) v (subscriptions (boxes g c))
          (emitted (boxes g c) ++ [UICheckboxChanged v]).
Proof. apply fn_lookup_insert. Qed.

Lemma mark_boxes_ne c w v g : c ≠ w → boxes (mark c v g) w = boxes g w.
Proof. apply fn_lookup_insert_ne. Qed.

(** *** The equations of the four re-entrant functions *)

Lemma set_checked_S f c v g :
  set_checked (S f) c v g
  = if Bool.eqb v (_checked (boxes g c)) then Some g
    else each_listener (subscriptions (boxes (mark c v g) c))
           (handleCheckboxChanged f c v) (mark c v g).
Proof. reflexivity. Qed.

Lemma handleCheckboxChanged_S f c checked g :
  handleCheckboxChanged (S f) c checked g
  = let index := indexOf c (checkboxes g) in
    if index =? -1 then Some g
    else if checked then select f index g
    else if allowDeselect g && (index =? _selectedIndex g)
         then deselect f g
         else set_checked f c true g.
Proof. reflexivity. Qed.

Lemma select_S f index g :
  select (S f) index g
  = if negb (in_range (checkboxes g) index) then Some g
    else if _selectedIndex g =? index then Some g
    else
      g1 ← (if in_range (checkboxes g) (_selectedIndex g)
            then c ← at_index (checkboxes g) (_selectedIndex g);
                 set_checked f c false g
            else Some g);
      c ← at_index (checkboxes (with_selectedIndex index g1)) index;
      g3 ← set_checked f c true (with_selectedIndex index g1);
      Some (emitGroup (changed (_selectedIndex g3) (_selectedIndex g)) g3).
Proof. reflexivity. Qed.

Lemma deselect_S f g :
  deselect (S f) g
  = if negb (allowDeselect g) then Some g
    else if _selectedIndex g =? -1 then Some g
    else
      g1 ← (if in_range (checkboxes g) (_selectedIndex g)
            then c ← at_index (checkboxes g) (_selectedIndex g);
                 set_checked f c false g
            else Some g);
      Some (emitGroup (changed (-1) (_selectedIndex g))
              (with_selectedIndex (-1) g1)).
Proof. reflexivity. Qed.

Lemma each_listener_one k g : each_listener 1 k g = k g.
Proof. reflexivity. Qed.

Lemma each_listener_idle n k g :
  k g = Some g → each_listener n k g = Some g.
Proof.
  intros Hk. unfold each_listener.
  induction n as [|n IH]; [done|]. cbn. by rewrite Hk.
Qed.

(** *** The setter and the handlers on a member *)

Lemma set_checked_same f c v g :
  _checked (boxes g c) = v → set_checked (S f) c v g = Some g.
Proof. intros <-. rewrite set_checked_S. by rewrite eqb_reflx. Qed.

Lemma set_checked_change f c v g :
  _checked (boxes g c) = negb v → subscriptions (boxes g c) = 1%nat →
  set_checked (S f) c v g = handleCheckboxChanged f c v (mark c v g).
Proof.
  intros Hc Hs. rewrite set_checked_S, Hc.
  rewrite mark_boxes_eq. cbn [subscriptions]. rewrite Hs, each_listener_one.
  by destruct v.
Qed.

Lemma handle_nonmember f c v g :
  c ∉ checkboxes g → handleCheckboxChanged (S f) c v g = Some g.
Proof.
  intros Hc. rewrite handleCheckboxChanged_S. cbv zeta.
  by rewrite indexOf_absent.
Qed.

Lemma handle_member_checked f c (i : nat) g :
  NoDup (checkboxes g) → checkboxes g !! i = Some c →
  handleCheckboxChanged (S f) c true g = select f (Z.of_nat i) g.
Proof.
  intros Hnd Hi. rewrite handleCheckboxChanged_S. cbv zeta.
  rewrite (indexOf_position _ i) by done.
  destruct (Z.eqb_spec (Z.of_nat i) (-1)); [lia|done].
Qed.

Lemma handle_selected_unchecked f c (i : nat) g :
  NoDup (checkboxes g) → checkboxes g !! i = Some c →
  allowDeselect g = true → _selectedIndex g = Z.of_nat i →
  handleCheckboxChanged (S f) c false g = deselect f g.
Proof.
  intros Hnd Hi Hallow Hsel. rewrite handleCheckboxChanged_S. cbv zeta.
  rewrite (indexOf_position _ i) by done.
  destruct (Z.eqb_spec (Z.of_nat i) (-1)); [lia|].
  by rewrite Hallow, Hsel, Z.eqb_refl.
Qed.

Lemma deselect_current f p (j : nat) g :
  allowDeselect g = true → _selectedIndex g = Z.of_nat j →
  checkboxes g !! j = Some p → _checked (boxes g p) = false →
  deselect (S (S f)) g
  = Some (emitGroup (changed (-1) (Z.of_nat j)) (with_selectedIndex (-1) g)).
Proof.
  intros Hallow Hsel Hj Hp. rewrite deselect_S, Hallow, Hsel. cbn [negb].
  destruct (Z.eqb_spec (Z.of_nat j) (-1)); [lia|].
  rewrite (in_range_lookup _ _ _ Hj), at_index_of_nat, Hj.
  cbn -[set_checked]. by rewrite set_checked_same.
Qed.

(** The [checked] setter on the selected member, with [false]. *)
Lemma uncheck_selected f p (j : nat) g :
  NoDup (checkboxes g) → allowDeselect g = true →
  checkboxes g !! j = Some p → _selectedIndex g = Z.of_nat j →
  _checked (boxes g p) = true → subscriptions (boxes g p) = 1%nat →
  set_checked (S (S (S (S f)))) p false g
  = Some (emitGroup (changed (-1) (Z.of_nat j))
            (with_selectedIndex (-1) (mark p false g))).
Proof.
  intros Hnd Hallow Hj Hsel Hc Hs.
  rewrite set_checked_change by done.
  rewrite (handle_selected_unchecked _ _ j) by done.
  apply (deselect_current _ p); [done..|].
  by rewrite mark_boxes_eq.
Qed.

(** *** Consistent groups *)

Lemma count_single (l : list bool) (n : nat) (sel : Z) :
  (∀ (j : nat) b, l !! j = Some b →
     b = bool_decide (Z.of_nat (n + j) = sel)) →
  length (filter (λ b, b = true) l)
  = if bool_decide (Z.of_nat n ≤ sel < Z.of_nat (n + length l))
    then 1%nat else 0%nat.
Proof.
  revert n. induction l as [|b l IH]; intros n Hl.
  - cbn. rewrite bool_decide_false; [done|lia].
  - rewrite filter_cons, (Hl 0%nat b eq_refl).
    assert (∀ (j : nat) b', l !! j = Some b' →
              b' = bool_decide (Z.of_nat (S n + j) = sel)) as Hl'.
    { intros j b' Hj. rewrite (Hl (S j) b' Hj). apply bool_decide_ext. lia. }
    specialize (IH (S n) Hl'). cbn [length].
    destruct (decide (Z.of_nat (n + 0) = sel)) as [Hb|Hb].
    + rewrite (bool_decide_true _ Hb), decide_True by done.
      cbn [length]. rewrite IH.
      rewrite bool_decide_false by lia. rewrite bool_decide_true by lia. done.
    + rewrite (bool_decide_false _ Hb), decide_False by done.
      rewrite IH. repeat case_bool_decide; lia.
Qed.

(** In a consistent group one member is checked, or none when
    [_selectedIndex] is [-1]. *)
Lemma consistent_checked_count g :
  consistent g →
  checked_count g = if decide (_selectedIndex g = -1) then 0%nat else 1%nat.
Proof.
  intros (Hnd & Hsel & Hmem). unfold checked_count, member_values.
  rewrite (count_single _ 0 (_selectedIndex g)).
  - rewrite length_fmap. destruct Hsel as [->|Hin].
    + by rewrite bool_decide_false by lia.
    + unfold in_range in Hin.
      apply andb_true_iff in Hin as [Hlo%Z.leb_le Hhi%Z.ltb_lt].
      rewrite bool_decide_true by lia. rewrite decide_False by lia. done.
  - intros j b. rewrite list_lookup_fmap.
    destruct (checkboxes g !! j) as [w|] eqn:Hj; [|done].
    intros [= <-]. by destruct (Hmem j w Hj) as [_ ->].
Qed.

(** [consistent], except that the member at [i], which is not the selected
    one, is checked as well: the state in which [select] is reached. *)
Definition selecting (i : nat) (g : World) : Prop :=
  NoDup (checkboxes g)
  ∧ (_selectedIndex g = -1 ∨ in_range (checkboxes g) (_selectedIndex g) = true)
  ∧ Z.of_nat i ≠ _selectedIndex g
  ∧ ∀ (j : nat) (w : wid), checkboxes g !! j = Some w →
      subscriptions (boxes g w) = 1%nat
      ∧ _checked (boxes g w)
        = bool_decide (Z.of_nat j = _selectedIndex g ∨ j = i).

Lemma select_switches f (i : nat) c g :
  allowDeselect g = true → selecting i g → checkboxes g !! i = Some c →
  ∃ g', select (S (S (S (S (S f))))) (Z.of_nat i) g = Some g'
    ∧ consistent g'
    ∧ checkboxes g' = checkboxes g
    ∧ allowDeselect g' = true
    ∧ _selectedIndex g' = Z.of_nat i
    ∧ (∀ w, w ∉ checkboxes g → boxes g' w = boxes g w).
Proof.
  intros Hallow (Hnd & Hsel & Hne & Hmem) Hi.
  rewrite select_S, (in_range_lookup _ _ _ Hi). cbn [negb].
  destruct (Z.eqb_spec (_selectedIndex g) (Z.of_nat i)) as [Heq|_];
    [congruence|].
  destruct (Hmem i c Hi) as [Hsc Hcc].
  rewrite bool_decide_true in Hcc by (by right).
  destruct Hsel as [Hsel|Hin].
  - rewrite Hsel, in_range_minus_one. cbn -[set_checked].
    rewrite at_index_of_nat, Hi. cbn -[set_checked].
    rewrite set_checked_same by done. cbn.
    eexists. split; [done|]. split_and!; cbn; try done.
    split_and!; cbn; [done|right; by eapply in_range_lookup|].
    intros j w Hj. destruct (Hmem j w Hj) as [Hs Hc]. split; [done|].
    rewrite Hc. apply bool_decide_ext. lia.
  - destruct (in_range_position _ _ Hin) as (j & p & Hj & Hp).
    rewrite Hin, Hj, at_index_of_nat, Hp. cbn -[set_checked].
    destruct (Hmem j p Hp) as [Hsp Hcp].
    rewrite bool_decide_true in Hcp by (by left).
    rewrite (uncheck_selected _ p j) by done. cbn -[set_checked].
    rewrite at_index_of_nat, Hi. cbn -[set_checked].
    assert (p ≠ c) as Hpc.
    { intros ->. apply Hne. rewrite Hj. f_equal.
      by eapply NoDup_lookup. }
    rewrite set_checked_same
      by (cbn; by rewrite fn_lookup_insert_ne).
    cbn. eexists. split; [done|]. split_and!; cbn; try done.
    + split_and!; cbn; [done|right; by eapply in_range_lookup|].
      intros j' w Hj'. destruct (Hmem j' w Hj') as [Hs Hc].
      destruct (decide (p = w)) as [<-|Hpw].
      * rewrite fn_lookup_insert. cbn. split; [done|].
        assert (j' = j) as -> by (by eapply NoDup_lookup).
        symmetry. apply bool_decide_eq_false. lia.
      * rewrite fn_lookup_insert_ne by done. split; [done|].
        rewrite Hc. apply bool_decide_ext.
        assert (j' ≠ j) by (intros ->; congruence). lia.
    + intros w Hw. apply fn_lookup_insert_ne. intros ->.
      apply Hw. by eapply list_elem_of_lookup_2.
Qed.

(** X12: in a consistent group that allows deselection, the [checked]
    setter of a member, given enough fuel for the nested event handlers,
    returns and leaves the group consistent: storing [true] selects that
    member and unchecks the one selected before, storing [false] in the
    selected member leaves nothing selected, and every other call changes
    nothing. Afterwards one member is checked, or none when
    [selectedIndex] is [-1]; the array, and the checkboxes outside it, are
    as before. *)
Theorem deselectable_group_stays_consistent
    (g : World) (c : wid) (value : bool) (fuel : nat) :
  consistent g → allowDeselect g = true → c ∈ checkboxes g →
  (7 ≤ fuel)%nat →
  ∃ g',
    set_checked fuel c value g = Some g'
    ∧ consistent g'
    ∧ checkboxes g' = checkboxes g
    ∧ allowDeselect g' = true
    ∧ _selectedIndex g'
      = (if value then indexOf c (checkboxes g)
         else if decide (indexOf c (checkboxes g) = _selectedIndex g) then -1
              else _selectedIndex g)
    ∧ checked_count g'
      = (if decide (_selectedIndex g' = -1) then 0%nat else 1%nat)
    ∧ (∀ w, w ∉ checkboxes g → boxes g' w = boxes g w).
Proof.
  intros Hcons Hallow Hc Hfuel.
  assert (∃ g', set_checked fuel c value g = Some g'
            ∧ consistent g' ∧ checkboxes g' = checkboxes g
            ∧ allowDeselect g' = true
            ∧ _selectedIndex g'
              = (if value then indexOf c (checkboxes g)
                 else if decide (indexOf c (checkboxes g) = _selectedIndex g)
                      then -1 else _selectedIndex g)
            ∧ (∀ w, w ∉ checkboxes g → boxes g' w = boxes g w))
    as (g' & Hrun & Hcons' & Hcb & Hallow' & Hsel' & Hout).
  2:{ exists g'. split_and!; try done. by apply consistent_checked_count. }
  destruct fuel as [|[|[|[|[|[|[|f]]]]]]]; try lia. clear Hfuel.
  pose proof Hcons as (Hnd & Hsel & Hmem).
  apply list_elem_of_lookup_1 in Hc as [i Hi].
  destruct (Hmem i c Hi) as [Hsc Hcc].
  rewrite (indexOf_position _ i) by done.
  destruct (decide (_checked (boxes g c) = value)) as [Hsame|Hdiff].
  - exists g. rewrite set_checked_same by done.
    split_and!; try done.
    rewrite Hcc in Hsame. destruct value.
    + by apply bool_decide_eq_true in Hsame.
    + apply bool_decide_eq_false in Hsame. by rewrite decide_False.
  - assert (_checked (boxes g c) = negb value) as Hneg
      by (destruct value, (_checked (boxes g c)); done).
    rewrite set_checked_change by done.
    destruct value; cbn [negb] in Hneg.
    + rewrite (handle_member_checked _ _ i) by done.
      rewrite Hneg in Hcc. symmetry in Hcc. apply bool_decide_eq_false in Hcc.
      destruct (select_switches f i c (mark c true g))
        as (g' & Hrun & Hcons' & Hcb & Hallow' & Hsel' & Hout); try done.
      { split_and!; cbn; try done.
        intros j w Hj. destruct (Hmem j w Hj) as [Hs Hw].
        destruct (decide (c = w)) as [<-|Hcw].
        - rewrite fn_lookup_insert. cbn. split; [done|].
          assert (j = i) as -> by (by eapply NoDup_lookup).
          symmetry. apply bool_decide_eq_true. by right.
        - rewrite fn_lookup_insert_ne by done. split; [done|].
          rewrite Hw. apply bool_decide_ext.
          assert (j ≠ i) by (intros ->; congruence). tauto. }
      exists g'. split_and!; try done.
      intros w Hw. rewrite Hout by done. apply fn_lookup_insert_ne.
      intros ->. apply Hw. by eapply list_elem_of_lookup_2.
    + rewrite Hneg in Hcc. symmetry in Hcc. apply bool_decide_eq_true in Hcc.
      rewrite (handle_selected_unchecked _ _ i) by done.
      rewrite (deselect_current _ c i); try done;
        [|by rewrite mark_boxes_eq].
      eexists. split; [done|]. split_and!; cbn; try done.
      * split_and!; cbn; [done|by left|].
        intros j w Hj. destruct (Hmem j w Hj) as [Hs Hw].
        destruct (decide (c = w)) as [<-|Hcw].
        -- rewrite fn_lookup_insert. cbn. split; [done|].
           symmetry. apply bool_decide_eq_false. lia.
        -- rewrite fn_lookup_insert_ne by done. split; [done|].
           rewrite Hw.
           assert (j ≠ i) by (intros ->; congruence).
           rewrite !bool_decide_false by lia. done.
      * by rewrite decide_True.
      * intros w Hw. apply fn_lookup_insert_ne. intros ->.
        apply Hw. by eapply list_elem_of_lookup_2.
Qed.

Lemma deselectable_group_stays_consistent_witness :
  consistent deselectable_trio
  ∧ allowDeselect deselectable_trio = true
  ∧ 1%nat ∈ checkboxes deselectable_trio
  ∧ ∃ g', set_checked 7 1%nat true deselectable_trio = Some g'
          ∧ _selectedIndex g' = 1 ∧ checked_count g' = 1%nat.
Proof.
  assert (consistent deselectable_trio) as Hcons.
  { split_and!.
    - apply (bool_decide_unpack _). by vm_compute.
    - by left.
    - intros [|[|[|i]]] c Hi; vm_compute in Hi; simplify_eq; done. }
  assert (allowDeselect deselectable_trio = true) as Hallow by reflexivity.
  assert (1%nat ∈ checkboxes deselectable_trio) as Hin.
  { apply (bool_decide_unpack _). by vm_compute. }
  assert (7 ≤ 7)%nat as Hfuel by lia.
  split_and!; [done..|].
  destruct (deselectable_group_stays_consistent deselectable_trio 1%nat true 7
              Hcons Hallow Hin Hfuel)
    as (g' & Hrun & _ & _ & _ & Hsel & Hcount & _).
  exists g'. split; [exact Hrun|]. split; [exact Hsel|].
  rewrite Hcount, Hsel. reflexivity.
Defined.

(** X13: a checkbox that is not in the array does not reach the group:
    whatever listeners of the group it still carries, its [checked] setter
    stores the value and leaves the array, [selectedIndex], the events of
    the group and every other checkbox as they were. *)
Theorem outsider_leaves_group_alone
    (g : World) (c : wid) (value : bool) (fuel : nat) :
  c ∉ checkboxes g → (2 ≤ fuel)%nat →
  ∃ g',
    set_checked fuel c value g = Some g'
    ∧ _checked (boxes g' c) = value
    ∧ checkboxes g' = checkboxes g
    ∧ _selectedIndex g' = _selectedIndex g
    ∧ groupEmitted g' = groupEmitted g
    ∧ (∀ w, w ≠ c → boxes g' w = boxes g w).
Proof.
  intros Hc Hfuel. destruct fuel as [|[|f]]; try lia.
  rewrite set_checked_S.
  destruct (Bool.eqb value (_checked (boxes g c))) eqn:Heq.
  - exists g. apply eqb_prop in Heq. by split_and!.
  - exists (mark c value g). split_and!; try done.
    + apply each_listener_idle. by apply handle_nonmember.
    + by rewrite mark_boxes_eq.
    + intros w Hw. by apply mark_boxes_ne.
Qed.

Lemma outsider_leaves_group_alone_witness :
  (5%nat ∉ checkboxes deselectable_trio)
  ∧ ∃ g', set_checked 2 5%nat true deselectable_trio = Some g'
          ∧ _selectedIndex g' = _selectedIndex deselectable_trio.
Proof.
  assert (5%nat ∉ checkboxes deselectable_trio) as Hout.
  { apply (bool_decide_unpack _). by vm_compute. }
  assert (2 ≤ 2)%nat as Hfuel by lia.
  split; [exact Hout|].
  destruct (outsider_leaves_group_alone deselectable_trio 5%nat true 2
              Hout Hfuel) as (g' & Hrun & _ & _ & Hsel & _).
  exists g'. by split.
Defined.

Lemma lookup_delete_shift {A} (l : list A) (i j : nat) :
  delete i l !! j = l !! (if decide (j < i)%nat then j else S j).
Proof.
  case_decide.
  - by apply list_lookup_delete_lt.
  - apply list_lookup_delete_ge. lia.
Qed.

(** [remove] of the member at position [i]. *)
Lemma remove_member (g : World) (c : wid) (i : nat) :
  NoDup (checkboxes g) → checkboxes g !! i = Some c →
  remove c g
  = with_selectedIndex
      (if _selectedIndex g =? Z.of_nat i then -1
       else if _selectedIndex g >? Z.of_nat i then _selectedIndex g - 1
            else _selectedIndex g)
      (with_checkboxes (delete i (checkboxes g)) g).
Proof.
  intros Hnd Hi. unfold remove. rewrite (indexOf_position _ i) by done.
  cbv zeta. destruct (Z.eqb_spec (Z.of_nat i) (-1)); [lia|].
  rewrite Nat2Z.id. cbn [_selectedIndex with_checkboxes].
  destruct (_selectedIndex g =? Z.of_nat i); [done|].
  by destruct (_selectedIndex g >? Z.of_nat i).
Qed.

(** X14: [remove] keeps a consistent group consistent and the selection on
    the same checkbox: [selectedIndex] follows it to its new position, and
    becomes [-1] when the removed checkbox was the selected one. The
    removed checkbox is no longer in the array; it keeps its checked flag
    and the listener of the group, and no event is emitted. *)
Theorem remove_keeps_selection (g : World) (c : wid) :
  consistent g → c ∈ checkboxes g →
  let g' := remove c g in
  consistent g'
  ∧ (at_index (checkboxes g') (_selectedIndex g')
     = if decide (at_index (checkboxes g) (_selectedIndex g) = Some c)
       then None else at_index (checkboxes g) (_selectedIndex g))
  ∧ (∀ w, w ∈ checkboxes g' ↔ w ∈ checkboxes g ∧ w ≠ c)
  ∧ boxes g' = boxes g
  ∧ groupEmitted g' = groupEmitted g.
Proof.
  intros (Hnd & Hsel & Hmem) Hc g'. subst g'.
  apply list_elem_of_lookup_1 in Hc as [i Hi].
  pose proof (lookup_lt_Some _ _ _ Hi) as Hlt.
  rewrite (remove_member g c i) by done.
  set (sel' := if _selectedIndex g =? Z.of_nat i then -1
               else if _selectedIndex g >? Z.of_nat i then _selectedIndex g - 1
                    else _selectedIndex g).
  cbn [checkboxes _selectedIndex boxes groupEmitted with_selectedIndex
       with_checkboxes].
  assert (length (delete i (checkboxes g)) = (length (checkboxes g) - 1)%nat)
    as Hlen by (apply length_delete; eauto).
  assert (∀ w, w ∈ delete i (checkboxes g) ↔ w ∈ checkboxes g ∧ w ≠ c) as Hin.
  { intros w. rewrite !list_elem_of_lookup. split.
    - intros [j Hj]. rewrite lookup_delete_shift in Hj.
      split; [eauto|]. intros ->.
      pose proof (NoDup_lookup _ _ _ _ Hnd Hi Hj). case_decide; lia.
    - intros [[j Hj] Hne].
      assert (j ≠ i) by (intros ->; congruence).
      destruct (decide (j < i)%nat).
      + exists j. rewrite lookup_delete_shift. by rewrite decide_True.
      + exists (j - 1)%nat. rewrite lookup_delete_shift.
        rewrite decide_False by lia. by replace (S (j - 1)) with j by lia. }
  assert (NoDup (delete i (checkboxes g))) as Hnd'.
  { apply NoDup_alt. intros j1 j2 w. rewrite !lookup_delete_shift.
    intros H1 H2. pose proof (NoDup_lookup _ _ _ _ Hnd H1 H2).
    repeat case_decide; lia. }
  assert (∀ (j : nat) w, delete i (checkboxes g) !! j = Some w →
            subscriptions (boxes g w) = 1%nat
            ∧ _checked (boxes g w)
              = bool_decide (Z.of_nat (if decide (j < i)%nat then j else S j)
                             = _selectedIndex g)) as Hmem'.
  { intros j w Hj. rewrite lookup_delete_shift in Hj. by apply Hmem. }
  assert (sel' = -1 ∧ (_selectedIndex g = -1 ∨ _selectedIndex g = Z.of_nat i)
          ∨ ∃ (j : nat) p, checkboxes g !! j = Some p ∧ j ≠ i
              ∧ _selectedIndex g = Z.of_nat j
              ∧ sel' = Z.of_nat (if decide (j < i)%nat then j else j - 1)%nat)
    as [[Hs' Hs]|(j & p & Hp & Hji & Hs & Hs')].
  { subst sel'. destruct Hsel as [->|Hr].
    - left. destruct (Z.eqb_spec (-1) (Z.of_nat i)); [lia|].
      destruct (Z.gtb_spec (-1) (Z.of_nat i)); [lia|]. auto.
    - apply in_range_position in Hr as (j & p & -> & Hp).
      destruct (Z.eqb_spec (Z.of_nat j) (Z.of_nat i)); [left; auto|].
      right. exists j, p. split_and!; [done|lia|done|].
      destruct (Z.gtb_spec (Z.of_nat j) (Z.of_nat i)); case_decide; lia. }
  - (* nothing is selected afterwards *)
    rewrite Hs'. split_and!; try done.
    + split_and!; cbn; [done|by left|].
      intros j w Hj. destruct (Hmem' j w Hj) as [Hsub Hch]. split; [done|].
      rewrite Hch. rewrite !bool_decide_false; [done|lia|].
      case_decide; destruct Hs; lia.
    + destruct Hs as [->| ->].
      * by rewrite decide_False.
      * rewrite at_index_of_nat, Hi. by rewrite decide_True.
  - (* the selected checkbox [p] is still a member *)
    pose proof (lookup_lt_Some _ _ _ Hp) as Hjlt.
    assert (delete i (checkboxes g) !! (if decide (j < i)%nat then j else j - 1)%nat
            = Some p) as Hp'.
    { rewrite lookup_delete_shift. rewrite <- Hp. f_equal.
      repeat case_decide; lia. }
    rewrite Hs', Hs. split_and!; try done.
    + split_and!; cbn; [done|right; by eapply in_range_lookup|].
      intros j' w Hj. destruct (Hmem' j' w Hj) as [Hsub Hch]. split; [done|].
      rewrite Hch, Hs. apply bool_decide_ext. repeat case_decide; lia.
    + rewrite !at_index_of_nat, Hp', Hp. rewrite decide_False; [done|].
      intros [= ->]. pose proof (NoDup_lookup _ _ _ _ Hnd Hi Hp). lia.
Qed.

Lemma remove_keeps_selection_witness :
  consistent second_selected
  ∧ 0%nat ∈ checkboxes second_selected
  ∧ _selectedIndex second_selected = 1
  ∧ _selectedIndex (remove 0%nat second_selected) = 0
  ∧ at_index (checkboxes (remove 0%nat second_selected))
             (_selectedIndex (remove 0%nat second_selected))
    = Some 1%nat.
Proof.
  assert (consistent second_selected) as Hcons.
  { split_and!.
    - apply (bool_decide_unpack _). by vm_compute.
    - by right.
    - intros [|[|[|i]]] c Hi; vm_compute in Hi; simplify_eq; done. }
  assert (0%nat ∈ checkboxes second_selected) as Hin.
  { apply (bool_decide_unpack _). by vm_compute. }
  split_and!; [done..|].
  destruct (remove_keeps_selection second_selected 0%nat Hcons Hin)
    as (_ & -> & _).
  reflexivity.
Defined.

(** X15: [add] of a checkbox that is not yet a member and carries no
    listener of the group keeps a consistent group that allows deselection
    consistent: the checkbox is appended, and it takes the selection over
    when it is checked; an unchecked one leaves the selection alone. *)
Theorem add_keeps_consistent (g : World) (c : wid) (fuel : nat) :
  consistent g → allowDeselect g = true →
  c ∉ checkboxes g → subscriptions (boxes g c) = 0%nat →
  (6 ≤ fuel)%nat →
  ∃ g',
    add fuel c g = Some g'
    ∧ consistent g'
    ∧ checkboxes g' = checkboxes g ++ [c]
    ∧ _selectedIndex g'
      = (if _checked (boxes g c) then Z.of_nat (length (checkboxes g))
         else _selectedIndex g).
Proof.
  intros (Hnd & Hsel & Hmem) Hallow Hc Hsub Hfuel.
  destruct fuel as [|[|[|[|[|[|f]]]]]]; try lia. clear Hfuel.
  unfold add. rewrite (indexOf_absent _ _ Hc).
  change (negb (-1 =? -1)) with false. cbv iota zeta.
  set (g2 := with_box c _ (with_checkboxes (checkboxes g ++ [c]) g)).
  assert (checkboxes g2 = checkboxes g ++ [c]) as Hcb by done.
  assert (_selectedIndex g2 = _selectedIndex g) as Hs2 by done.
  assert (∀ w, w ≠ c → boxes g2 w = boxes g w) as Hother.
  { intros w Hw. subst g2. cbn. by rewrite fn_lookup_insert_ne. }
  assert (subscriptions (boxes g2 c) = 1%nat
          ∧ _checked (boxes g2 c) = _checked (boxes g c)) as [Hsc Hcc].
  { subst g2. cbn. rewrite fn_lookup_insert. cbn. by rewrite Hsub. }
  set (n := length (checkboxes g)).
  assert (checkboxes g2 !! n = Some c) as Hn.
  { rewrite Hcb. apply list_lookup_middle. done. }
  assert (Z.of_nat n ≠ _selectedIndex g) as Hne.
  { destruct Hsel as [->|Hr]; [lia|].
    unfold in_range in Hr. apply andb_true_iff in Hr as [_ Hr%Z.ltb_lt].
    fold n in Hr. lia. }
  assert (NoDup (checkboxes g2)) as Hnd2.
  { rewrite Hcb. apply NoDup_app. split_and!; [done| |apply NoDup_singleton].
    intros w Hw ->%list_elem_of_singleton. done. }
  assert (_selectedIndex g2 = -1
          ∨ in_range (checkboxes g2) (_selectedIndex g2) = true) as Hsel2.
  { rewrite Hs2. destruct Hsel as [?|Hr]; [by left|right].
    unfold in_range in *. rewrite Hcb, length_app.
    apply andb_true_iff in Hr as [Hlo%Z.leb_le Hhi%Z.ltb_lt].
    apply andb_true_iff. split; [apply Z.leb_le|apply Z.ltb_lt]; lia. }
  assert (∀ (j : nat) w, checkboxes g2 !! j = Some w →
            j = n ∧ w = c ∨ j ≠ n ∧ w ≠ c ∧ checkboxes g !! j = Some w)
    as Hsplit.
  { intros j w Hj. rewrite Hcb in Hj.
    apply lookup_app_Some in Hj as [Hj|[Hge Hj]].
    - right. pose proof (lookup_lt_Some _ _ _ Hj). fold n in H.
      split_and!; [lia| |done]. intros ->. apply Hc.
      by eapply list_elem_of_lookup_2.
    - left. fold n in Hge, Hj.
      destruct (j - n)%nat as [|k] eqn:Hk; [|done].
      cbn in Hj. split; [lia|congruence]. }
  replace (Z.of_nat (length (checkboxes g2)) - 1) with (Z.of_nat n)
    by (rewrite Hcb, length_app; cbn; lia).
  rewrite Hs2. destruct (Z.eqb_spec (Z.of_nat n) (_selectedIndex g)); [done|].
  rewrite Hcc. destruct (_checked (boxes g c)) eqn:Hchecked.
  - destruct (select_switches (S f) n c g2)
      as (g' & Hrun & Hcons' & Hcb' & _ & Hsel' & _); try done.
    { split_and!; [done|done|by rewrite Hs2|].
      intros j w Hj. rewrite Hs2.
      destruct (Hsplit j w Hj) as [[-> ->]|(Hjn & Hwc & Hj')].
      - split; [done|]. rewrite Hcc. symmetry.
        apply bool_decide_eq_true. by right.
      - rewrite Hother by done. destruct (Hmem j w Hj') as [? ->].
        split; [done|]. apply bool_decide_ext. tauto. }
    exists g'. split_and!; [done|done|congruence|done].
  - rewrite set_checked_same by congruence.
    exists g2. split_and!; try done.
    split_and!; [done..|].
    intros j w Hj. rewrite Hs2.
    destruct (Hsplit j w Hj) as [[-> ->]|(Hjn & Hwc & Hj')].
    + split; [done|]. rewrite Hcc. symmetry.
      by apply bool_decide_eq_false.
    + rewrite Hother by done. by apply Hmem.
Qed.

Lemma add_keeps_consistent_witness :
  consistent second_selected
  ∧ allowDeselect second_selected = true
  ∧ (7%nat ∉ checkboxes second_selected)
  ∧ subscriptions (boxes second_selected 7%nat) = 0%nat
  ∧ ∃ g', add 6 7%nat second_selected = Some g'
          ∧ _selectedIndex g' = 1.
Proof.
  assert (consistent second_selected) as Hcons.
  { split_and!.
    - apply (bool_decide_unpack _). by vm_compute.
    - by right.
    - intros [|[|[|i]]] c Hi; vm_compute in Hi; simplify_eq; done. }
  assert (allowDeselect second_selected = true) as Hallow by reflexivity.
  assert (7%nat ∉ checkboxes second_selected) as Hout.
  { apply (bool_decide_unpack _). by vm_compute. }
  assert (subscriptions (boxes second_selected 7%nat) = 0%nat) as Hsub
    by reflexivity.
  assert (6 ≤ 6)%nat as Hfuel by lia.
  split_and!; [done..|].
  destruct (add_keeps_consistent second_selected 7%nat 6
              Hcons Hallow Hout Hsub Hfuel) as (g' & Hrun & _ & _ & Hsel).
  exists g'. split; [exact Hrun|]. exact Hsel.
Defined.

End RadioGroupExtras.

(** ** Strings and call sequences *)
Module StringFacts.
Import JS.

(** A property that the first state has and every call keeps holds after
    every sequence of calls. *)
Lemma foldl_invariant {A B : Type} (f : A → B → A) (P : A → Prop) :
  (∀ a b, P a → P (f a b)) → ∀ l a, P a → P (foldl f a l).
Proof.
  intros Hstep l. induction l as [|b l IH]; intros a Ha; [done|].
  apply IH, Hstep, Ha.
Qed.

Lemma chars_length s : length (list_ascii_of_string s) = String.length s.
Proof. induction s as [|a s IH]; [done|]. cbn. by rewrite IH. Qed.

Lemma chars_append s1 s2 :
  list_ascii_of_string (String.append s1 s2) = list_ascii_of_string s1 ++ list_ascii_of_string s2.
Proof. induction s1 as [|a s1 IH]; [done|]. simpl. by rewrite IH. Qed.

Lemma chars_inj s1 s2 : list_ascii_of_string s1 = list_ascii_of_string s2 → s1 = s2.
Proof.
  intros Heq. rewrite <- (string_of_list_ascii_of_string s1),
    <- (string_of_list_ascii_of_string s2). by rewrite Heq.
Qed.

Lemma chars_substring n m s :
  list_ascii_of_string (String.substring n m s) = take m (drop n (list_ascii_of_string s)).
Proof.
  revert n m. induction s as [|a s IH]; intros [|n] [|m]; cbn;
    rewrite ?IH; done.
Qed.

(** [s.substring(0, c)] and [s.substring(c)], for every [c]. *)
Lemma chars_prefix (c : Z) s :
  list_ascii_of_string (substring 0 (Some c) s)
  = take (Z.to_nat c) (list_ascii_of_string s).
Proof.
  unfold substring. rewrite chars_substring. cbv [default id].
  set (len := Z.of_nat (String.length s)).
  assert (length (list_ascii_of_string s) = Z.to_nat len) as Hlen
    by (rewrite chars_length; lia).
  match goal with
  | |- take ?k (drop ?j _) = _ =>
      replace j with 0%nat by lia;
      destruct (decide (c ≤ len));
        [replace k with (Z.to_nat c) by lia|
         replace k with (Z.to_nat len) by lia]
  end.
  - by rewrite drop_0.
  - rewrite drop_0, !take_ge; [done|lia..].
Qed.

Lemma chars_suffix (c : Z) s :
  list_ascii_of_string (substring c None s)
  = drop (Z.to_nat c) (list_ascii_of_string s).
Proof.
  unfold substring. rewrite chars_substring. cbv [default id].
  set (len := Z.of_nat (String.length s)).
  assert (length (list_ascii_of_string s) = Z.to_nat len) as Hlen
    by (rewrite chars_length; lia).
  rewrite take_ge by (rewrite length_drop; lia).
  match goal with
  | |- drop ?j _ = _ =>
      destruct (decide (c ≤ len));
        [replace j with (Z.to_nat c) by lia|
         replace j with (Z.to_nat len) by lia]
  end.
  - done.
  - rewrite !drop_ge; [done|lia..].
Qed.

Lemma length_prefix (c : Z) s :
  0 ≤ c ≤ Z.of_nat (String.length s) →
  Z.of_nat (String.length (substring 0 (Some c) s)) = c.
Proof.
  intros Hc. rewrite <- chars_length, chars_prefix, length_take, chars_length.
  lia.
Qed.

Lemma length_suffix (c : Z) s :
  0 ≤ c ≤ Z.of_nat (String.length s) →
  Z.of_nat (String.length (substring c None s))
  = Z.of_nat (String.length s) - c.
Proof.
  intros Hc. rewrite <- chars_length, chars_suffix, length_drop, chars_length.
  lia.
Qed.

Lemma length_append s1 s2 :
  String.length (String.append s1 s2)
  = (String.length s1 + String.length s2)%nat.
Proof. by rewrite <- !chars_length, chars_append, length_app. Qed.

(** The string with [char] put in at position [c], cut at [c] and at
    [c + 1]. *)
Lemma insert_then_cut (c : Z) (char s : string) :
  0 ≤ c ≤ Z.of_nat (String.length s) → String.length char = 1%nat →
  let s' := String.append (substring 0 (Some c) s)
              (String.append char (substring c None s)) in
  substring 0 (Some c) s' = substring 0 (Some c) s
  ∧ substring (c + 1) None s' = substring c None s
  ∧ String.append (substring 0 (Some c) s) (substring c None s) = s.
Proof.
  intros Hc Hchar s'. subst s'.
  assert (length (list_ascii_of_string s) = String.length s) as Hlen by apply chars_length.
  assert (length (list_ascii_of_string char) = 1%nat) as Hone
    by (by rewrite chars_length).
  split_and!; apply chars_inj;
    rewrite ?chars_prefix, ?chars_suffix, ?chars_append,
      ?chars_prefix, ?chars_suffix.
  - rewrite take_app_le by (rewrite length_take; lia).
    rewrite take_take. f_equal. lia.
  - rewrite drop_app_ge by (rewrite length_take; lia).
    rewrite length_take.
    rewrite drop_app_ge by lia. rewrite Hone.
    replace (Z.to_nat (c + 1) - Z.to_nat c `min` length (list_ascii_of_string s) - 1)%nat
      with 0%nat by lia.
    by rewrite drop_0.
  - apply take_drop.
Qed.

End StringFacts.

(** ** The text input *)
Module TextInputExtras.
Import JS TextInput StringFacts Scenes.

#[local] Arguments substring : simpl never.

#[global] Instance TextInput_focusable_laws : FocusableLaws UITextInput.
Proof.
  split; intros [e f t m s v c cv ct l ev]; cbn;
    unfold focus, loseFocus; cbn; try reflexivity; by destruct e, f.
Qed.

(** The cursor is a position of the text. *)
Definition within (n : UITextInput) : Prop :=
  0 ≤ _cursorPosition n ≤ text_length n.

Lemma isPrintableKey_length char :
  isPrintableKey char = true → String.length char = 1%nat.
Proof. by destruct char as [|a [|b char]]. Qed.

(** What the three editing functions do to the length of the text and to
    the cursor. *)
Lemma insertCharacter_effect char n :
  within n → String.length char = 1%nat →
  insertCharacter char n = n
  ∨ text_length (insertCharacter char n) = text_length n + 1
    ∧ _cursorPosition (insertCharacter char n) = _cursorPosition n + 1
    ∧ match limit_in_force n with
      | Some m => text_length n < m
      | None => True
      end.
Proof.
  intros Hn Hchar. unfold insertCharacter.
  destruct (match limit_in_force n with
            | Some m => m <=? text_length n
            | None => false
            end) eqn:Hfull; [by left|right].
  unfold text_length in *. cbn.
  rewrite !length_append, !Nat2Z.inj_add, length_prefix, length_suffix, Hchar
    by done.
  split_and!; [lia|done|].
  destruct (limit_in_force n); [|done]. by apply Z.leb_gt in Hfull.
Qed.

Lemma handleBackspace_effect n :
  within n →
  handleBackspace n = n
  ∨ text_length (handleBackspace n) = text_length n - 1
    ∧ _cursorPosition (handleBackspace n) = _cursorPosition n - 1
    ∧ 0 < _cursorPosition n.
Proof.
  intros Hn. unfold handleBackspace.
  destruct (Z.ltb_spec 0 (_cursorPosition n)); [right|by left].
  unfold within, text_length in *. cbn.
  rewrite length_append, Nat2Z.inj_add, length_prefix, length_suffix by lia.
  lia.
Qed.

Lemma handleDelete_effect n :
  within n →
  handleDelete n = n
  ∨ text_length (handleDelete n) = text_length n - 1
    ∧ _cursorPosition (handleDelete n) = _cursorPosition n
    ∧ _cursorPosition n < text_length n.
Proof.
  intros Hn. unfold handleDelete.
  destruct (Z.ltb_spec (_cursorPosition n) (text_length n)); [right|by left].
  unfold within, text_length in *. cbn.
  rewrite length_append, Nat2Z.inj_add, length_prefix, length_suffix by lia.
  lia.
Qed.

Lemma setValue_effect value n :
  setValue value n = n
  ∨ _cursorPosition (setValue value n)
    = Z.min (_cursorPosition n) (text_length (setValue value n))
    ∧ _value (setValue value n)
      = match limit_in_force n with
        | Some m => substring 0 (Some m) value
        | None => value
        end.
Proof. unfold setValue. case_decide; [by left|by right]. Qed.

Lemma loseFocus_text n :
  _value (loseFocus n) = _value n
  ∧ _cursorPosition (loseFocus n) = _cursorPosition n
  ∧ maxLength (loseFocus n) = maxLength n.
Proof. unfold loseFocus. by destruct (_enabled n), (_isFocused n). Qed.

Lemma focus_text n :
  _value (focus n) = _value n
  ∧ _cursorPosition (focus n) = _cursorPosition n
  ∧ maxLength (focus n) = maxLength n.
Proof. unfold focus. by destruct (_enabled n), (_isFocused n). Qed.

Lemma setEnabled_text v n :
  _value (setEnabled v n) = _value n
  ∧ _cursorPosition (setEnabled v n) = _cursorPosition n
  ∧ maxLength (setEnabled v n) = maxLength n.
Proof.
  destruct n as [e f t m s x c cv ct l ev].
  unfold setEnabled, UIComponent_setEnabled, onDisabled, loseFocus.
  by destruct v, e, f.
Qed.

Lemma onPreUpdate_text delta n :
  _value (onPreUpdate delta n) = _value n
  ∧ _cursorPosition (onPreUpdate delta n) = _cursorPosition n
  ∧ maxLength (onPreUpdate delta n) = maxLength n.
Proof.
  unfold onPreUpdate. destruct (_isFocused n); [|done].
  by destruct (PrimFloat.leb _ _).
Qed.

(** The text and the cursor after a key press. *)
Lemma onKeyDown_cases evt n :
  within n →
  (_value (onKeyDown evt n) = _value n
   ∧ 0 ≤ _cursorPosition (onKeyDown evt n) ≤ text_length n)
  ∨ (text_length (onKeyDown evt n) = text_length n + 1
     ∧ _cursorPosition (onKeyDown evt n) = _cursorPosition n + 1
     ∧ match limit_in_force n with
       | Some m => text_length n < m
       | None => True
       end)
  ∨ (text_length (onKeyDown evt n) = text_length n - 1
     ∧ _cursorPosition n - 1 ≤ _cursorPosition (onKeyDown evt n)
       ≤ _cursorPosition n
     ∧ 0 ≤ _cursorPosition (onKeyDown evt n) < text_length n).
Proof.
  intros Hn. pose proof Hn as Hw. unfold within in Hw.
  unfold onKeyDown.
  destruct (_enabled n); cbn [negb]; [|by left].
  destruct (_isFocused n); cbn [negb]; [|by left].
  destruct evt as [[] char]; cbn [key TextInput.value].
  - destruct (handleBackspace_effect n Hn) as [->|(Hl & Hc & Hpos)];
      [by left|right; right]. lia.
  - destruct (handleDelete_effect n Hn) as [->|(Hl & Hc & Hpos)];
      [by left|right; right]. lia.
  - left. unfold moveCursorLeft.
    destruct (Z.ltb_spec 0 (_cursorPosition n)); cbn; [split; [done|lia]|done].
  - left. unfold moveCursorRight.
    destruct (Z.ltb_spec (_cursorPosition n) (text_length n)); cbn;
      [split; [done|lia]|done].
  - left. cbn. split; [done|lia].
  - left. cbn. split; [done|lia].
  - by left.
  - left. destruct (loseFocus_text n) as (-> & -> & _). done.
  - destruct (isPrintableKey char) eqn:Hp; [|by left].
    destruct (insertCharacter_effect char n Hn (isPrintableKey_length _ Hp))
      as [->|?]; [by left|right; by left].
Qed.

Lemma perform_within c n : within n → within (perform c n).
Proof.
  intros Hn. pose proof Hn as Hw. unfold within in Hw.
  destruct c as [evt| |v|p| | | |v|delta]; cbn [perform]; unfold within.
  - destruct (onKeyDown_cases evt n Hn) as [[Hv Hc]|[(Hl & Hc & _)|(Hl & Hc & ?)]].
    + unfold text_length. rewrite Hv. done.
    + lia.
    + lia.
  - unfold onPointerDown_local. destruct (_enabled n); cbn [negb]; [|done].
    unfold text_length. by destruct (focus_text n) as (-> & -> & _).
  - destruct (setValue_effect v n) as [->|[-> _]]; [done|].
    unfold text_length. lia.
  - unfold setCursorPosition, text_length. cbn. lia.
  - unfold text_length. by destruct (focus_text n) as (-> & -> & _).
  - unfold text_length. by destruct (loseFocus_text n) as (-> & -> & _).
  - done.
  - unfold text_length. by destruct (setEnabled_text v n) as (-> & -> & _).
  - unfold text_length. by destruct (onPreUpdate_text delta n) as (-> & -> & _).
Qed.

(** X16: after every sequence of key presses, pointer-downs and calls of
    [setValue], of [setCursorPosition] with a whole number, and of [focus],
    [loseFocus], [setEnabled] and [onPreUpdate] on a new text input, the
    cursor is a position of the text: it lies between 0 and the length of
    the text. A position that is a fraction or [NaN], which
    [setCursorPosition] stores as it is when it lies inside the text, is
    outside this statement. *)
Theorem cursor_stays_in_text (calls : list Call)
    (initial : option string) (limit tab : option Z) :
  let n := perform_all calls (create initial limit tab) in
  0 ≤ _cursorPosition n ≤ text_length n.
Proof.
  apply (foldl_invariant (λ s c, perform c s) within).
  - intros n c. apply perform_within.
  - unfold within, text_length. cbn. lia.
Qed.

(** Take every test of a handler both ways. *)
Ltac both_ways :=
  repeat match goal with
         | |- context [if ?b then _ else _] => destruct b eqn:?
         | |- context [match ?x with _ => _ end] => destruct x eqn:?
         end.

Lemma perform_maxLength c n : maxLength (perform c n) = maxLength n.
Proof.
  destruct c as [[k char]| |v|p| | | |v|delta]; cbn [perform].
  - unfold onKeyDown, handleBackspace, handleDelete, moveCursorLeft,
      moveCursorRight, insertCharacter, loseFocus.
    cbn [key TextInput.value]. both_ways; done.
  - unfold onPointerDown_local. destruct (_enabled n); cbn [negb]; [|done].
    by destruct (focus_text n) as (_ & _ & ->).
  - unfold setValue. by case_decide.
  - done.
  - by destruct (focus_text n) as (_ & _ & ->).
  - by destruct (loseFocus_text n) as (_ & _ & ->).
  - done.
  - by destruct (setEnabled_text v n) as (_ & _ & ->).
  - by destruct (onPreUpdate_text delta n) as (_ & _ & ->).
Qed.

Lemma limit_in_force_Some n m :
  maxLength n = Some m → m ≠ 0 → limit_in_force n = Some m.
Proof.
  intros Hm Hne. unfold limit_in_force. rewrite Hm.
  by destruct (Z.eqb_spec m 0).
Qed.

Lemma perform_limit (m : Z) c n :
  0 < m → maxLength n = Some m → within n →
  text_length n ≤ m → text_length (perform c n) ≤ m.
Proof.
  intros Hm Hmax Hn Hlen.
  assert (limit_in_force n = Some m) as Hlim
    by (apply limit_in_force_Some; [done|lia]).
  destruct c as [evt| |v|p| | | |v|delta]; cbn [perform].
  - destruct (onKeyDown_cases evt n Hn) as [[Hv Hc]|[(Hl & Hc & Hroom)|(Hl & _)]].
    + unfold text_length. by rewrite Hv.
    + rewrite Hlim in Hroom. lia.
    + lia.
  - unfold onPointerDown_local. destruct (_enabled n); cbn [negb]; [|done].
    unfold text_length. by destruct (focus_text n) as (-> & _).
  - destruct (setValue_effect v n) as [->|[_ Hv]]; [done|].
    unfold text_length. rewrite Hv, Hlim.
    rewrite <- chars_length, chars_prefix, length_take. lia.
  - done.
  - unfold text_length. by destruct (focus_text n) as (-> & _).
  - unfold text_length. by destruct (loseFocus_text n) as (-> & _).
  - done.
  - unfold text_length. by destruct (setEnabled_text v n) as (-> & _).
  - unfold text_length. by destruct (onPreUpdate_text delta n) as (-> & _).
Qed.



(** X18: a [maxLength] of 0 is no limit: the tests of [maxLength] are
    tests for truth, so a printable key still puts a character in and
    [setValue] stores its argument uncut. *)
Theorem zero_max_length_is_no_limit (n : UITextInput) (char text : string) :
  maxLength n = Some 0 →
  _enabled n = true → _isFocused n = true →
  isPrintableKey char = true →
  0 ≤ _cursorPosition n ≤ text_length n →
  text_length (onKeyDown (keyEvent OtherKey char) n) = text_length n + 1
  ∧ _value (setValue text n) = text.
Proof.
  intros Hmax Hen Hfoc Hp Hn.
  assert (limit_in_force n = None) as Hlim
    by (unfold limit_in_force; by rewrite Hmax).
  split.
  - unfold onKeyDown. rewrite Hen, Hfoc. cbn [negb key TextInput.value].
    rewrite Hp.
    destruct (insertCharacter_effect char n Hn (isPrintableKey_length _ Hp))
      as [Hsame|[Hl _]]; [|done].
    unfold insertCharacter in Hsame. rewrite Hlim in Hsame.
    apply (f_equal emitted) in Hsame. cbn in Hsame.
    apply (f_equal length) in Hsame. rewrite length_app in Hsame.
    cbn in Hsame. lia.
  - unfold setValue. rewrite Hlim. by case_decide.
Qed.

Lemma zero_max_length_is_no_limit_witness :
  maxLength (focus (create None (Some 0) None)) = Some 0
  ∧ text_length
      (onKeyDown (keyEvent OtherKey "a") (focus (create None (Some 0) None)))
    = 1
  ∧ _value (setValue "abc" (focus (create None (Some 0) None))) = "abc"%string.
Proof.
  split; [reflexivity|].
  apply (zero_max_length_is_no_limit (focus (create None (Some 0) None))
           "a" "abc"); try reflexivity.
  split; by vm_compute.
Defined.

(** X19: on an enabled, focused text input with room for one more
    character, a printable key followed by Backspace restores the text and
    the cursor; the two key presses emit two [UITextInputValueChanged], the
    first with the longer text and the second with the text as it was. *)
Theorem insert_backspace_round_trip (n : UITextInput) (char : string) :
  _enabled n = true → _isFocused n = true →
  0 ≤ _cursorPosition n ≤ text_length n →
  isPrintableKey char = true →
  match limit_in_force n with
  | Some m => text_length n < m
  | None => True
  end →
  let n1 := onKeyDown (keyEvent OtherKey char) n in
  let n2 := onKeyDown (keyEvent Backspace EmptyString) n1 in
  text_length n1 = text_length n + 1
  ∧ _value n2 = _value n
  ∧ _cursorPosition n2 = _cursorPosition n
  ∧ emitted n2
    = emitted n ++ [UITextInputValueChanged (_value n1);
                    UITextInputValueChanged (_value n)].
Proof.
  intros Hen Hfoc Hn Hp Hroom n1 n2.
  pose proof (isPrintableKey_length _ Hp) as Hchar.
  assert (match limit_in_force n with
          | Some m => m <=? text_length n
          | None => false
          end = false) as Hfull.
  { destruct (limit_in_force n); [|done]. by apply Z.leb_gt. }
  destruct (insert_then_cut (_cursorPosition n) char (_value n) Hn Hchar)
    as (Hpre & Hsuf & Hwhole).
  assert (n1 = insertCharacter char n) as Hn1.
  { subst n1. unfold onKeyDown. rewrite Hen, Hfoc.
    cbn [negb key TextInput.value]. by rewrite Hp. }
  unfold insertCharacter in Hn1. rewrite Hfull in Hn1.
  cbn [with_value with_cursorPosition _cursorPosition] in Hn1.
  assert (n2 = handleBackspace n1) as Hn2.
  { subst n2. unfold onKeyDown. rewrite Hn1. cbn. by rewrite Hen, Hfoc. }
  assert (text_length n1 = text_length n + 1) as Hlen.
  { rewrite Hn1. unfold text_length in *. cbn.
    rewrite !length_append, !Nat2Z.inj_add, length_prefix, length_suffix, Hchar
      by done. lia. }
  split; [done|].
  rewrite Hn2. unfold handleBackspace. rewrite Hn1. cbn.
  destruct (Z.ltb_spec 0 (_cursorPosition n + 1)); [|lia]. cbn.
  replace (_cursorPosition n + 1 - 1) with (_cursorPosition n) by lia.
  rewrite Hpre, Hsuf, Hwhole. split_and!; [done..|].
  by rewrite <- app_assoc.
Qed.

Lemma insert_backspace_round_trip_witness :
  _enabled (focus (create (Some "ab") None None)) = true
  ∧ _isFocused (focus (create (Some "ab") None None)) = true
  ∧ _value
      (onKeyDown (keyEvent Backspace EmptyString)
         (onKeyDown (keyEvent OtherKey "c")
            (focus (create (Some "ab") None None))))
    = "ab"%string.
Proof.
  split; [reflexivity|]. split; [reflexivity|].
  apply (insert_backspace_round_trip (focus (create (Some "ab") None None)) "c");
    try reflexivity.
  split; by vm_compute.
Defined.

Lemma perform_state c n :
  state n = state_of_flags n ∧ (_enabled n = false → _isFocused n = false) →
  state (perform c n) = state_of_flags (perform c n)
  ∧ (_enabled (perform c n) = false → _isFocused (perform c n) = false).
Proof.
  destruct n as [e f t m s x c' cv ct l ev]. unfold state_of_flags. cbn.
  intros [-> Hdis].
  destruct c as [[k char]| |v|p| | | |v|delta]; cbn [perform].
  - unfold onKeyDown, handleBackspace, handleDelete, moveCursorLeft,
      moveCursorRight, insertCharacter, loseFocus.
    cbn [key TextInput.value _enabled _isFocused].
    destruct e, f; cbn [negb]; try done; destruct k; cbn;
      both_ways; by cbn.
  - unfold onPointerDown_local, focus. by destruct e, f.
  - unfold setValue. case_decide; by cbn.
  - done.
  - unfold focus. by destruct e, f.
  - unfold loseFocus. by destruct e, f.
  - done.
  - unfold setEnabled, UIComponent_setEnabled, onDisabled, onEnabled,
      loseFocus.
    destruct v, e, f; cbn; try done. by specialize (Hdis eq_refl).
  - unfold onPreUpdate. cbn. destruct f; [|done].
    by destruct (PrimFloat.leb _ _).
Qed.

(** X20: after every sequence of calls on a new text input the state is
    the one its flags give, [disabled] when it is not enabled, else
    [focused] when it holds the focus, else [normal]; and an input that is
    not enabled does not hold the focus. *)
Theorem text_input_state_follows_flags (calls : list Call)
    (initial : option string) (limit tab : option Z) :
  let n := perform_all calls (create initial limit tab) in
  state n = state_of_flags n
  ∧ (_enabled n = false → _isFocused n = false).
Proof.
  apply (foldl_invariant (λ s c, perform c s)
           (λ n, state n = state_of_flags n
                 ∧ (_enabled n = false → _isFocused n = false))).
  - intros n c. apply perform_state.
  - by split.
Qed.

(** X21: a pointer-down on an enabled text input always leaves it with the
    focus, whether or not it has a manager and whatever the manager
    regards as current, because the handler calls [focus] itself before it
    asks the manager; a text input that was disabled and enabled again
    therefore takes the focus back on the next pointer-down. *)
Theorem pointer_down_focuses_text_input (st : World) (c : wid) :
  _enabled (FocusManager.heap st c) = true →
  _isFocused (FocusManager.heap (onPointerDown c st) c) = true
  ∧ _enabled (FocusManager.heap (onPointerDown c st) c) = true.
Proof.
  intros Hen. unfold onPointerDown. rewrite Hen. cbn [negb].
  match goal with
  | |- context [FocusManager.requestFocus c ?s] => set (st1 := s)
  end.
  assert (FocusManager.heap st1 c = focus (FocusManager.heap st c)) as Hc.
  { subst st1. cbn. apply FocusManagerFacts.send_eq. }
  assert (∀ n, _enabled n = true →
            _isFocused (focus n) = true ∧ _enabled (focus n) = true)
    as Hfocus.
  { intros n Hn. unfold focus. rewrite Hn. cbn [negb].
    by destruct (_isFocused n) eqn:Hfoc. }
  destruct (Hfocus _ Hen) as [Hf He].
  unfold FocusManager.requestFocus.
  destruct (hasManager _); [|by rewrite Hc].
  destruct (FocusManagerFacts.setFocus_target c st1) as [-> | ->].
  - by rewrite Hc.
  - rewrite Hc. by apply Hfocus.
Qed.

Lemma pointer_down_focuses_text_input_witness :
  _enabled (FocusManager.heap reenabled_text_input 0%nat) = true
  ∧ _isFocused (FocusManager.heap reenabled_text_input 0%nat) = false
  ∧ _isFocused
      (FocusManager.heap (onPointerDown 0%nat reenabled_text_input) 0%nat)
    = true.
Proof.
  assert (_enabled (FocusManager.heap reenabled_text_input 0%nat) = true)
    as Hen by (by vm_compute).
  split_and!; [done|by vm_compute|].
  exact (proj1 (pointer_down_focuses_text_input reenabled_text_input 0%nat Hen)).
Defined.

End TextInputExtras.

(** ** The order of JavaScript numbers *)
Module FloatFacts.
Import JS.

Lemma SFcompare_antisym (x y : spec_float) :
  SFcompare y x = option_map CompOpp (SFcompare x y).
Proof.
  destruct x as [[]| []| |[] m1 e1], y as [[]| []| |[] m2 e2]; cbn;
    try reflexivity.
  all: rewrite (Z.compare_antisym e1 e2); destruct (e1 ?= e2)%Z; cbn;
    try reflexivity.
  all: change (PosDef.Pos.compare_cont Eq m2 m1) with (m2 ?= m1)%positive.
  all: rewrite (Pos.compare_antisym m1 m2).
  all: change (PosDef.Pos.compare_cont Eq m1 m2) with (m1 ?= m2)%positive.
  all: destruct (m1 ?= m2)%positive; reflexivity.
Qed.

Lemma SFcompare_None (x y : spec_float) :
  SFcompare x y = None → SFcompare x x = None ∨ SFcompare y y = None.
Proof.
  destruct x as [[]| []| |[] m1 e1], y as [[]| []| |[] m2 e2]; cbn; auto;
    try discriminate.
  all: destruct (e1 ?= e2)%Z; try discriminate.
  all: destruct (PosDef.Pos.compare_cont Eq m1 m2); discriminate.
Qed.

Lemma SFcompare_nan_r (x : spec_float) : SFcompare x S754_nan = None.
Proof. by destruct x as [[]|[]| |[]]. Qed.

Lemma ltb_leb (a b : number) :
  PrimFloat.ltb a b = true → PrimFloat.leb a b = true.
Proof.
  rewrite FloatAxioms.ltb_spec, FloatAxioms.leb_spec. unfold SFltb, SFleb.
  destruct (SFcompare _ _) as [[]|]; congruence.
Qed.

Lemma not_ltb_leb (a b : number) :
  isNaN a = false → isNaN b = false →
  PrimFloat.ltb a b = false → PrimFloat.leb b a = true.
Proof.
  unfold isNaN.
  rewrite !FloatAxioms.eqb_spec, FloatAxioms.ltb_spec, FloatAxioms.leb_spec.
  unfold SFeqb, SFltb, SFleb. intros Ha Hb.
  rewrite (SFcompare_antisym (Prim2SF a) (Prim2SF b)).
  destruct (SFcompare (Prim2SF a) (Prim2SF b)) as [[]|] eqn:E; cbn;
    try congruence.
  apply SFcompare_None in E as [E|E]; rewrite E in *; discriminate.
Qed.

Lemma leb_refl (a : number) : isNaN a = false → PrimFloat.leb a a = true.
Proof.
  unfold isNaN. rewrite FloatAxioms.eqb_spec, FloatAxioms.leb_spec.
  unfold SFeqb, SFleb. by destruct (SFcompare _ _) as [[]|].
Qed.

Lemma strict_neq_nan (a : number) : strict_neq a PrimFloat.nan = true.
Proof.
  unfold strict_neq. rewrite FloatAxioms.eqb_spec. unfold SFeqb.
  replace (Prim2SF PrimFloat.nan) with S754_nan by (by vm_compute).
  by rewrite SFcompare_nan_r.
Qed.

(** [Math.max] of two numbers is one of them and not below either. *)
Lemma Math_max_bounds (a b : number) :
  isNaN a = false → isNaN b = false →
  (Math_max a b = a ∨ Math_max a b = b)
  ∧ PrimFloat.leb a (Math_max a b) = true
  ∧ PrimFloat.leb b (Math_max a b) = true.
Proof.
  intros Ha Hb. unfold Math_max. rewrite Ha, Hb. cbn [orb].
  pose proof (leb_refl a Ha) as Raa. pose proof (leb_refl b Hb) as Rbb.
  destruct (PrimFloat.ltb a b) eqn:E1.
  { pose proof (ltb_leb _ _ E1). auto. }
  pose proof (not_ltb_leb _ _ Ha Hb E1) as Hba.
  destruct (PrimFloat.ltb b a) eqn:E2; [auto|].
  pose proof (not_ltb_leb _ _ Hb Ha E2) as Hab.
  destruct (is_neg_zero a); auto.
Qed.

(** [Math.min] of two numbers is one of them and not above either. *)
Lemma Math_min_bounds (a b : number) :
  isNaN a = false → isNaN b = false →
  (Math_min a b = a ∨ Math_min a b = b)
  ∧ PrimFloat.leb (Math_min a b) a = true
  ∧ PrimFloat.leb (Math_min a b) b = true.
Proof.
  intros Ha Hb. unfold Math_min. rewrite Ha, Hb. cbn [orb].
  pose proof (leb_refl a Ha) as Raa. pose proof (leb_refl b Hb) as Rbb.
  destruct (PrimFloat.ltb a b) eqn:E1.
  { pose proof (ltb_leb _ _ E1). auto. }
  pose proof (not_ltb_leb _ _ Ha Hb E1) as Hba.
  destruct (PrimFloat.ltb b a) eqn:E2; [auto|].
  pose proof (not_ltb_leb _ _ Hb Ha E2) as Hab.
  destruct (is_neg_zero a); auto.
Qed.

Lemma Math_max_nan_r (a : number) : Math_max a PrimFloat.nan = PrimFloat.nan.
Proof.
  unfold Math_max.
  replace (isNaN PrimFloat.nan) with true by (by vm_compute).
  by rewrite orb_true_r.
Qed.

Lemma Math_min_nan (a b : number) :
  isNaN b = true → Math_min a b = PrimFloat.nan.
Proof. intros Hb. unfold Math_min. by rewrite Hb, orb_true_r. Qed.

End FloatFacts.

(** ** The numeric input: what every call keeps *)
Module NumericExtras.
Import JS Numeric StringFacts FloatFacts Scenes.

#[local] Arguments formatNumber : simpl never.
#[local] Arguments clampValue : simpl never.
#[local] Arguments parseNumber : simpl never.
#[local] Arguments substring : simpl never.

Section WithHost.
Context `{Host}.

(** The state follows the flags, an input that is not enabled does not
    hold the focus, the cursor is not negative and, while the input holds
    the focus, not beyond the end of the buffer, and only an input that
    holds the focus is being edited. *)
Definition sound (n : UINumeric) : Prop :=
  state n = state_of_flags n
  ∧ (_enabled n = false → _isFocused n = false)
  ∧ 0 ≤ _cursorPosition n
  ∧ (_isFocused n = true → _cursorPosition n ≤ text_length n)
  ∧ (_isEditing n = true → _isFocused n = true).

(** A call that leaves the three flags alone. *)
Lemma sound_edit (n n' : UINumeric) :
  sound n →
  _enabled n' = _enabled n → _isFocused n' = _isFocused n →
  state n' = state n →
  0 ≤ _cursorPosition n' →
  (_isFocused n = true → _cursorPosition n' ≤ text_length n') →
  (_isEditing n' = true → _isFocused n = true) →
  sound n'.
Proof.
  intros (Hs & Hd & Hc & Hf & He) Hen Hfoc Hst Hc' Hf' He'.
  unfold sound, state_of_flags in *. rewrite Hen, Hfoc, Hst.
  by split_and!.
Qed.

Lemma text_length_nonneg (n : UINumeric) : 0 ≤ text_length n.
Proof. unfold text_length. lia. Qed.

(** Close what is left of a use of [sound_edit]. *)
Ltac close_edit Hn :=
  try done;
  try match goal with |- _ = true → _ => intros ? end;
  let Hs := fresh in
  let Hd := fresh in
  let Hc := fresh in
  let Hf := fresh in
  let He := fresh in
  pose proof Hn as (Hs & Hd & Hc & Hf & He);
  first [ apply text_length_nonneg
        | by auto
        | unfold text_length in *; cbn in *;
          rewrite ?length_append, ?Nat2Z.inj_add, ?length_prefix,
            ?length_suffix by lia;
          lia ].

Lemma setValue_flags v n :
  _enabled (setValue v n) = _enabled n
  ∧ _isFocused (setValue v n) = _isFocused n
  ∧ state (setValue v n) = state n.
Proof. unfold setValue. by destruct (strict_neq _ _). Qed.

Lemma setValue_sound v n : sound n → sound (setValue v n).
Proof.
  intros Hn. unfold setValue.
  destruct (strict_neq _ _); [|done].
  pose proof Hn as (_ & _ & Hc & _).
  apply (sound_edit n); cbn; close_edit Hn.
Qed.

Lemma emit_sound e n : sound n → sound (emit e n).
Proof. intros Hn. apply (sound_edit n); close_edit Hn. Qed.

Lemma with_config_sound c n : sound n → sound (with_config c n).
Proof. intros Hn. apply (sound_edit n); close_edit Hn. Qed.

Lemma commitValue_flags n :
  _enabled (commitValue n) = _enabled n
  ∧ _isFocused (commitValue n) = _isFocused n
  ∧ state (commitValue n) = state n.
Proof.
  unfold commitValue. cbn. destruct (negb _); [|done]. apply setValue_flags.
Qed.

Lemma commitValue_sound n : sound n → sound (commitValue n).
Proof.
  intros Hn. destruct (commitValue_flags n) as (Hen & Hfoc & Hst).
  apply (sound_edit n); try done; unfold commitValue; cbn; close_edit Hn.
Qed.

Lemma focus_sound n : sound n → sound (focus n).
Proof.
  intros Hn. unfold focus.
  destruct (_enabled n) eqn:Hen; cbn [negb]; [|done].
  destruct (_isFocused n) eqn:Hfoc; [done|].
  unfold sound, state_of_flags. cbn. rewrite Hen.
  split_and!; close_edit Hn.
Qed.

Lemma loseFocus_sound n : sound n → sound (loseFocus n).
Proof.
  intros Hn. unfold loseFocus.
  destruct (_enabled n) eqn:Hen; cbn [negb]; [|done].
  destruct (_isFocused n) eqn:Hfoc; cbn [negb]; [|done].
  set (n1 := if _isEditing n then commitValue n else n).
  assert (sound n1 ∧ _enabled n1 = true) as [Hn1 Hen1].
  { subst n1. destruct (_isEditing n); [|done].
    split; [by apply commitValue_sound|].
    by destruct (commitValue_flags n) as (-> & _). }
  destruct Hn1 as (_ & _ & Hc & _).
  unfold sound, state_of_flags. cbn. rewrite Hen1. by split_and!.
Qed.

Lemma isValidNumericInput_length n char :
  isValidNumericInput n char = true → String.length char = 1%nat.
Proof. by destruct char as [|a [|b char]]. Qed.

Lemma onKeyDown_sound evt n : sound n → sound (onKeyDown evt n).
Proof.
  intros Hn. unfold onKeyDown.
  destruct (_enabled n) eqn:Hen; cbn [negb]; [|done].
  destruct (_isFocused n) eqn:Hfoc; cbn [negb]; [|done].
  pose proof Hn as (_ & _ & Hc & Hf & _). specialize (Hf Hfoc).
  unfold text_length in Hf.
  destruct evt as [[] char]; cbn [key Numeric.value].
  - unfold handleBackspace.
    destruct (Z.ltb_spec 0 (_cursorPosition n)); [|done].
    apply (sound_edit n); cbn; close_edit Hn.
  - unfold handleDelete, text_length.
    destruct (Z.ltb_spec (_cursorPosition n)
                (Z.of_nat (String.length (_inputText n)))); [|done].
    apply (sound_edit n); cbn; close_edit Hn.
  - unfold moveCursorLeft.
    destruct (Z.ltb_spec 0 (_cursorPosition n)); [|done].
    apply (sound_edit n); cbn; close_edit Hn.
  - unfold moveCursorRight, text_length.
    destruct (Z.ltb_spec (_cursorPosition n)
                (Z.of_nat (String.length (_inputText n)))); [|done].
    apply (sound_edit n); cbn; close_edit Hn.
  - apply (sound_edit n); cbn; close_edit Hn.
  - apply (sound_edit n); cbn; close_edit Hn.
  - by apply emit_sound, setValue_sound.
  - by apply emit_sound, setValue_sound.
  - by apply emit_sound, commitValue_sound.
  - apply focus_sound. apply (sound_edit n); cbn; close_edit Hn.
  - destruct (isValidNumericInput n char) eqn:Hvalid; [|done].
    pose proof (isValidNumericInput_length _ _ Hvalid) as Hchar.
    unfold insertCharacter.
    apply (sound_edit n); cbn; close_edit Hn.
Qed.

Lemma setEnabled_sound v n : sound n → sound (setEnabled v n).
Proof.
  intros Hn. unfold setEnabled.
  destruct (negb (Bool.eqb v (_enabled n))) eqn:Hdiff; [|done].
  assert (_enabled n = negb v) as Hen.
  { destruct v, (_enabled n); done. }
  destruct v; cbn [negb andb] in *.
  - (* enabling: the input was disabled, so it is not focused *)
    pose proof Hn as (_ & Hd & Hc & _ & He).
    specialize (Hd Hen).
    unfold UIComponent_setEnabled. rewrite Hen. cbn.
    unfold sound, state_of_flags. cbn. rewrite Hd. split_and!; try done.
    intros Hed. rewrite <- Hd. by apply He.
  - (* disabling: blur first *)
    set (n1 := if _isFocused n then loseFocus n else n).
    assert (sound n1 ∧ _enabled n1 = true ∧ _isFocused n1 = false)
      as (Hn1 & Hen1 & Hfoc1).
    { subst n1. destruct (_isFocused n) eqn:Hfoc; [|done].
      split; [by apply loseFocus_sound|].
      unfold loseFocus. rewrite Hen, Hfoc. cbn. split; [|done].
      destruct (_isEditing n); [|done].
      by destruct (commitValue_flags n) as (-> & _). }
    pose proof Hn1 as (_ & _ & Hc & _ & He).
    unfold UIComponent_setEnabled. rewrite Hen1. cbn.
    unfold onDisabled. cbn. rewrite Hfoc1.
    unfold sound, state_of_flags. cbn. rewrite Hfoc1. split_and!; try done.
    intros Hed. rewrite <- Hfoc1. by apply He.
Qed.

Lemma perform_sound c n : sound n → sound (perform c n).
Proof.
  intros Hn.
  destruct c as [evt| |up|v| | |v|v|v|p| | |v|delta]; cbn [perform].
  - by apply onKeyDown_sound.
  - unfold onPointerDown_local. destruct (negb _); [done|].
    by apply focus_sound.
  - unfold arrowPointerDown. destruct (negb _); [done|].
    destruct up; by apply emit_sound, setValue_sound.
  - by apply setValue_sound.
  - by apply emit_sound, setValue_sound.
  - by apply emit_sound, setValue_sound.
  - by apply setValue_sound, with_config_sound.
  - by apply setValue_sound, with_config_sound.
  - by apply with_config_sound.
  - pose proof Hn as (_ & _ & Hc & _ & He).
    apply (sound_edit n); cbn; close_edit Hn.
  - by apply focus_sound.
  - by apply loseFocus_sound.
  - by apply setEnabled_sound.
  - unfold onPreUpdate. destruct (_isFocused n) eqn:Hfoc; [|done].
    destruct (PrimFloat.leb _ _); apply (sound_edit n); close_edit Hn.
Qed.

Lemma create_sound config initial : sound (create config initial).
Proof.
  unfold sound, state_of_flags, create. cbn. split_and!; try done.
  apply text_length_nonneg.
Qed.

End WithHost.

(** X22: whatever the host's conversions and regular expressions are,
    after every sequence of key presses, pointer-downs on the input or on
    its arrow buttons and calls of [setValue], [increment], [decrement],
    [setMin], [setMax], [setStep], of [setCursorPosition] with a whole
    number, and of [focus], [loseFocus], [setEnabled] and [onPreUpdate] on
    a new numeric input: the state is the one the flags give; an input that
    is not enabled does not hold the focus; the cursor is not negative and,
    while the input holds the focus, not beyond the end of the buffer; and
    only an input that holds the focus is being edited. A position that is
    a fraction or [NaN], which [setCursorPosition] stores as it is when it
    lies inside the buffer, is outside this statement. *)
Theorem numeric_input_stays_sound `{Host} (calls : list Call)
    (config : UINumericConfig) (initial : option number) :
  let n := perform_all calls (create config initial) in
  state n = state_of_flags n
  ∧ (_enabled n = false → _isFocused n = false)
  ∧ 0 ≤ _cursorPosition n
  ∧ (_isFocused n = true → _cursorPosition n ≤ text_length n)
  ∧ (_isEditing n = true → _isFocused n = true).
Proof.
  apply (foldl_invariant (λ s c, perform c s) sound).
  - intros n c. apply perform_sound.
  - apply create_sound.
Qed.

(** X23: when neither bound is [NaN] and the minimum is not above the
    maximum, [clampValue] brings every number that is not [NaN] between
    the two bounds; a bound the configuration leaves out counts as
    minus or plus infinity. *)
Theorem clampValue_within_bounds (n : UINumeric) (v : number) :
  let lo := default neg_infinity (min (_config n)) in
  let hi := default infinity (max (_config n)) in
  isNaN lo = false → isNaN hi = false → PrimFloat.leb lo hi = true →
  isNaN v = false →
  PrimFloat.leb lo (clampValue n v) = true
  ∧ PrimFloat.leb (clampValue n v) hi = true.
Proof.
  intros lo hi Hlo Hhi Hle Hv. unfold clampValue. fold lo hi.
  destruct (Math_min_bounds hi v Hhi Hv) as (Hm & Hmhi & _).
  assert (isNaN (Math_min hi v) = false) as Hnan
    by (by destruct Hm as [-> | ->]).
  destruct (Math_max_bounds lo _ Hlo Hnan) as (Hr & Hlor & _).
  split; [done|]. by destruct Hr as [-> | ->].
Qed.

Lemma clampValue_within_bounds_witness :
  let n := Scenes.numeric_42 1000%float in
  (isNaN (default neg_infinity (min (_config n))) = false
   ∧ isNaN (default infinity (max (_config n))) = false
   ∧ PrimFloat.leb (default neg_infinity (min (_config n)))
       (default infinity (max (_config n))) = true
   ∧ isNaN 5000%float = false)
  ∧ PrimFloat.leb (default neg_infinity (min (_config n)))
      (clampValue n 5000%float) = true
  ∧ PrimFloat.leb (clampValue n 5000%float)
      (default infinity (max (_config n))) = true.
Proof.
  split; [by vm_compute|].
  apply (clampValue_within_bounds (Scenes.numeric_42 1000%float) 5000%float);
    by vm_compute.
Defined.

(** X24: [setValue] with [NaN] stores [NaN] whatever the bounds are, and
    emits [ValueChanged] every time, also when the value was [NaN]
    before. *)
Theorem setValue_nan_always_emits `{Host} (n : UINumeric) (v : number) :
  isNaN v = true →
  isNaN (_value (setValue v n)) = true
  ∧ emitted (setValue v n)
    = emitted n ++ [UINumericValueChanged (_value (setValue v n))].
Proof.
  intros Hv. unfold setValue, clampValue.
  rewrite (Math_min_nan _ v Hv), Math_max_nan_r, strict_neq_nan.
  split; [by vm_compute|done].
Qed.

Lemma setValue_nan_always_emits_witness :
  let n := setValue PrimFloat.nan (Scenes.numeric_42 1000%float) in
  isNaN PrimFloat.nan = true
  ∧ isNaN (_value (setValue PrimFloat.nan n)) = true
  ∧ emitted (setValue PrimFloat.nan n)
    = emitted n ++ [UINumericValueChanged (_value (setValue PrimFloat.nan n))].
Proof.
  split; [by vm_compute|].
  apply (setValue_nan_always_emits
           (setValue PrimFloat.nan (Scenes.numeric_42 1000%float))
           PrimFloat.nan).
  by vm_compute.
Defined.

End NumericExtras.

(** ** The tabbed panel: what every call keeps *)
Module TabbedPanelExtras.
Import TabbedPanel TabbedPanelClaims StringFacts Scenes.

Section MapFacts.
Context {V : Type}.
Implicit Types (m : Map V) (k : string) (v : V) (f : V → V).

(** Apply [f] to the value stored under [k], if any. *)
Fixpoint alter f k m : Map V :=
  match m with
  | [] => []
  | (k', v) :: m' =>
      if decide (k' = k) then (k', f v) :: m' else (k', v) :: alter f k m'
  end.

Lemma set_alter f k m :
  match get k m with Some v => set k (f v) m | None => m end = alter f k m.
Proof.
  induction m as [|[k' v'] m IH]; cbn; [done|].
  case_decide; cbn; [done|]. rewrite <- IH. by destruct (get k m).
Qed.

Lemma keys_alter f k m : keys (alter f k m) = keys m.
Proof.
  unfold keys. induction m as [|[k' v'] m IH]; cbn; [done|].
  case_decide; cbn; [done|]. by rewrite IH.
Qed.

Lemma get_alter f k k' m :
  get k' (alter f k m)
  = if decide (k' = k) then f <$> get k' m else get k' m.
Proof.
  induction m as [|[k0 v0] m IH]; cbn; [by case_decide|].
  destruct (decide (k0 = k)) as [->|Hne]; cbn.
  - destruct (decide (k = k')) as [->|Hne'].
    + by rewrite decide_True.
    + by rewrite decide_False.
  - destruct (decide (k0 = k')) as [->|Hne'].
    + by rewrite decide_False.
    + apply IH.
Qed.

Lemma get_keys k m : is_Some (get k m) ↔ k ∈ keys m.
Proof.
  unfold keys. induction m as [|[k0 v0] m IH]; cbn.
  - split; [by intros [? [=]]|by intros ?%elem_of_nil].
  - rewrite elem_of_cons. case_decide as Hk.
    + subst. split; [auto|eauto].
    + rewrite IH. split; [auto|]. intros [->|?]; done.
Qed.

Lemma get_None_keys k m : get k m = None ↔ k ∉ keys m.
Proof. rewrite <- get_keys, eq_None_not_Some. done. Qed.

Lemma set_new k v m : get k m = None → set k v m = m ++ [(k, v)].
Proof.
  induction m as [|[k0 v0] m IH]; cbn; [done|].
  case_decide; [done|]. intros Hg. by rewrite IH.
Qed.

Lemma get_app k m1 m2 :
  get k (m1 ++ m2) = match get k m1 with Some v => Some v | None => get k m2 end.
Proof.
  induction m1 as [|[k0 v0] m1 IH]; cbn; [done|]. by case_decide.
Qed.

Lemma keys_nil m : keys m = [] → m = [].
Proof. by destruct m. Qed.

Lemma get_delete_ne k k' m : k ≠ k' → get k' (delete k m) = get k' m.
Proof.
  intros Hne. induction m as [|[k0 v0] m IH]; cbn; [done|].
  destruct (decide (k0 = k)) as [->|Hk]; cbn.
  - by rewrite decide_False.
  - by rewrite IH.
Qed.

Lemma filter_others k (l : list string) :
  k ∉ l → filter (λ x, x ≠ k) l = l.
Proof.
  induction l as [|x l IH]; [done|].
  intros [Hx Hl]%not_elem_of_cons.
  rewrite filter_cons_True by (by intros ->). by rewrite IH.
Qed.

Lemma keys_delete k m :
  NoDup (keys m) → keys (delete k m) = filter (λ x, x ≠ k) (keys m).
Proof.
  induction m as [|[k0 v0] m IH]; [done|].
  change (keys ((k0, v0) :: m)) with (k0 :: keys m).
  intros [Hnotin Hnd]%NoDup_cons. rewrite filter_cons.
  change (delete k ((k0, v0) :: m))
    with (if decide (k0 = k) then m else (k0, v0) :: delete k m).
  destruct (decide (k0 = k)) as [->|Hk].
  - rewrite decide_False by (by intros ?).
    symmetry. by apply filter_others.
  - rewrite decide_True by done.
    change (keys ((k0, v0) :: delete k m)) with (k0 :: keys (delete k m)).
    by rewrite IH.
Qed.

End MapFacts.

Lemma keys_app {V} (m1 m2 : Map V) : keys (m1 ++ m2) = keys m1 ++ keys m2.
Proof. apply fmap_app. Qed.

(** *** The calls in terms of [alter] *)

Lemma on_tab_alter k f p : on_tab k f p = with_tabs (alter f k (tabs p)) p.
Proof.
  unfold on_tab. rewrite <- set_alter.
  destruct (get k (tabs p)); [done|]. by destruct p.
Qed.

Lemma on_content_alter k f p :
  on_content k f p = with_tabContents (alter f k (tabContents p)) p.
Proof.
  unfold on_content. rewrite <- set_alter.
  destruct (get k (tabContents p)); [done|]. by destruct p.
Qed.

(** The header and the pane of the tab that [setActiveTab] finds active
    are deactivated. *)
Definition deactivated {V} (f : V → V) (current : option string) (m : Map V)
  : Map V :=
  match truthy_id current with
  | Some a => alter f a m
  | None => m
  end.

Lemma setActiveTab_success id p t c :
  get id (tabs p) = Some t → get id (tabContents p) = Some c →
  setActiveTab id p
  = (true,
     mk (alter (setActive true) id
           (deactivated (setActive false) (activeTabId p) (tabs p)))
        (alter show id (deactivated hide (activeTabId p) (tabContents p)))
        (Some id) (tabbedConfig p) (emitted p ++ [TabChanged id])).
Proof.
  intros Ht Hc. unfold setActiveTab, deactivated. rewrite Ht, Hc.
  rewrite on_content_alter, on_tab_alter.
  destruct (truthy_id (activeTabId p)) as [a|]; [|done].
  by rewrite on_content_alter, on_tab_alter.
Qed.

Lemma setActiveTab_failure id p :
  get id (tabs p) = None ∨ get id (tabContents p) = None →
  setActiveTab id p = (false, p).
Proof.
  unfold setActiveTab. intros [-> | Hc]; [done|].
  rewrite Hc. by destruct (get id (tabs p)).
Qed.

Lemma keys_deactivated {V} (f : V → V) current (m : Map V) :
  keys (deactivated f current m) = keys m.
Proof.
  unfold deactivated. destruct (truthy_id current); [|done].
  apply keys_alter.
Qed.

Lemma truthy_id_Some a k : truthy_id a = Some k → a = Some k.
Proof. by destruct a as [[|x s]|]. Qed.

Lemma truthy_id_None a : truthy_id a = None → a = None ∨ a = Some EmptyString.
Proof. destruct a as [[|x s]|]; auto; discriminate. Qed.

(** Where the values of a deactivated map come from. *)
Lemma get_deactivated {V} (f : V → V) current (m : Map V) k v' :
  current ≠ Some EmptyString →
  get k (deactivated f current m) = Some v' →
  (current = Some k ∧ ∃ v, get k m = Some v ∧ v' = f v)
  ∨ (current ≠ Some k ∧ get k m = Some v').
Proof.
  intros Hne. unfold deactivated.
  destruct (truthy_id current) as [a|] eqn:Ha.
  - apply truthy_id_Some in Ha as ->. rewrite get_alter.
    case_decide as Hk.
    + subst a. destruct (get k m) as [v|]; [|done].
      intros [= <-]. left. eauto.
    + intros Hg. right. split; [congruence|done].
  - apply truthy_id_None in Ha as [-> | ->]; [|done].
    intros Hg. by right.
Qed.

(** [well_formed] without its clause on [activeTabId] being a key. *)
Definition pre_formed (p : UITabbedPanel) : Prop :=
  keys (tabs p) = keys (tabContents p)
  ∧ NoDup (keys (tabs p))
  ∧ (EmptyString ∉ keys (tabs p))
  ∧ activeTabId p ≠ Some EmptyString
  ∧ (∀ k t, get k (tabs p) = Some t →
       isTabActive t = bool_decide (activeTabId p = Some k))
  ∧ (∀ k c, get k (tabContents p) = Some c →
       isVisible c = bool_decide (activeTabId p = Some k)).

Lemma well_formed_pre p : well_formed p → pre_formed p.
Proof.
  intros (Hk & Hnd & Hne & Hact & Ht & Hc). split_and!; try done.
  intros Ha. rewrite Ha in Hact. done.
Qed.

Lemma setActiveTab_formed id p :
  pre_formed p → is_Some (get id (tabs p)) →
  well_formed (setActiveTab id p).2.
Proof.
  intros (Hk & Hnd & Hne & Hact & Ht & Hc) [t Hid].
  assert (is_Some (get id (tabContents p))) as [c Hidc].
  { apply get_keys. rewrite <- Hk. apply get_keys. eauto. }
  rewrite (setActiveTab_success id p t c) by done. cbn [snd].
  unfold well_formed. cbn [tabs tabContents activeTabId].
  rewrite !keys_alter, !keys_deactivated.
  split_and!; try done.
  - apply get_keys. eauto.
  - intros k t'. rewrite get_alter. case_decide as Hkid.
    + subst k. destruct (get id (deactivated _ _ _)); [|done].
      cbn. intros [= <-]. by rewrite bool_decide_true.
    + intros Hg. rewrite bool_decide_false by congruence.
      apply get_deactivated in Hg; [|done].
      destruct Hg as [[_ (t0 & _ & ->)]|[Hcur Hg]]; [done|].
      rewrite (Ht _ _ Hg). by apply bool_decide_false.
  - intros k c'. rewrite get_alter. case_decide as Hkid.
    + subst k. destruct (get id (deactivated _ _ _)); [|done].
      cbn. intros [= <-]. by rewrite bool_decide_true.
    + intros Hg. rewrite bool_decide_false by congruence.
      apply get_deactivated in Hg; [|done].
      destruct Hg as [[_ (c0 & _ & ->)]|[Hcur Hg]]; [done|].
      rewrite (Hc _ _ Hg). by apply bool_decide_false.
Qed.

Lemma addTab_formed id makeActive p :
  well_formed p → id ≠ EmptyString → well_formed (addTab id makeActive p).
Proof.
  intros Hp Hid. pose proof Hp as (Hk & Hnd & Hne & Hact & Ht & Hc).
  unfold addTab. unfold has.
  destruct (get id (tabs p)) eqn:Hnew; [done|].
  assert (id ∉ keys (tabs p)) as Hfresh by (by apply get_None_keys).
  assert (get id (tabContents p) = None) as Hnewc.
  { apply get_None_keys. by rewrite <- Hk. }
  set (tab := newTab _ _ _).
  cbn [tabs tabContents with_tabs with_tabContents emit].
  rewrite (set_new id tab) by done.
  rewrite (set_new id (mkContent false [] None None)) by done.
  set (p3 := mk (tabs p ++ [(id, tab)])
                (tabContents p ++ [(id, mkContent false [] None None)])
                (activeTabId p) (tabbedConfig p) (emitted p ++ [TabAdded id])).
  change (emit (TabAdded id) _) with p3.
  assert (activeTabId p ≠ Some id) as Hother.
  { intros Ha. rewrite Ha in Hact. done. }
  assert (pre_formed p3) as Hpre.
  { unfold pre_formed. cbn [tabs tabContents activeTabId p3].
    rewrite !keys_app, Hk. split_and!; try done.
    - rewrite <- Hk. apply NoDup_app. split_and!; [done| |apply NoDup_singleton].
      intros x Hx ->%list_elem_of_singleton. done.
    - rewrite <- Hk. intros [?|Hin%list_elem_of_singleton]%elem_of_app; done.
    - intros Ha. rewrite Ha in Hact. done.
    - intros k t. rewrite get_app.
      destruct (get k (tabs p)) as [t0|] eqn:Hg.
      + intros [= <-]. by apply Ht.
      + cbn. case_decide; [|done]. intros [= <-]. subst k.
        symmetry. by apply bool_decide_false.
    - intros k c. rewrite get_app.
      destruct (get k (tabContents p)) as [c0|] eqn:Hg.
      + intros [= <-]. by apply Hc.
      + cbn. case_decide; [|done]. intros [= <-]. subst k.
        symmetry. by apply bool_decide_false. }
  destruct (makeActive || (length (tabs p ++ [(id, tab)]) =? 1)%nat) eqn:Hgo.
  - apply setActiveTab_formed; [done|].
    cbn. rewrite get_app, Hnew. cbn. rewrite decide_True by done. eauto.
  - destruct Hpre as (Hk3 & Hnd3 & Hne3 & _ & Ht3 & Hc3).
    split_and!; try done.
    cbn [activeTabId tabs p3]. destruct (activeTabId p) as [a|].
    + rewrite keys_app. apply elem_of_app. by left.
    + rewrite Hact in Hgo. apply orb_false_iff in Hgo as [_ Hlen].
      cbn in Hlen. done.
Qed.

Lemma keys_reposition h s o (m : Map UITab) : keys (reposition h s o m) = keys m.
Proof.
  revert o. induction m as [|[k t] m IH]; intros o; [done|].
  cbn. destruct h; cbn; f_equal; apply IH.
Qed.

Lemma get_reposition h s o k (m : Map UITab) t' :
  get k (reposition h s o m) = Some t' →
  ∃ t at_pos, get k m = Some t ∧ t' = with_pos at_pos t.
Proof.
  revert o. induction m as [|[k0 t0] m IH]; intros o; [done|].
  cbn. destruct h; cbn; case_decide; try (intros [= <-]; eauto); apply IH.
Qed.

Lemma emit_formed e p : well_formed p → well_formed (emit e p).
Proof. done. Qed.

Lemma repositionTabs_formed p : well_formed p → well_formed (repositionTabs p).
Proof.
  intros (Hk & Hnd & Hne & Hact & Ht & Hc).
  unfold well_formed, repositionTabs. cbn [tabs tabContents activeTabId with_tabs].
  rewrite keys_reposition. split_and!; try done.
  - destruct (activeTabId p); [done|]. by rewrite Hact.
  - intros k t' (t & at_pos & Hg & ->)%get_reposition. cbn. by apply Ht.
Qed.

Lemma removeTab_formed id p : well_formed p → well_formed (removeTab id p).2.
Proof.
  intros Hp. pose proof Hp as (Hk & Hnd & Hne & Hact & Ht & Hc).
  unfold removeTab.
  destruct (get id (tabs p)) as [t|] eqn:Hid; [|done].
  destruct (get id (tabContents p)) as [c|] eqn:Hidc; [|done].
  cbn [snd]. apply emit_formed, repositionTabs_formed.
  set (p1 := with_tabContents _ (with_tabs _ p)).
  assert (keys (tabs p1) = filter (λ x, x ≠ id) (keys (tabs p))) as Hk1
    by (by apply keys_delete).
  assert (keys (tabContents p1) = filter (λ x, x ≠ id) (keys (tabs p))) as Hkc1.
  { rewrite Hk. apply keys_delete. by rewrite <- Hk. }
  assert (NoDup (keys (tabs p1))) as Hnd1.
  { rewrite Hk1. by apply NoDup_filter. }
  assert (EmptyString ∉ keys (tabs p1)) as Hne1.
  { rewrite Hk1. by intros [_ ?]%list_elem_of_filter. }
  assert (∀ k t', get k (tabs p1) = Some t' →
            k ≠ id ∧ get k (tabs p) = Some t') as Ht1.
  { intros k t' Hg.
    assert (k ≠ id) as Hkid.
    { intros ->. assert (id ∈ keys (tabs p1)) as Hin
        by (apply get_keys; eauto).
      rewrite Hk1 in Hin. by apply list_elem_of_filter in Hin as [? _]. }
    split; [done|]. subst p1. cbn in Hg. by rewrite get_delete_ne in Hg. }
  assert (∀ k c', get k (tabContents p1) = Some c' →
            k ≠ id ∧ get k (tabContents p) = Some c') as Hc1.
  { intros k c' Hg.
    assert (k ≠ id) as Hkid.
    { intros ->. assert (id ∈ keys (tabContents p1)) as Hin
        by (apply get_keys; eauto).
      rewrite Hkc1 in Hin. by apply list_elem_of_filter in Hin as [? _]. }
    split; [done|]. subst p1. cbn in Hg. by rewrite get_delete_ne in Hg. }
  assert (activeTabId p1 = activeTabId p) as Ha1 by done.
  case_decide as Hwas.
  - (* the active tab is removed *)
    set (p' := with_activeTabId None p1).
    assert (pre_formed p') as Hpre.
    { unfold pre_formed. cbn [tabs tabContents activeTabId p' with_activeTabId].
      split_and!; try done; [congruence|..].
      - intros k t' [Hkid Hg]%Ht1. rewrite (Ht _ _ Hg).
        rewrite <- Ha1, Hwas. rewrite !bool_decide_false; [done..|congruence].
      - intros k c' [Hkid Hg]%Hc1. rewrite (Hc _ _ Hg).
        rewrite <- Ha1, Hwas. rewrite !bool_decide_false; [done..|congruence]. }
    destruct (keys (tabs p')) as [|first rest] eqn:Hkeys.
    + destruct Hpre as (Hk' & Hnd' & Hne' & _ & Ht' & Hc').
      split_and!; try done.
      cbn [activeTabId p' with_activeTabId]. by apply keys_nil.
    + apply setActiveTab_formed; [done|].
      apply get_keys. rewrite Hkeys. left.
  - (* another tab, or none, is active *)
    rewrite Ha1 in Hwas.
    split_and!; try done.
    + congruence.
    + rewrite Ha1. destruct (activeTabId p) as [a|].
      * rewrite Hk1. apply list_elem_of_filter. split; [congruence|done].
      * by rewrite Hact in Hid.
    + intros k t' [Hkid Hg]%Ht1. rewrite Ha1. by apply Ht.
    + intros k c' [Hkid Hg]%Hc1. rewrite Ha1. by apply Hc.
Qed.

Lemma hover_formed id hovered p :
  well_formed p → well_formed (on_tab id (hover hovered) p).
Proof.
  intros (Hk & Hnd & Hne & Hact & Ht & Hc).
  rewrite on_tab_alter. unfold well_formed.
  cbn [tabs tabContents activeTabId with_tabs].
  rewrite keys_alter. split_and!; try done.
  - destruct (activeTabId p); [done|]. by rewrite Hact.
  - intros k t'. rewrite get_alter. case_decide.
    + destruct (get k (tabs p)) as [t|] eqn:Hg; [|done].
      intros [= <-]. cbn. by apply Ht.
    + apply Ht.
Qed.

Lemma perform_formed c p :
  named c = true → well_formed p → well_formed (perform c p).
Proof.
  intros Hc Hp. destruct c as [id makeActive|id|id|id|id]; cbn [perform].
  - apply addTab_formed; [done|]. by intros ->.
  - by apply removeTab_formed.
  - destruct (get id (tabs p)) as [t|] eqn:Hid.
    + apply setActiveTab_formed; [by apply well_formed_pre|eauto].
    + rewrite setActiveTab_failure by auto. done.
  - by apply hover_formed.
  - by apply hover_formed.
Qed.

Lemma create_formed config : well_formed (create config).
Proof.
  unfold well_formed. cbn. split_and!; try done.
  - apply NoDup_nil_2.
  - apply not_elem_of_nil.
Qed.

Lemma perform_all_formed calls p :
  forallb named calls = true → well_formed p →
  well_formed (perform_all calls p).
Proof.
  revert p. induction calls as [|c calls IH]; intros p Hnamed Hp; [done|].
  cbn in Hnamed. apply andb_true_iff in Hnamed as [Hc Hcalls].
  apply IH; [done|]. by apply perform_formed.
Qed.

(** X25: as long as no tab is added under the empty string, after every
    sequence of [addTab], [removeTab], [setActiveTab] calls and pointer
    moves over the headers on a new panel: the headers and the panes have
    the same ids, each once; a panel with tabs has an active tab; and the
    header that is active and the pane that is visible are those of the
    active tab and no other. *)
Theorem panel_stays_well_formed (calls : list Call)
    (config : UITabbedPanelConfig) :
  forallb named calls = true →
  well_formed (perform_all calls (create config)).
Proof.
  intros Hnamed. pose proof (create_formed config) as Hinit.
  revert Hnamed Hinit. generalize (create config).
  induction calls as [|c calls IH]; intros p Hnamed Hp; [done|].
  cbn in Hnamed. apply andb_true_iff in Hnamed as [Hc Hcalls].
  apply IH; [done|]. by apply perform_formed.
Qed.

Lemma panel_stays_well_formed_witness :
  forallb named tab_calls = true
  ∧ well_formed (perform_all tab_calls (create top_tabs)).
Proof.
  assert (forallb named tab_calls = true) as Hnamed by (by vm_compute).
  split; [exact Hnamed|].
  exact (panel_stays_well_formed tab_calls top_tabs Hnamed).
Defined.

(** X26: [removeTab] on the active tab of a well-formed panel returns
    [true] and activates the first of the remaining tabs, in the order in
    which they were added, emitting [TabChanged] for it before
    [TabRemoved]; when no tab remains, no tab is active. *)
Theorem removing_active_tab_activates_first (p : UITabbedPanel) (id : string) :
  well_formed p → activeTabId p = Some id →
  let remaining := filter (λ k, k ≠ id) (keys (tabs p)) in
  (removeTab id p).1 = true
  ∧ activeTabId (removeTab id p).2 = head remaining
  ∧ keys (tabs (removeTab id p).2) = remaining
  ∧ emitted (removeTab id p).2
    = emitted p
      ++ match head remaining with
         | Some first => [TabChanged first]
         | None => []
         end ++ [TabRemoved id].
Proof.
  intros Hp Hactive remaining.
  pose proof Hp as (Hk & Hnd & Hne & Hact & Ht & Hc).
  rewrite Hactive in Hact.
  assert (is_Some (get id (tabs p))) as [t Hid] by (by apply get_keys).
  assert (is_Some (get id (tabContents p))) as [c Hidc].
  { apply get_keys. by rewrite <- Hk. }
  unfold removeTab. rewrite Hid, Hidc. cbn [fst snd].
  cbn [activeTabId with_tabContents with_tabs].
  rewrite decide_True by done.
  cbn [tabs with_activeTabId with_tabContents with_tabs].
  rewrite (keys_delete id (tabs p)) by done. fold remaining.
  destruct remaining as [|first rest] eqn:Hrem.
  - cbn [tabs tabContents activeTabId emitted emit repositionTabs with_tabs
         with_activeTabId with_tabContents head].
    rewrite keys_reposition. split_and!; try done.
    by rewrite keys_delete.
  - assert (first ∈ remaining) as Hin by (rewrite Hrem; left).
    set (p' := mk (delete id (tabs p)) (delete id (tabContents p)) None
                  (tabbedConfig p) (emitted p)).
    assert (is_Some (get first (tabs p'))) as [t1 Ht1].
    { apply get_keys. cbn [tabs p']. by rewrite keys_delete. }
    assert (is_Some (get first (tabContents p'))) as [c1 Hc1].
    { apply get_keys. cbn [tabContents p'].
      rewrite keys_delete by (by rewrite <- Hk). by rewrite <- Hk. }
    change (with_activeTabId None _) with p'.
    rewrite (setActiveTab_success first p' t1 c1) by done.
    cbn [snd tabs tabContents activeTabId emitted emit repositionTabs
         with_tabs with_activeTabId with_tabContents head p'].
    rewrite keys_reposition, keys_alter, keys_deactivated.
    split_and!; try done.
    + by rewrite keys_delete.
    + by rewrite <- app_assoc.
Qed.

Lemma removing_active_tab_activates_first_witness :
  well_formed panel_abc ∧ activeTabId panel_abc = Some "a"%string
  ∧ activeTabId (removeTab "a" panel_abc).2 = Some "b"%string.
Proof.
  assert (well_formed panel_abc) as Hp.
  { assert (panel_abc
            = perform_all [AddTab "a" false; AddTab "b" false; AddTab "c" false]
                (create top_tabs)) as -> by (by vm_compute).
    apply perform_all_formed; [by vm_compute|apply create_formed]. }
  assert (activeTabId panel_abc = Some "a"%string) as Ha by (by vm_compute).
  split_and!; [done..|].
  destruct (removing_active_tab_activates_first panel_abc "a" Hp Ha)
    as (_ & -> & _).
  by vm_compute.
Defined.

(** X27: the tab with the empty string as its id is never deactivated:
    [setActiveTab] tests [activeTabId] for truth, so when that tab is the
    active one and another tab is activated, its header and its pane stay
    as they are, the pane visible, beside those of the new active tab. *)
Theorem empty_id_tab_is_not_deactivated
    (p : UITabbedPanel) (id : string) (t : UITab) (c : UITabContent) :
  activeTabId p = Some EmptyString →
  get id (tabs p) = Some t → get id (tabContents p) = Some c →
  id ≠ EmptyString →
  let p' := (setActiveTab id p).2 in
  activeTabId p' = Some id
  ∧ get EmptyString (tabs p') = get EmptyString (tabs p)
  ∧ get EmptyString (tabContents p') = get EmptyString (tabContents p)
  ∧ isVisible <$> get id (tabContents p') = Some true.
Proof.
  intros Hact Ht Hc Hid p'. subst p'.
  rewrite (setActiveTab_success id p t c) by done. cbn [snd].
  cbn [tabs tabContents activeTabId]. unfold deactivated.
  rewrite Hact. cbn [truthy_id]. rewrite !get_alter.
  rewrite !decide_False by done. rewrite decide_True by done.
  by rewrite Hc.
Qed.

Lemma empty_id_tab_is_not_deactivated_witness :
  activeTabId unnamed_then_b = Some EmptyString
  ∧ isVisible <$> get EmptyString
                    (tabContents (setActiveTab "b" unnamed_then_b).2)
    = Some true
  ∧ isVisible <$> get "b" (tabContents (setActiveTab "b" unnamed_then_b).2)
    = Some true.
Proof.
  assert (activeTabId unnamed_then_b = Some EmptyString) as Hact
    by (by vm_compute).
  assert (is_Some (get "b" (tabs unnamed_then_b))) as [t Ht]
    by (eexists; by vm_compute).
  assert (is_Some (get "b" (tabContents unnamed_then_b))) as [c Hc]
    by (eexists; by vm_compute).
  assert ("b"%string ≠ EmptyString) as Hb by discriminate.
  destruct (empty_id_tab_is_not_deactivated unnamed_then_b "b" t c
              Hact Ht Hc Hb) as (_ & _ & -> & ->).
  split_and!; [done| |done]. by vm_compute.
Defined.

(** *** The layout of the headers *)

(** The offset behind the headers of [m], starting from [offset]. *)
Definition offset_after (horizontal : bool) (spacing offset : Z)
    (m : Map UITab) : Z :=
  foldl (λ offset kv,
           if horizontal then offset + (width kv.2 + spacing)
           else offset + (height kv.2 + spacing))
        offset m.

Lemma reposition_app h s o (m1 m2 : Map UITab) :
  reposition h s o (m1 ++ m2)
  = reposition h s o m1 ++ reposition h s (offset_after h s o m1) m2.
Proof.
  revert o. induction m1 as [|[k t] m1 IH]; intros o; [done|].
  cbn. destruct h; cbn; by rewrite IH.
Qed.

Lemma reposition_idem h s o (m : Map UITab) :
  reposition h s o (reposition h s o m) = reposition h s o m.
Proof.
  revert o. induction m as [|[k t] m IH]; intros o; [done|].
  cbn. destruct h; cbn; by rewrite IH.
Qed.

(** A function on headers that keeps the size and works the same wherever
    the header is. *)
Definition keeps_shape (f : UITab → UITab) : Prop :=
  ∀ t, width (f t) = width t ∧ height (f t) = height t
       ∧ ∀ at_pos, with_pos at_pos (f t) = f (with_pos at_pos t).

Lemma reposition_alter h s o f k (m : Map UITab) :
  keeps_shape f →
  reposition h s o (alter f k m) = alter f k (reposition h s o m).
Proof.
  intros Hf. revert o. induction m as [|[k0 t0] m IH]; intros o; [done|].
  cbn. destruct (Hf t0) as (Hw & Hh & Hpos).
  case_decide; destruct h; cbn; rewrite ?decide_True, ?decide_False by done;
    rewrite ?Hw, ?Hh, ?Hpos, ?IH; done.
Qed.

Lemma setActive_keeps_shape active : keeps_shape (setActive active).
Proof. by intros [a hv g l ps w hg]. Qed.

Lemma hover_keeps_shape hovered : keeps_shape (hover hovered).
Proof. by intros [a hv g l ps w hg]. Qed.

Lemma calculateNextTabPosition_offset p :
  calculateNextTabPosition p
  = let offset := offset_after (isHorizontal p)
                    (default 2 (tabSpacing (tabbedConfig p))) 0 (tabs p) in
    if isHorizontal p then (offset, 0) else (0, offset).
Proof.
  unfold calculateNextTabPosition, offset_after.
  by destruct (isHorizontal p).
Qed.

Lemma laid_out_alter f k p :
  keeps_shape f → laid_out p → laid_out (with_tabs (alter f k (tabs p)) p).
Proof.
  intros Hf Hp. unfold laid_out in *. cbn.
  change (isHorizontal (with_tabs _ p)) with (isHorizontal p).
  rewrite reposition_alter by done. by rewrite Hp.
Qed.

Lemma laid_out_same (p p' : UITabbedPanel) :
  tabs p' = tabs p → tabbedConfig p' = tabbedConfig p →
  laid_out p → laid_out p'.
Proof.
  unfold laid_out, isHorizontal. by intros -> ->.
Qed.

Lemma setActiveTab_laid_out id p : laid_out p → laid_out (setActiveTab id p).2.
Proof.
  intros Hp.
  destruct (get id (tabs p)) as [t|] eqn:Ht;
    [|by rewrite setActiveTab_failure by auto].
  destruct (get id (tabContents p)) as [c|] eqn:Hc;
    [|by rewrite setActiveTab_failure by auto].
  rewrite (setActiveTab_success id p t c) by done. cbn [snd].
  set (p1 := with_tabs (deactivated (setActive false) (activeTabId p) (tabs p)) p).
  assert (laid_out p1) as Hp1.
  { subst p1. unfold deactivated. destruct (truthy_id _).
    - by apply laid_out_alter, Hp; apply setActive_keeps_shape.
    - by apply (laid_out_same p). }
  apply (laid_out_same (with_tabs (alter (setActive true) id (tabs p1)) p1));
    [done..|].
  by apply laid_out_alter; [apply setActive_keeps_shape|].
Qed.

Lemma repositionTabs_laid_out p : laid_out (repositionTabs p).
Proof.
  unfold laid_out, repositionTabs. cbn.
  change (isHorizontal (with_tabs _ p)) with (isHorizontal p).
  apply reposition_idem.
Qed.

Lemma perform_laid_out c p : laid_out p → laid_out (perform c p).
Proof.
  intros Hp. destruct c as [id makeActive|id|id|id|id]; cbn [perform].
  - unfold addTab, has. destruct (get id (tabs p)) eqn:Hnew; [done|].
    set (tab := newTab _ _ _).
    cbn [tabs tabContents with_tabs with_tabContents emit].
    rewrite (set_new id tab) by done.
    set (p3 := emit _ _).
    assert (laid_out p3) as Hp3.
    { unfold laid_out in *.
      cbn [tabs tabbedConfig p3 emit with_tabContents with_tabs].
      change (isHorizontal p3) with (isHorizontal p).
      rewrite reposition_app, Hp. f_equal. subst tab.
      rewrite calculateNextTabPosition_offset. cbv zeta. cbn.
      by destruct (isHorizontal p). }
    destruct (_ || _); [|done]. by apply setActiveTab_laid_out.
  - unfold removeTab. destruct (get id (tabs p)); [|done].
    destruct (get id (tabContents p)); [|done]. cbn [snd].
    match goal with
    | |- laid_out (emit _ ?q) => apply (laid_out_same q); [done..|]
    end.
    apply repositionTabs_laid_out.
  - by apply setActiveTab_laid_out.
  - rewrite on_tab_alter. by apply laid_out_alter; [apply hover_keeps_shape|].
  - rewrite on_tab_alter. by apply laid_out_alter; [apply hover_keeps_shape|].
Qed.

(** X28: after every sequence of [addTab], [removeTab], [setActiveTab]
    calls and pointer moves over the headers on a new panel, the headers
    are where [repositionTabs] would put them, in the order in which they
    were added: the first at 0 and each next one at the position of the one
    before it plus that header's width (its height, when the tabs are not
    at the top or bottom) plus the tab spacing, so that the place of a
    removed tab is taken up by those behind it. Whether two headers
    overlap depends on the sign of the spacing and of the sizes and is not
    part of this. *)
Theorem headers_stay_laid_out (calls : list Call)
    (config : UITabbedPanelConfig) :
  laid_out (perform_all calls (create config)).
Proof.
  apply (foldl_invariant (λ s c, perform c s) laid_out); [|done].
  intros p c. apply perform_laid_out.
Qed.

(** *** How the headers are drawn *)

Definition all_drawn (m : Map UITab) : Prop :=
  Forall (λ kv, drawn_as_flagged kv.2) m.

Lemma drawn_setActive active t : drawn_as_flagged (setActive active t).
Proof. by destruct t as [a hv g l ps w hg], active, hv. Qed.

Lemma drawn_hover hovered t : drawn_as_flagged (hover hovered t).
Proof. by destruct t as [a hv g l ps w hg], a, hovered. Qed.

Lemma all_drawn_alter f k m :
  (∀ t, drawn_as_flagged (f t)) → all_drawn m → all_drawn (alter f k m).
Proof.
  intros Hf. unfold all_drawn. induction 1 as [|[k0 t0] m Ht Hm IH]; cbn.
  - constructor.
  - case_decide; constructor; auto. apply Hf.
Qed.

Lemma all_drawn_delete k m : all_drawn m → all_drawn (delete k m).
Proof.
  unfold all_drawn. induction 1 as [|[k0 t0] m Ht Hm IH]; cbn.
  - constructor.
  - case_decide; [done|]. by constructor.
Qed.

Lemma all_drawn_reposition h s o m :
  all_drawn m → all_drawn (reposition h s o m).
Proof.
  unfold all_drawn. intros Hm. revert o.
  induction Hm as [|[k0 t0] m Ht Hm IH]; intros o; cbn.
  - constructor.
  - destruct h; constructor; auto.
Qed.

Lemma setActiveTab_drawn id p :
  all_drawn (tabs p) → all_drawn (tabs (setActiveTab id p).2).
Proof.
  intros Hp.
  destruct (get id (tabs p)) as [t|] eqn:Ht;
    [|by rewrite setActiveTab_failure by auto].
  destruct (get id (tabContents p)) as [c|] eqn:Hc;
    [|by rewrite setActiveTab_failure by auto].
  rewrite (setActiveTab_success id p t c) by done. cbn [snd tabs].
  apply all_drawn_alter; [apply drawn_setActive|].
  unfold deactivated. destruct (truthy_id _); [|done].
  apply all_drawn_alter; [apply drawn_setActive|done].
Qed.

Lemma perform_drawn c p :
  all_drawn (tabs p) → all_drawn (tabs (perform c p)).
Proof.
  intros Hp. destruct c as [id makeActive|id|id|id|id]; cbn [perform].
  - unfold addTab, has. destruct (get id (tabs p)) eqn:Hnew; [done|].
    set (tab := newTab _ _ _).
    cbn [tabs tabContents with_tabs with_tabContents emit].
    rewrite (set_new id tab) by done.
    set (p3 := emit _ _).
    assert (all_drawn (tabs p3)) as Hp3.
    { apply Forall_app. split; [done|]. by repeat constructor. }
    destruct (_ || _); [|done]. by apply setActiveTab_drawn.
  - unfold removeTab. destruct (get id (tabs p)); [|done].
    destruct (get id (tabContents p)); [|done].
    cbn [snd tabs emit repositionTabs with_tabs].
    apply all_drawn_reposition.
    cbn [activeTabId with_tabContents with_tabs].
    case_decide.
    + cbn [tabs with_activeTabId with_tabContents with_tabs].
      destruct (keys (delete id (tabs p))).
      * by apply all_drawn_delete.
      * apply setActiveTab_drawn. by apply all_drawn_delete.
    + by apply all_drawn_delete.
  - by apply setActiveTab_drawn.
  - rewrite on_tab_alter. by apply all_drawn_alter; [apply drawn_hover|].
  - rewrite on_tab_alter. by apply all_drawn_alter; [apply drawn_hover|].
Qed.

(** X29: after every sequence of [addTab], [removeTab], [setActiveTab]
    calls and pointer moves over the headers on a new panel, every header
    is drawn as its flags say: its graphic was last given the active and
    the hovered flag it has now, and its label has the active colour when
    it is active, else the hovered colour when the pointer is over it,
    else the inactive colour. *)
Theorem headers_drawn_as_flagged (calls : list Call)
    (config : UITabbedPanelConfig) :
  Forall (λ kv, drawn_as_flagged kv.2)
         (tabs (perform_all calls (create config))).
Proof.
  apply (foldl_invariant (λ s c, perform c s) (λ p, all_drawn (tabs p))).
  - intros p c. apply perform_drawn.
  - constructor.
Qed.

End TabbedPanelExtras.
